(** * Verification of the CodePush management SDK ([management-sdk.ts])

    The development embeds [AccountManager] from
    [src/script/management-sdk.ts]: its constructor, the [appNameParam]
    URL helper, [generateRandomFilename] and the package bundling routine
    [packageFileFromPath].

    JavaScript strings are modelled by [string] (sequences of 8-bit code
    units) and numbers by the rationals that are binary64 values; the
    Node.js runtime pieces the routine calls into ([path], [fs], event
    emitters, promises, the [slash], [yazl] and [recursive-fs] packages)
    are modelled in their own modules, each from the documented behaviour
    of the package. *)

From Stdlib Require Import ZArith QArith.Qround QArith.QArith_base.
From Stdlib Require Import Strings.Ascii Strings.String Strings.Byte.
From stdpp Require Import gmap strings list fin_maps sorting.

Local Open Scope string_scope.
Local Open Scope list_scope.

(** ** JavaScript strings *)

Module Js.

(** [s.charAt(pos)]: the one-character string at [pos], or the empty
    string when [pos] is out of range. *)
Definition charAt (s : string) (pos : Z) : string :=
  if (pos <? 0)%Z then ""
  else match String.get (Z.to_nat pos) s with
       | Some c => String c ""
       | None => ""
       end.

(** [s.startsWith(p)]. *)
Fixpoint startsWith (p s : string) : bool :=
  match p, s with
  | "", _ => true
  | String a p', String b s' => if Ascii.eqb a b then startsWith p' s' else false
  | String _ _, "" => false
  end.

(** [s.substr(n)]: the string without its first [n] code units. *)
Fixpoint substr (n : nat) (s : string) : string :=
  match n, s with
  | O, _ => s
  | S n', String _ s' => substr n' s'
  | S _, "" => ""
  end.

(** [s.replace(pat, rep)] for a string pattern [pat] and a replacement
    [rep] without [$] patterns: only the first occurrence of [pat] is
    replaced. *)
Fixpoint replace (pat rep s : string) : string :=
  if startsWith pat s then rep +:+ substr (String.length pat) s
  else match s with
       | "" => ""
       | String c s' => String c (replace pat rep s')
       end.

(** [s.replace(/c/g, rep)] for a one-character pattern with the global
    flag: every occurrence is replaced. *)
Fixpoint replaceAll (c : ascii) (rep s : string) : string :=
  match s with
  | "" => ""
  | String a s' =>
      if Ascii.eqb a c then rep +:+ replaceAll c rep s'
      else String a (replaceAll c rep s')
  end.

(** [s.split(sep)] for a one-character separator. *)
Fixpoint split (sep : ascii) (s : string) : list string :=
  match s with
  | "" => [""]
  | String c s' =>
      if Ascii.eqb c sep then "" :: split sep s'
      else match split sep s' with
           | h :: t => String c h :: t
           | [] => [String c ""]
           end
  end.

(** [parts.join(sep)]. *)
Definition join (sep : string) (parts : list string) : string :=
  String.concat sep parts.

(** Does the code unit [c] occur in [s]? *)
Fixpoint contains (c : ascii) (s : string) : bool :=
  match s with
  | "" => false
  | String a s' => if Ascii.eqb a c then true else contains c s'
  end.

(** Number of occurrences of [c] in [s]. *)
Fixpoint count (c : ascii) (s : string) : nat :=
  match s with
  | "" => 0
  | String a s' => (if Ascii.eqb a c then 1 else 0) + count c s'
  end.

End Js.

(** ** JavaScript numbers

    A [Number] is a binary64 floating-point value.  The finite ones are
    rationals: integer multiples of [2^-1074] with at most 53 significant
    bits.  Arithmetic computes the exact result and rounds it to the
    nearest such value, ties to the even one.  Magnitudes of [2^1024] and
    more, which overflow to [Infinity], do not occur here. *)

Module Number.

Definition scale : Z := 2 ^ 1074.

(** [a / b] rounded to the nearest integer, ties to the even one, for
    [0 < b]. *)
Definition round_half_even (a b : Z) : Z :=
  let t := (a / b)%Z in
  match (2 * (a mod b) ?= b)%Z with
  | Lt => t
  | Gt => (t + 1)%Z
  | Eq => if Z.even t then t else (t + 1)%Z
  end.

(** The double nearest to [q], for [0 <= q]: [q] is counted in units of
    [2^-1074]; [shift] is the number of low bits that do not fit into 53
    significant ones. *)
Definition round_nonneg (q : Q) : Q :=
  let a := (Qnum q * scale)%Z in
  let b := Zpos (Qden q) in
  let shift := Z.max 0 (Z.log2 (a / b) - 52) in
  let p := (2 ^ shift)%Z in
  Qmake (round_half_even a (b * p) * p) (Z.to_pos scale).

Definition round (q : Q) : Q :=
  if (Qnum q <? 0)%Z then Qopp (round_nonneg (Qopp q)) else round_nonneg q.

(** Is the rational [q] a double? *)
Definition is_double (q : Q) : bool := Qeq_bool (round q) q.

(** [x * y]. *)
Definition mul (x y : Q) : Q := round (x * y).

End Number.

(** ** Errors thrown or passed to callbacks *)

Inductive Error : Type :=
  | CodePushUnauthorizedError (message : string)
  | JsError (message : string)
  | SystemError (code : string) (syscall : string) (path : string).

(** ** The [AccountManager] constructor and [appNameParam] *)

Section AccountManager.

(** [RequestManager], [Adapter] and [Headers] live in [../utils] and
    [./types]; their constructors are parameters of the model. *)
Variables RequestManager Adapter Headers : Type.
Variable new_RequestManager :
  option string -> option Headers -> option string -> option string ->
  RequestManager.
Variable new_Adapter : RequestManager -> Adapter.

(** The private fields of an instance; [None] is [undefined]. *)
Record AccountManager : Type := {
  _accessKey : option string;
  _requestManager : option RequestManager;
  _adapter : option Adapter
}.

(** The object [new] hands to the constructor. *)
Definition uninitialized : AccountManager :=
  {| _accessKey := None; _requestManager := None; _adapter := None |}.

(** JavaScript truthiness of a value typed [string]: [undefined],
    [null] (both [None]) and the empty string are falsy. *)
Definition truthy (v : option string) : bool :=
  match v with
  | None => false
  | Some s => negb (String.eqb s "")
  end.

(** The constructor: the thrown error or normal completion, paired with
    the fields of [this] when the constructor stops. *)
Definition constructor (accessKey : option string)
    (customHeaders : option Headers) (serverUrl proxy : option string)
    (this : AccountManager) : (Error + unit) * AccountManager :=
  if negb (truthy accessKey)
  then (inl (CodePushUnauthorizedError "A token must be specified."), this)
  else
    let this := {| _accessKey := accessKey;
                   _requestManager := _requestManager this;
                   _adapter := _adapter this |} in
    let this := {| _accessKey := _accessKey this;
                   _requestManager :=
                     Some (new_RequestManager accessKey customHeaders
                                              serverUrl proxy);
                   _adapter := _adapter this |} in
    let this := {| _accessKey := _accessKey this;
                   _requestManager := _requestManager this;
                   _adapter := new_Adapter <$> _requestManager this |} in
    (inr tt, this).

(** [get accessKey()]. *)
Definition accessKey (this : AccountManager) : option string :=
  _accessKey this.

(** [appNameParam]: [appName.replace("/", "~~")]. *)
Definition appNameParam (appName : string) : string :=
  Js.replace "/" "~~" appName.

End AccountManager.

Arguments uninitialized {RequestManager Adapter}.
Arguments constructor {RequestManager Adapter Headers}.
Arguments accessKey {RequestManager Adapter}.

(** ** Node's [path] module (POSIX flavour) and the [slash] package

    [path] is a Node.js built-in and [slash] an npm package; both are
    modelled from their documented algorithms.  [cwd] stands for the value
    of [process.cwd()]. *)

Module Path.

Definition sep : ascii := "/"%char.

(** [path.isAbsolute(p)]. *)
Definition isAbsolute (p : string) : bool :=
  match p with
  | String c _ => Ascii.eqb c sep
  | "" => false
  end.

(** [normalizeArray(parts, allowAboveRoot)]: resolves [.] and [..] in a
    list of path components.  [res] is the stack of kept components, last
    pushed first. *)
Fixpoint normalizeArray_loop (allowAboveRoot : bool) (parts res : list string)
  : list string :=
  match parts with
  | [] => res
  | p :: parts' =>
      if String.eqb p "" || String.eqb p "." then
        normalizeArray_loop allowAboveRoot parts' res
      else if String.eqb p ".." then
        match res with
        | top :: below =>
            if String.eqb top ".." then
              normalizeArray_loop allowAboveRoot parts'
                (if allowAboveRoot then ".." :: res else res)
            else normalizeArray_loop allowAboveRoot parts' below
        | [] =>
            normalizeArray_loop allowAboveRoot parts'
              (if allowAboveRoot then ".." :: res else res)
        end
      else normalizeArray_loop allowAboveRoot parts' (p :: res)
  end.

Definition normalizeArray (parts : list string) (allowAboveRoot : bool)
  : list string :=
  rev (normalizeArray_loop allowAboveRoot parts []).

(** The loop of [path.resolve]: [paths] holds the arguments from the last
    to the first, followed by [process.cwd()]. *)
Fixpoint resolve_loop (paths : list string) (resolvedPath : string)
  : string * bool :=
  match paths with
  | [] => (resolvedPath, false)
  | path :: rest =>
      if String.eqb path "" then resolve_loop rest resolvedPath
      else
        let resolvedPath := path +:+ "/" +:+ resolvedPath in
        if isAbsolute path then (resolvedPath, true)
        else resolve_loop rest resolvedPath
  end.

(** The components of the absolute path that [args] resolve to. *)
Definition resolve_parts (cwd : string) (args : list string) : list string :=
  let '(resolvedPath, resolvedAbsolute) := resolve_loop (rev args ++ [cwd]) "" in
  normalizeArray (Js.split sep resolvedPath) (negb resolvedAbsolute).

(** [path.resolve(...args)]. *)
Definition resolve (cwd : string) (args : list string) : string :=
  let '(resolvedPath, resolvedAbsolute) := resolve_loop (rev args ++ [cwd]) "" in
  let resolvedPath :=
    Js.join "/" (normalizeArray (Js.split sep resolvedPath)
                                (negb resolvedAbsolute)) in
  let r := (if resolvedAbsolute then "/" else "") +:+ resolvedPath in
  if String.eqb r "" then "." else r.

(** The last code unit of a string. *)
Fixpoint lastChar (s : string) : option ascii :=
  match s with
  | "" => None
  | String c "" => Some c
  | String _ s' => lastChar s'
  end.

(** [path.normalize(p)]. *)
Definition normalize (p : string) : string :=
  let isAbs := isAbsolute p in
  let trailingSlash :=
    match lastChar p with Some c => Ascii.eqb c sep | None => false end in
  let path := Js.join "/" (normalizeArray (Js.split sep p) (negb isAbs)) in
  let path := if String.eqb path "" && negb isAbs then "." else path in
  let path :=
    if negb (String.eqb path "") && trailingSlash then path +:+ "/" else path in
  (if isAbs then "/" else "") +:+ path.

(** [path.join(...args)]. *)
Definition join (args : list string) : string :=
  normalize
    (Js.join "/" (List.filter (fun segment => negb (String.eqb segment "")) args)).

(** The helper [trim] of [path.relative]: drops the empty strings at both
    ends of a list of components. *)
Fixpoint trim_start (arr : list string) : list string :=
  match arr with
  | [] => []
  | a :: arr' => if String.eqb a "" then trim_start arr' else arr
  end.

Definition trim (arr : list string) : list string :=
  rev (trim_start (rev (trim_start arr))).

(** Length of the common prefix of two lists of components. *)
Fixpoint samePartsLength (fromParts toParts : list string) : nat :=
  match fromParts, toParts with
  | f :: fs, t :: ts => if String.eqb f t then S (samePartsLength fs ts) else 0
  | _, _ => 0
  end.

(** [path.relative(from, to)]. *)
Definition relative (cwd from to : string) : string :=
  let from := Js.substr 1 (resolve cwd [from]) in
  let to := Js.substr 1 (resolve cwd [to]) in
  let fromParts := trim (Js.split sep from) in
  let toParts := trim (Js.split sep to) in
  let same := samePartsLength fromParts toParts in
  let outputParts :=
    List.repeat ".." (List.length fromParts - same) ++ drop same toParts in
  Js.join "/" outputParts.

(** The backwards scan of [path.dirname] over the code units after the
    first one, last unit first: skips trailing separators, then the last
    component, and stops at the separator before it. *)
Fixpoint dirname_scan (units : list ascii) (matchedSlash : bool)
  : option (list ascii) :=
  match units with
  | [] => None
  | c :: units' =>
      if Ascii.eqb c sep then
        if matchedSlash then dirname_scan units' true else Some units'
      else dirname_scan units' false
  end.

(** [path.dirname(p)]. *)
Definition dirname (p : string) : string :=
  match p with
  | "" => "."
  | String c0 tail =>
      let hasRoot := Ascii.eqb c0 sep in
      match dirname_scan (rev (list_ascii_of_string tail)) true with
      | None => if hasRoot then "/" else "."
      | Some before =>
          if hasRoot && Nat.eqb (List.length before) 0 then "//"
          else String c0 (string_of_list_ascii (rev before))
      end
  end.

(** The last component of the location a path resolves to; the empty
    string for the file system root. *)
Definition resolved_name (cwd p : string) : string :=
  List.last (resolve_parts cwd [p]) "".

Definition backslash : ascii := "092"%char.

(** The [slash] package (1.x): backslashes become forward slashes, except
    in extended-length paths and in paths with a code unit above [0x80],
    which are returned unchanged. *)
Definition isExtendedLengthPath (str : string) : bool :=
  Js.startsWith (String backslash (String backslash (String "?" (String backslash "")))) str.

Fixpoint hasNonAscii (str : string) : bool :=
  match str with
  | "" => false
  | String c s' => Nat.ltb 128 (nat_of_ascii c) || hasNonAscii s'
  end.

Definition slash (str : string) : string :=
  if isExtendedLengthPath str || hasNonAscii str then str
  else Js.replaceAll backslash "/" str.

End Path.

(** ** The file system

    A disk maps absolute, normalised paths to nodes.  A regular file holds
    raw bytes or a ZIP container, described by its members and by whether
    its central directory has been written. *)

Inductive Content : Type :=
  | Raw (data : list byte)
  | ZipArchive (entries : list Member) (complete : bool)
with Member : Type :=
  | mkMember (entryName : string) (content : Content).

Definition member_name (m : Member) : string :=
  match m with mkMember n _ => n end.

Definition member_content (m : Member) : Content :=
  match m with mkMember _ c => c end.

Inductive Node : Type :=
  | RegularFile (content : Content)
  | Directory
  | SymbolicLink (target : string).

(** What an [fs.Stats] object reports. *)
Inductive Stats : Type := StatsFile | StatsDirectory | StatsSymbolicLink.

Definition isDirectory (s : Stats) : bool :=
  match s with StatsDirectory => true | _ => false end.

Definition isFile (s : Stats) : bool :=
  match s with StatsFile => true | _ => false end.

Module Fs.

Definition stats_of (n : Node) : Stats :=
  match n with
  | RegularFile _ => StatsFile
  | Directory => StatsDirectory
  | SymbolicLink _ => StatsSymbolicLink
  end.

(** The absolute, normalised form of [p]. *)
Definition os_path (cwd p : string) : string := Path.resolve cwd [p].

(** The path of the entry [name] of the directory [dir]. *)
Definition child (dir name : string) : string :=
  if String.eqb dir "/" then "/" +:+ name else dir +:+ "/" +:+ name.

(** The directory above [dir]; the root is its own parent. *)
Definition parent (dir : string) : string := Path.dirname dir.

(** The number of symbolic links followed before [ELOOP]. *)
Definition max_links : nat := 40.

(** Path resolution as the kernel does it: the components [names] are
    looked up one after the other, starting in the directory [dir].  A
    symbolic link is followed when a component comes after it, a trailing
    slash included; the link named by the last component is followed when
    [follow_last] is set.  The root directory always exists; any other
    directory on the way must be on the disk.  The result is the path
    reached and its node, or an error code. *)
Fixpoint walk (fuel : nat) (disk : gmap string Node) (follow_last : bool)
    (dir : string) (names : list string) {struct fuel}
  : string + (string * Node) :=
  (fix step (dir : string) (names : list string) {struct names}
     : string + (string * Node) :=
     match names with
     | [] => inr (dir, Directory)
     | name :: rest =>
         if String.eqb name "" || String.eqb name "." then step dir rest
         else if String.eqb name ".." then step (parent dir) rest
         else
           let p := child dir name in
           match disk !! p with
           | None => inl "ENOENT"
           | Some Directory => step p rest
           | Some (RegularFile c) =>
               match rest with
               | [] => inr (p, RegularFile c)
               | _ :: _ => inl "ENOTDIR"
               end
           | Some (SymbolicLink target) =>
               if match rest with [] => negb follow_last | _ :: _ => false end
               then inr (p, SymbolicLink target)
               else
                 match fuel with
                 | O => inl "ELOOP"
                 | S fuel' =>
                     if String.eqb target "" then inl "ENOENT"
                     else
                       walk fuel' disk follow_last
                         (if Path.isAbsolute target then "/" else dir)
                         (Js.split Path.sep target ++ rest)
                 end
           end
     end) dir names.

(** The paths [walk] looks up, in order. *)
Fixpoint walked (fuel : nat) (disk : gmap string Node) (follow_last : bool)
    (dir : string) (names : list string) {struct fuel} : list string :=
  (fix step (dir : string) (names : list string) {struct names} : list string :=
     match names with
     | [] => []
     | name :: rest =>
         if String.eqb name "" || String.eqb name "." then step dir rest
         else if String.eqb name ".." then step (parent dir) rest
         else
           let p := child dir name in
           p ::
           match disk !! p with
           | None => []
           | Some Directory => step p rest
           | Some (RegularFile c) => []
           | Some (SymbolicLink target) =>
               if match rest with [] => negb follow_last | _ :: _ => false end
               then []
               else
                 match fuel with
                 | O => []
                 | S fuel' =>
                     if String.eqb target "" then []
                     else
                       walked fuel' disk follow_last
                         (if Path.isAbsolute target then "/" else dir)
                         (Js.split Path.sep target ++ rest)
                 end
           end
     end) dir names.

(** The directory in which the resolution of [p] starts: the root for an
    absolute path, the working directory otherwise. *)
Definition start (cwd p : string) : string :=
  if Path.isAbsolute p then "/" else Path.resolve cwd [].

(** The path [p] as a system call resolves it; the empty path names
    nothing. *)
Definition lookup (follow_last : bool) (disk : gmap string Node)
    (cwd p : string) : string + (string * Node) :=
  if String.eqb p "" then inl "ENOENT"
  else walk max_links disk follow_last (start cwd p) (Js.split Path.sep p).

(** [lstat]: a symbolic link named by the last component is not
    followed. *)
Definition lstat (disk : gmap string Node) (cwd p : string) : Error + Stats :=
  match lookup false disk cwd p with
  | inr (_, n) => inr (stats_of n)
  | inl code => inl (SystemError code "lstat" p)
  end.

(** The paths looked up when the absolute path [abs] is resolved with
    every link followed. *)
Definition visited (fuel : nat) (disk : gmap string Node) (abs : string)
  : list string :=
  walked fuel disk true "/" (Js.split Path.sep abs).

(** The file behind a path that [recursive-fs] reported: such a path is
    joined with [path.join], hence normalised, and is resolved from its
    absolute form, every link followed. *)
Definition source (disk : gmap string Node) (cwd p : string)
  : string + (string * Node) :=
  walk max_links disk true "/" (Js.split Path.sep (os_path cwd p)).

(** [stat]: symbolic links are followed. *)
Definition stat (disk : gmap string Node) (cwd p : string) : Error + Stats :=
  match source disk cwd p with
  | inr (_, n) => inr (stats_of n)
  | inl code => inl (SystemError code "stat" p)
  end.

(** The whole content of the file a path leads to. *)
Definition readFile (disk : gmap string Node) (cwd p : string)
  : Error + Content :=
  match source disk cwd p with
  | inr (_, RegularFile c) => inr c
  | inr (_, _) => inl (SystemError "EISDIR" "read" p)
  | inl code => inl (SystemError code "open" p)
  end.

(** The number of bytes of a file.  A ZIP container is measured by the
    records that are always there: a local header of 30 bytes, the name
    and the data of each member, and the end record of 22 bytes of a
    complete one (compression, data descriptors and the central directory
    entries are left out).  What is used of it: a container is empty only
    as long as nothing has been written to it. *)
Fixpoint size (c : Content) : nat :=
  match c with
  | Raw data => List.length data
  | ZipArchive entries complete =>
      (fix total (ms : list Member) : nat :=
         match ms with
         | [] => 0
         | m :: ms' =>
             match m with
             | mkMember entryName content =>
                 30 + String.length entryName + size content
             end + total ms'
         end) entries
      + (if complete then 22 else 0)
  end.

(** The [size] field of the [fs.Stats] of the regular file at [p]. *)
Definition stat_size (disk : gmap string Node) (cwd p : string) : nat :=
  match readFile disk cwd p with
  | inr c => size c
  | inl _ => 0
  end.

End Fs.

(** ** Promises, event emitters and the process state *)

(** [PackageFile]. *)
Record PackageFile : Type := {
  isTemporary : bool;
  path : string
}.

Inductive Promise : Type :=
  | Pending
  | Fulfilled (value : PackageFile)
  | Rejected (reason : Error).

(** The event emitters of one bundling: the [yazl.ZipFile], its
    [outputStream] and the [fs.WriteStream]. *)
Inductive Emitter : Type := ZipFileE | OutputStreamE | WriteStreamE.

Inductive Event : Type :=
  | EvError (error : Error)
  | EvClose.

Definition event_name (ev : Event) : string :=
  match ev with EvError _ => "error" | EvClose => "close" end.

(** The two listener closures of [packageFileFromPath]:
    [(error) => { reject(error); }] and the ["close"] listener, which
    captures [fileName]. *)
Inductive Listener : Type :=
  | OnErrorReject
  | OnCloseResolve (fileName : string).

(** Operations that reach the operating system. *)
Inductive IO : Type :=
  | IO_lstat (p : string)
  | IO_readdirr (p : string)
  | IO_open (p : string)
  | IO_stat (p : string)
  | IO_read (p : string)
  | IO_write (p : string)
  | IO_close (p : string).

(** A [yazl.ZipFile]: the queued [(realPath, metadataPath)] pairs and
    whether [end()] was called. *)
Record ZipFile : Type := {
  zip_entries : list (string * string);
  zip_ended : bool
}.

(** An [fs.WriteStream]: the path it was created with, the source piped
    into it, whether its descriptor has been closed. *)
Record WriteStream : Type := {
  ws_path : string;
  ws_source : option Emitter;
  ws_closed : bool
}.

Record State : Type := {
  disk : gmap string Node;
  random_calls : nat;
  getPackageFilePromise : option Promise;
  listeners : list (Emitter * string * Listener);
  zipFile : option ZipFile;
  writeStream : option WriteStream;
  scan_request : option string;
  io_log : list IO;
  uncaught : option Error
}.

(** What the process cannot control: the working directory, the values
    [Math.random()] returns call after call, what [recursive-fs] reports
    for a directory, and the I/O failures of source reads and of the
    operations on the archive file (numbered from the open). *)
Record Env : Type := {
  cwd : string;
  Math_random_values : nat -> Q;
  readdirr_result : string -> Error + (list string * list string);
  read_fault : string -> option Error;
  write_fault : nat -> option Error
}.

Definition initial_state (d : gmap string Node) : State :=
  {| disk := d; random_calls := 0; getPackageFilePromise := None;
     listeners := []; zipFile := None; writeStream := None;
     scan_request := None; io_log := []; uncaught := None |}.

Definition set_disk (f : gmap string Node -> gmap string Node) (st : State) : State :=
  {| disk := f (disk st); random_calls := random_calls st;
     getPackageFilePromise := getPackageFilePromise st;
     listeners := listeners st; zipFile := zipFile st;
     writeStream := writeStream st; scan_request := scan_request st;
     io_log := io_log st; uncaught := uncaught st |}.

Definition set_random_calls (n : nat) (st : State) : State :=
  {| disk := disk st; random_calls := n;
     getPackageFilePromise := getPackageFilePromise st;
     listeners := listeners st; zipFile := zipFile st;
     writeStream := writeStream st; scan_request := scan_request st;
     io_log := io_log st; uncaught := uncaught st |}.

Definition set_promise (p : option Promise) (st : State) : State :=
  {| disk := disk st; random_calls := random_calls st;
     getPackageFilePromise := p;
     listeners := listeners st; zipFile := zipFile st;
     writeStream := writeStream st; scan_request := scan_request st;
     io_log := io_log st; uncaught := uncaught st |}.

Definition set_listeners (l : list (Emitter * string * Listener)) (st : State) : State :=
  {| disk := disk st; random_calls := random_calls st;
     getPackageFilePromise := getPackageFilePromise st;
     listeners := l; zipFile := zipFile st;
     writeStream := writeStream st; scan_request := scan_request st;
     io_log := io_log st; uncaught := uncaught st |}.

Definition set_zipFile (z : option ZipFile) (st : State) : State :=
  {| disk := disk st; random_calls := random_calls st;
     getPackageFilePromise := getPackageFilePromise st;
     listeners := listeners st; zipFile := z;
     writeStream := writeStream st; scan_request := scan_request st;
     io_log := io_log st; uncaught := uncaught st |}.

Definition set_writeStream (w : option WriteStream) (st : State) : State :=
  {| disk := disk st; random_calls := random_calls st;
     getPackageFilePromise := getPackageFilePromise st;
     listeners := listeners st; zipFile := zipFile st;
     writeStream := w; scan_request := scan_request st;
     io_log := io_log st; uncaught := uncaught st |}.

Definition set_scan_request (r : option string) (st : State) : State :=
  {| disk := disk st; random_calls := random_calls st;
     getPackageFilePromise := getPackageFilePromise st;
     listeners := listeners st; zipFile := zipFile st;
     writeStream := writeStream st; scan_request := r;
     io_log := io_log st; uncaught := uncaught st |}.

Definition log_io (io : IO) (st : State) : State :=
  {| disk := disk st; random_calls := random_calls st;
     getPackageFilePromise := getPackageFilePromise st;
     listeners := listeners st; zipFile := zipFile st;
     writeStream := writeStream st; scan_request := scan_request st;
     io_log := io_log st ++ [io]; uncaught := uncaught st |}.

Definition set_uncaught (e : Error) (st : State) : State :=
  {| disk := disk st; random_calls := random_calls st;
     getPackageFilePromise := getPackageFilePromise st;
     listeners := listeners st; zipFile := zipFile st;
     writeStream := writeStream st; scan_request := scan_request st;
     io_log := io_log st;
     uncaught := match uncaught st with Some e0 => Some e0 | None => Some e end |}.

(** ** The monad of synchronous JavaScript code: state and exceptions *)

Inductive Result (A : Type) : Type :=
  | Ok (a : A)
  | Throw (e : Error).

Arguments Ok {A} a.
Arguments Throw {A} e.

Definition M (A : Type) : Type := State -> Result A * State.

Definition ret {A : Type} (a : A) : M A := fun st => (Ok a, st).

Definition throw {A : Type} (e : Error) : M A := fun st => (Throw e, st).

Definition bind {A B : Type} (m : M A) (k : A -> M B) : M B :=
  fun st =>
    match m st with
    | (Ok a, st') => k a st'
    | (Throw e, st') => (Throw e, st')
    end.

Definition modify (f : State -> State) : M unit := fun st => (Ok tt, f st).

#[global] Instance M_ret : MRet M := @ret.
#[global] Instance M_bind : MBind M := fun A B k m => bind m k.

(** [for (var i = 0; i < xs.length; ++i) body(xs[i])]. *)
Fixpoint for_each {A : Type} (xs : list A) (body : A -> M unit) : M unit :=
  match xs with
  | [] => ret tt
  | x :: xs' => body x ;; for_each xs' body
  end.

(** ** Promise settlement and event emission *)

(** A promise is settled once; later calls of [resolve] or [reject] are
    ignored. *)
Definition settle (p : Promise) (st : State) : State :=
  match getPackageFilePromise st with
  | Some Pending => set_promise (Some p) st
  | _ => st
  end.

Definition resolve (value : PackageFile) : State -> State :=
  settle (Fulfilled value).

Definition reject (reason : Error) : State -> State :=
  settle (Rejected reason).

Definition Emitter_eqb (a b : Emitter) : bool :=
  match a, b with
  | ZipFileE, ZipFileE | OutputStreamE, OutputStreamE
  | WriteStreamE, WriteStreamE => true
  | _, _ => false
  end.

Section Bundling.

Variable env : Env.

(** The body of a listener closure. *)
Definition run_listener (l : Listener) (ev : Event) (st : State) : State :=
  match l, ev with
  | OnErrorReject, EvError error => reject error st
  | OnCloseResolve fileName, EvClose =>
      let filePath := Path.join [cwd env; fileName] in
      resolve {| isTemporary := true; path := filePath |} st
  | _, _ => st
  end.

(** [emitter.emit(name, payload)]: runs the listeners registered for the
    event on that emitter; an ["error"] event without a listener is thrown
    and, inside an I/O callback, becomes an uncaught exception. *)
Definition emit (em : Emitter) (ev : Event) (st : State) : State :=
  let ls :=
    List.filter
      (fun r => Emitter_eqb (fst (fst r)) em
                && String.eqb (snd (fst r)) (event_name ev))
      (listeners st) in
  match ls, ev with
  | [], EvError e => set_uncaught e st
  | _, _ => fold_left (fun st r => run_listener (snd r) ev st) ls st
  end.

(** [emitter.on(name, listener)] returns the emitter. *)
Definition on (em : Emitter) (name : string) (l : Listener) : M Emitter :=
  fun st => (Ok em, set_listeners (listeners st ++ [(em, name, l)]) st).

(** [source.pipe(destination)] returns the destination. *)
Definition pipe (source destination : Emitter) : M Emitter :=
  fun st =>
    (Ok destination,
     set_writeStream
       (match writeStream st with
        | Some w => Some {| ws_path := ws_path w; ws_source := Some source;
                            ws_closed := ws_closed w |}
        | None => None
        end) st).

(** *** [fs] and [recursive-fs] calls *)

Definition fs_lstatSync (p : string) : M Stats :=
  fun st =>
    match Fs.lstat (disk st) (cwd env) p with
    | inr stats => (Ok stats, log_io (IO_lstat p) st)
    | inl e => (Throw e, log_io (IO_lstat p) st)
    end.

(** [fs.createWriteStream(p)]: the file is opened later, from the event
    loop. *)
Definition fs_createWriteStream (p : string) : M Emitter :=
  fun st =>
    (Ok WriteStreamE,
     set_writeStream
       (Some {| ws_path := p; ws_source := None; ws_closed := false |}) st).

(** [recursiveFs.readdirr(p, callback)]: the walk is started and the
    callback runs later, from the event loop. *)
Definition recursiveFs_readdirr (p : string) : M unit :=
  modify (fun st => set_scan_request (Some p) (log_io (IO_readdirr p) st)).

(** *** [yazl] *)

Definition new_ZipFile : M Emitter :=
  fun st => (Ok ZipFileE,
             set_zipFile (Some {| zip_entries := []; zip_ended := false |}) st).

(** [zipFile.outputStream]. *)
Definition outputStream (zip : Emitter) : Emitter := OutputStreamE.

Definition isLetter (c : ascii) : bool :=
  let n := nat_of_ascii c in
  (Nat.leb 65 n && Nat.leb n 90) || (Nat.leb 97 n && Nat.leb n 122).

(** Does the path start with a drive letter and a colon? *)
Definition hasDriveLetter (s : string) : bool :=
  match s with
  | String c (String ":" _) => isLetter c
  | _ => false
  end.

(** The check [yazl] applies to the name of a file entry.  The name must
    not be empty; its backslashes are turned into slashes; what results
    must not be absolute, have a [..] component or end with a slash, and
    is the name the entry gets. *)
Definition validateMetadataPath (metadataPath : string) : M string :=
  if String.eqb metadataPath "" then throw (JsError "empty metadataPath")
  else
    let metadataPath := Js.replaceAll Path.backslash "/" metadataPath in
    if hasDriveLetter metadataPath || Path.isAbsolute metadataPath then
      throw (JsError ("absolute path: " +:+ metadataPath))
    else if bool_decide (".." ∈ Js.split Path.sep metadataPath) then
      throw (JsError ("invalid relative path: " +:+ metadataPath))
    else if match Path.lastChar metadataPath with
            | Some c => Ascii.eqb c Path.sep
            | None => false
            end then
      throw (JsError ("file path cannot end with '/': " +:+ metadataPath))
    else mret metadataPath.

(** The number of bytes of the UTF-8 form of a string of code units
    below 256. *)
Fixpoint utf8_length (s : string) : Z :=
  match s with
  | "" => 0
  | String c s' =>
      ((if Nat.ltb (nat_of_ascii c) 128 then 1 else 2) + utf8_length s')%Z
  end.

(** [new Entry(metadataPath, false, options)]: the UTF-8 form of the name
    must fit a 16-bit length; the statement that reports a longer one
    names a variable that does not exist. *)
Definition new_Entry (metadataPath : string) : M string :=
  if (65535 <? utf8_length metadataPath)%Z
  then throw (JsError "utf8FileName is not defined")
  else mret metadataPath.

(** [zipFile.addFile(realPath, metadataPath)]: checks the name and queues
    the entry; [fs.stat] is asked for the file and answers later, from the
    event loop. *)
Definition zipFile_addFile (realPath metadataPath : string) : M unit :=
  metadataPath ← validateMetadataPath metadataPath;
  metadataPath ← new_Entry metadataPath;
  modify (fun st =>
    set_zipFile
      (match zipFile st with
       | Some z => Some {| zip_entries := zip_entries z ++ [(realPath, metadataPath)];
                           zip_ended := zip_ended z |}
       | None => None
       end) st).

(** [zipFile.end()]. *)
Definition zipFile_end : M unit :=
  modify (fun st =>
    set_zipFile
      (match zipFile st with
       | Some z => Some {| zip_entries := zip_entries z; zip_ended := true |}
       | None => None
       end) st).

(** *** [generateRandomFilename] *)

Definition validChar : string :=
  "ABCDEFGHIJKLMNOPQRSTUVWXYZabcdefghijklmnopqrstuvwxyz0123456789".

(** [Math.random()]: the next value of the environment's sequence. *)
Definition Math_random : M Q :=
  fun st => (Ok (Math_random_values env (random_calls st)),
             set_random_calls (S (random_calls st)) st).

Definition Math_floor (x : Q) : Z := Qfloor x.

(** The loop [for (var i = 0; i < length; i++)], by the number of
    iterations left. *)
Fixpoint generateRandomFilename_loop (iterations : nat) (filename : string)
  : M string :=
  match iterations with
  | O => mret filename
  | S iterations' =>
      r ← Math_random;
      let filename :=
        filename +:+
        Js.charAt validChar
          (Math_floor
             (Number.mul r (inject_Z (Z.of_nat (String.length validChar))))) in
      generateRandomFilename_loop iterations' filename
  end.

Definition generateRandomFilename (length : Z) : M string :=
  generateRandomFilename_loop (Z.to_nat length) "".

(** *** [packageFileFromPath] *)

(** The name given to one scanned file inside the archive (the body of
    the loop, up to [slash]). *)
Definition entry_name (directoryPath file : string) : string :=
  let baseDirectoryPath := Path.dirname directoryPath in
  let relativePath := Path.relative (cwd env) baseDirectoryPath file in
  Path.slash relativePath.

(** The callback passed to [recursiveFs.readdirr]. *)
Definition readdirr_callback (directoryPath : string) (error : option Error)
    (directories files : list string) : M unit :=
  match error with
  | Some error => modify (reject error)
  | None =>
      let baseDirectoryPath := Path.dirname directoryPath in
      name ← generateRandomFilename 15;
      let fileName := name +:+ ".zip" in
      zipFile ← new_ZipFile;
      writeStream ← fs_createWriteStream fileName;
      piped ← pipe (outputStream zipFile) writeStream;
      piped ← on piped "error" OnErrorReject;
      _ ← on piped "close" (OnCloseResolve fileName);
      for_each files (fun file =>
        let relativePath := Path.relative (cwd env) baseDirectoryPath file in
        let relativePath := Path.slash relativePath in
        zipFile_addFile file relativePath);;
      zipFile_end
  end.

Definition new_Promise : M unit := modify (set_promise (Some Pending)).

(** The synchronous part: the promise is created and, for a directory,
    the walk is requested. *)
Definition packageFileFromPath (filePath : string) : M unit :=
  stats ← fs_lstatSync filePath;
  if isDirectory stats then
    new_Promise;;
    let directoryPath := filePath in
    recursiveFs_readdirr directoryPath
  else
    new_Promise;;
    modify (resolve {| isTemporary := false; path := filePath |}).

(** *** The event loop

    What was started by the synchronous code completes in the order in
    which it was asked for: the walk; then, for a directory, the opening
    of the archive file, the [fs.stat] of every queued entry, and the
    pumping of the entries.  An exception that reaches the event loop is
    recorded in [uncaught] and the loop goes on, as in a host that handles
    it; a host that exits there leaves behind a prefix of these effects. *)

(** [recursive-fs] calls back with the outcome of the walk; an exception
    thrown by the callback is uncaught. *)
Definition deliver_readdirr (st : State) : State :=
  match scan_request st with
  | None => st
  | Some directoryPath =>
      let st := set_scan_request None st in
      let '(r, st') :=
        match readdirr_result env directoryPath with
        | inl e => readdirr_callback directoryPath (Some e) [] [] st
        | inr (directories, files) =>
            readdirr_callback directoryPath None directories files st
        end in
      match r with
      | Ok _ => st'
      | Throw e => set_uncaught e st'
      end
  end.

Definition close_writeStream (st : State) : State :=
  set_writeStream
    (match writeStream st with
     | Some w => Some {| ws_path := ws_path w; ws_source := ws_source w;
                         ws_closed := true |}
     | None => None
     end) st.

(** A failed operation on the archive file: the write stream emits
    ["error"], is destroyed, and emits ["close"]. *)
Definition writeStream_fail (e : Error) (st : State) : State :=
  emit WriteStreamE EvClose
    (close_writeStream (emit WriteStreamE (EvError e) st)).

(** The callback of the [fs.stat] that [addFile] asked for: a file that
    cannot be examined, or is not a regular file, makes the [ZipFile] emit
    ["error"] and its entry never becomes ready; otherwise the entry is
    ready and the size of the file is kept with it. *)
Definition statEntry (entry : string * string) (st : State)
  : (string * string * option nat) * State :=
  let '(realPath, metadataPath) := entry in
  let st := log_io (IO_stat realPath) st in
  match Fs.stat (disk st) (cwd env) realPath with
  | inl e => ((realPath, metadataPath, None), emit ZipFileE (EvError e) st)
  | inr stats =>
      if negb (isFile stats) then
        ((realPath, metadataPath, None),
         emit ZipFileE (EvError (JsError ("not a file: " +:+ realPath))) st)
      else
        ((realPath, metadataPath,
          Some (Fs.stat_size (disk st) (cwd env) realPath)), st)
  end.

Fixpoint statEntries (entries : list (string * string)) (st : State)
  : list (string * string * option nat) * State :=
  match entries with
  | [] => ([], st)
  | entry :: rest =>
      let '(entry', st) := statEntry entry st in
      let '(rest', st) := statEntries rest st in
      (entry' :: rest', st)
  end.

(** [yazl] pumps the entries one after the other into the output stream,
    which the pipe writes to the archive file [dest].  [k] numbers the
    entries and the final record as operations on [dest]; [written] holds
    the members already there, and is [None] once an operation on [dest]
    has failed: the pipe is then undone and what [yazl] goes on to produce
    reaches no file.

    The pump waits for ever at an entry that is not ready.  For a ready
    entry it writes the local file header, then reads the file into the
    archive and compares the number of bytes read with the size [fs.stat]
    reported.  A file that cannot be read, or has another size, makes the
    [ZipFile] emit ["error"], and the pump stops there.  Once every entry
    is written and [end()] was called, the central directory follows, the
    stream ends and ["close"] is emitted. *)
Fixpoint pumpEntries (dest : string) (k : nat)
    (entries : list (string * string * option nat))
    (written : option (list Member)) (ended : bool) (st : State) : State :=
  match entries with
  | [] =>
      match ended, written with
      | true, Some written =>
          match write_fault env k with
          | Some e => writeStream_fail e (log_io (IO_write dest) st)
          | None =>
              emit WriteStreamE EvClose
                (close_writeStream
                   (log_io (IO_close dest)
                      (log_io (IO_write dest)
                         (set_disk
                            (insert dest (RegularFile (ZipArchive written true)))
                            st))))
          end
      | _, _ => st
      end
  | (realPath, metadataPath, None) :: _ => st
  | (realPath, metadataPath, Some size) :: rest =>
      let '(written, st) :=
        match written with
        | None => (None, st)
        | Some written =>
            match write_fault env k with
            | Some e => (None, writeStream_fail e (log_io (IO_write dest) st))
            | None =>
                (Some written,
                 log_io (IO_write dest)
                   (set_disk
                      (insert dest
                         (RegularFile
                            (ZipArchive
                               (written ++ [mkMember metadataPath (Raw [])])
                               false)))
                      st))
            end
        end in
      let st := log_io (IO_read realPath) st in
      match read_fault env realPath,
            Fs.readFile (disk st) (cwd env) realPath with
      | Some e, _ | None, inl e => emit ZipFileE (EvError e) st
      | None, inr content =>
          let '(written, st) :=
            match written with
            | None => (None, st)
            | Some written =>
                let written := written ++ [mkMember metadataPath content] in
                (Some written,
                 log_io (IO_write dest)
                   (set_disk
                      (insert dest (RegularFile (ZipArchive written false)))
                      st))
            end in
          if Nat.eqb (Fs.size content) size then
            pumpEntries dest (S k) rest written ended st
          else
            emit ZipFileE
              (EvError (JsError "file data stream has unexpected number of bytes"))
              st
      end
  end.

(** The write stream opens (creating or truncating) its file; then the
    [fs.stat] callbacks of the queued entries run and the archive is
    pumped.  The file is created at the path of the stream itself: the
    model covers a working directory that no symbolic link leads to and
    archive paths at which no symbolic link lies; whether the open fails
    is told by [write_fault]. *)
Definition stream_phase (st : State) : State :=
  match zipFile st, writeStream st with
  | Some z, Some w =>
      match ws_source w with
      | Some OutputStreamE =>
          let dest := Fs.os_path (cwd env) (ws_path w) in
          let st := log_io (IO_open dest) st in
          let '(written, st) :=
            match write_fault env 0 with
            | Some e => (None, writeStream_fail e st)
            | None =>
                (Some [],
                 set_disk (insert dest (RegularFile (ZipArchive [] false))) st)
            end in
          let '(entries, st) := statEntries (zip_entries z) st in
          pumpEntries dest 1 entries written (zip_ended z) st
      | _ => st
      end
  | _, _ => st
  end.

(** [packageFileFromPath(filePath)] followed by the event loop, until
    nothing is left to run: the exception thrown by the call, if any, and
    the final state. *)
Definition packageFileFromPath_settled (filePath : string) (st : State)
  : Result unit * State :=
  match packageFileFromPath filePath st with
  | (Ok tt, st1) => (Ok tt, stream_phase (deliver_readdirr st1))
  | (Throw e, st1) => (Throw e, st1)
  end.

End Bundling.

(** ** Vocabulary of the specification *)

(** The two outcomes of the path classification, read off the branch
    [packageFileFromPath] takes: a directory has its walk requested, a
    single file settles the promise at once. *)
Inductive Classification : Type := IsSingleFile | IsDirectory.

Definition classification (env : Env) (d : gmap string Node) (filePath : string)
  : option Classification :=
  match packageFileFromPath env filePath (initial_state d) with
  | (Ok _, st) =>
      match scan_request st with
      | Some _ => Some IsDirectory
      | None => Some IsSingleFile
      end
  | (Throw _, _) => None
  end.

(** The class [[A-Za-z0-9]]. *)
Definition isAlnum (c : ascii) : bool :=
  let n := nat_of_ascii c in
  (Nat.leb 65 n && Nat.leb n 90) || (Nat.leb 97 n && Nat.leb n 122)
  || (Nat.leb 48 n && Nat.leb n 57).

Fixpoint all_alnum (s : string) : bool :=
  match s with
  | "" => true
  | String c s' => isAlnum c && all_alnum s'
  end.

(** Strips [n] alphanumeric code units from the front of [s]. *)
Fixpoint alnum_prefix (n : nat) (s : string) : option string :=
  match n, s with
  | O, _ => Some s
  | S n', String c s' => if isAlnum c then alnum_prefix n' s' else None
  | S _, "" => None
  end.

(** Does [s] match [^[A-Za-z0-9]{15}\.zip$]? *)
Definition matches_temp_pattern (s : string) : bool :=
  match alnum_prefix 15 s with
  | Some rest => String.eqb rest ".zip"
  | None => false
  end.

(** A path component that names a file or a directory: not empty, without
    separator, and neither [.] nor [..]. *)
Definition proper_name (s : string) : bool :=
  negb (String.eqb s "") && negb (Js.contains Path.sep s)
  && negb (String.eqb s ".") && negb (String.eqb s "..").

(** The listeners [packageFileFromPath] registers for a directory. *)
Definition bundling_listeners (fileName : string)
  : list (Emitter * string * Listener) :=
  [(WriteStreamE, "error", OnErrorReject);
   (WriteStreamE, "close", OnCloseResolve fileName)].

(** The name [yazl] gives the entry it is asked to name [p]. *)
Definition archive_name (p : string) : string :=
  Js.replaceAll Path.backslash "/" p.

(** [yazl] accepts [p] as the name of a file entry and keeps it as it
    is. *)
Definition accepted_name (p : string) : Prop :=
  forall st : State, (validateMetadataPath p ≫= new_Entry) st = (Ok p, st).

(** [yazl] rejects [p] as the name of a file entry: [addFile] throws. *)
Definition rejected_name (p : string) : Prop :=
  exists e, forall st : State,
    (validateMetadataPath p ≫= new_Entry) st = (Throw e, st).

(** [Math.random()] returns doubles in [[0, 1)]. *)
Definition random_in_unit_interval (env : Env) : Prop :=
  forall i, Number.is_double (Math_random_values env i) = true
            /\ (0 <= Math_random_values env i)%Q
            /\ (Math_random_values env i < 1)%Q.

(** [st'] differs from [st] in the queued archive entries at most. *)
Definition same_but_zipFile (st st' : State) : Prop :=
  disk st' = disk st /\ random_calls st' = random_calls st
  /\ getPackageFilePromise st' = getPackageFilePromise st
  /\ listeners st' = listeners st /\ writeStream st' = writeStream st
  /\ scan_request st' = scan_request st /\ io_log st' = io_log st
  /\ uncaught st' = uncaught st.

(** [st'] differs from [st] in the I/O log and the uncaught exception at
    most. *)
Definition same_but_log (st st' : State) : Prop :=
  disk st' = disk st /\ random_calls st' = random_calls st
  /\ getPackageFilePromise st' = getPackageFilePromise st
  /\ listeners st' = listeners st /\ writeStream st' = writeStream st
  /\ scan_request st' = scan_request st /\ zipFile st' = zipFile st.

(** The stack of [normalizeArray] after the components of [s] have been
    processed, starting from [res]. *)
Definition stack (s : string) (res : list string) : list string :=
  Path.normalizeArray_loop false (Js.split Path.sep s) res.

(** The absolute string a path stands for before normalisation. *)
Definition anchor (cwd p : string) : string :=
  if Path.isAbsolute p then p else cwd +:+ String Path.sep p.

(** A run of [n] slashes. *)
Fixpoint slashes (n : nat) : string :=
  match n with
  | O => ""
  | S n' => String Path.sep (slashes n')
  end.

(** What lies at the archive's path [dest] in [st'], against what lay
    there in [st]: the same, an archive without central directory, or,
    when the promise is fulfilled, a complete archive. *)
Definition archive_slot (dest : string) (st st' : State) : Prop :=
  disk st' !! dest = disk st !! dest
  \/ (exists ms, disk st' !! dest = Some (RegularFile (ZipArchive ms false)))
  \/ (exists ms dsc,
        disk st' !! dest = Some (RegularFile (ZipArchive ms true))
        /\ getPackageFilePromise st' = Some (Fulfilled dsc)).

(** What the pump leaves behind, by the final state of the promise. *)
Definition pump_outcome (env : Env) (fileName dest : string)
    (entries : list (string * string * option nat))
    (written : option (list Member)) (ended : bool) (st st' : State) : Prop :=
  (forall p, p <> dest -> disk st' !! p = disk st !! p)
  /\ archive_slot dest st st'
  /\ (forall e, uncaught st = Some e -> uncaught st' = Some e)
  /\ match getPackageFilePromise st' with
     | Some (Fulfilled d) =>
         d = {| isTemporary := true; path := Path.join [cwd env; fileName] |}
         /\ ended = true
         /\ uncaught st' = uncaught st
         /\ last (io_log st') = Some (IO_close dest)
         /\ (forall w, writeStream st = Some w ->
               writeStream st'
               = Some {| ws_path := ws_path w; ws_source := ws_source w;
                         ws_closed := true |})
         /\ exists before ms,
              written = Some before
              /\ disk st' !! dest
                 = Some (RegularFile (ZipArchive (before ++ ms) true))
              /\ Forall2
                   (fun entry m =>
                      member_name m = snd (fst entry)
                      /\ snd entry = Some (Fs.size (member_content m))
                      /\ exists (dk : gmap string Node) (partial : list Member),
                           (forall p, p <> dest -> dk !! p = disk st !! p)
                           /\ dk !! dest
                              = Some (RegularFile
                                        (ZipArchive
                                           (partial ++
                                            [mkMember (snd (fst entry)) (Raw [])])
                                           false))
                           /\ Fs.readFile dk (cwd env) (fst (fst entry))
                              = inr (member_content m))
                   entries ms
     | Some (Rejected e) => exists k, write_fault env k = Some e
     | Some Pending => True
     | None => False
     end.

(** What a bundling of a directory leaves behind once the walk has
    reported [files], by the final state of the promise: [d] is the disk
    before, [name] the generated token. *)
Definition directory_outcome (env : Env) (d : gmap string Node)
    (directoryPath name : string) (files : list string) (st' : State) : Prop :=
  let fileName := name +:+ ".zip" in
  let dest := Fs.os_path (cwd env) fileName in
  (forall p, p <> dest -> disk st' !! p = d !! p)
  /\ (disk st' !! dest = d !! dest
      \/ (exists ms, disk st' !! dest = Some (RegularFile (ZipArchive ms false)))
      \/ (exists ms dsc,
            disk st' !! dest = Some (RegularFile (ZipArchive ms true))
            /\ getPackageFilePromise st' = Some (Fulfilled dsc)))
  /\ match getPackageFilePromise st' with
     | Some (Fulfilled dsc) =>
         dsc = {| isTemporary := true; path := Path.join [cwd env; fileName] |}
         /\ uncaught st' = None
         /\ last (io_log st') = Some (IO_close dest)
         /\ writeStream st'
            = Some {| ws_path := fileName; ws_source := Some OutputStreamE;
                      ws_closed := true |}
         /\ exists ms,
              disk st' !! dest = Some (RegularFile (ZipArchive ms true))
              /\ Forall2
                   (fun file m =>
                      member_name m
                      = archive_name (entry_name env directoryPath file)
                      /\ Fs.readFile d (cwd env) file = inr (member_content m))
                   files ms
     | Some (Rejected e) => exists k, write_fault env k = Some e
     | Some Pending => True
     | None => False
     end.

(** ** URL construction

    The template tag [urlEncode] and the URLs the methods hand to the
    request manager.  [encodeURIComponent] is the JavaScript built-in,
    here for code units below 256 (none is a surrogate, so it never
    throws): unreserved units stand for themselves, the others are
    written as the percent-escaped bytes of their UTF-8 encoding. *)

Module Uri.

(** [A-Z a-z 0-9 - _ . ! ~ * ' ( )]. *)
Definition unreserved (c : ascii) : bool :=
  isAlnum c || Js.contains c "-_.!~*'()".

Fixpoint all_unreserved (s : string) : bool :=
  match s with
  | "" => true
  | String c s' => unreserved c && all_unreserved s'
  end.

Definition hexDigit (n : nat) : ascii :=
  match String.get n "0123456789ABCDEF" with
  | Some c => c
  | None => "0"%char
  end.

(** The escape [%XY] of one byte. *)
Definition percent (b : nat) : string :=
  String "%" (String (hexDigit (b / 16)) (String (hexDigit (b mod 16)) "")).

Definition encode_unit (c : ascii) : string :=
  if unreserved c then String c ""
  else
    let n := nat_of_ascii c in
    if Nat.ltb n 128 then percent n
    else percent (192 + n / 64) +:+ percent (128 + n mod 64).

Fixpoint encodeURIComponent (s : string) : string :=
  match s with
  | "" => ""
  | String c s' => encode_unit c +:+ encodeURIComponent s'
  end.

End Uri.

(** [urlEncode(strings, ...values)]: the template strings with the encoded
    values between them; a value is used only where a template string
    precedes it. *)
Fixpoint urlEncode (strings values : list string) : string :=
  match strings with
  | [] => ""
  | s :: strings' =>
      match values with
      | v :: values' =>
          s +:+ Uri.encodeURIComponent v +:+ urlEncode strings' values'
      | [] => s +:+ urlEncode strings' []
      end
  end.

(** [a || b] on values typed [string]. *)
Definition or_else (a : option string) (b : string) : string :=
  match a with
  | Some s => if String.eqb s "" then b else s
  | None => b
  end.

(** The URL each method passes to the request manager. *)

(** [getAccessKey], [patchAccessKey], [removeAccessKey]. *)
Definition getAccessKey_url (accessKeyName : string) : string :=
  urlEncode ["/accessKeys/"; ""] [accessKeyName].

(** [removeSession]. *)
Definition removeSession_url (machineName : string) : string :=
  urlEncode ["/sessions/"; ""] [machineName].

(** [getApp], [removeApp], [renameApp]. *)
Definition getApp_url (appName : string) : string :=
  urlEncode ["/apps/"; ""] [appNameParam appName].

(** [transferApp]. *)
Definition transferApp_url (appName email : string) : string :=
  urlEncode ["/apps/"; "/transfer/"; ""] [appNameParam appName; email].

(** [getCollaborators]. *)
Definition getCollaborators_url (appName : string) : string :=
  urlEncode ["/apps/"; "/collaborators"] [appNameParam appName].

(** [addCollaborator], [removeCollaborator]. *)
Definition addCollaborator_url (appName email : string) : string :=
  urlEncode ["/apps/"; "/collaborators/"; ""] [appNameParam appName; email].

(** [addDeployment], [getDeployments]. *)
Definition getDeployments_url (appName : string) : string :=
  urlEncode ["/apps/"; "/deployments/"] [appNameParam appName].

(** [getDeployment], [renameDeployment], [removeDeployment]. *)
Definition getDeployment_url (appName deploymentName : string) : string :=
  urlEncode ["/apps/"; "/deployments/"; ""]
            [appNameParam appName; deploymentName].

(** [clearDeploymentHistory], [getDeploymentHistory]. *)
Definition getDeploymentHistory_url (appName deploymentName : string) : string :=
  urlEncode ["/apps/"; "/deployments/"; "/history"]
            [appNameParam appName; deploymentName].

(** [getDeploymentMetrics]. *)
Definition getDeploymentMetrics_url (appName deploymentName : string) : string :=
  urlEncode ["/apps/"; "/deployments/"; "/metrics"]
            [appNameParam appName; deploymentName].

(** [patchRelease]. *)
Definition patchRelease_url (appName deploymentName : string) : string :=
  urlEncode ["/apps/"; "/deployments/"; "/release"]
            [appNameParam appName; deploymentName].

(** [promote]. *)
Definition promote_url (appName sourceDeploymentName
                        destinationDeploymentName : string) : string :=
  urlEncode ["/apps/"; "/deployments/"; "/promote/"; ""]
            [appNameParam appName; sourceDeploymentName;
             destinationDeploymentName].

(** [rollback]; [targetRelease] is optional. *)
Definition rollback_url (appName deploymentName : string)
    (targetRelease : option string) : string :=
  urlEncode ["/apps/"; "/deployments/"; "/rollback/"; ""]
            [appNameParam appName; deploymentName; or_else targetRelease ""].

(** ** Sessions

    The fields of [ServerAccessKey] and [Session] that [getSessions]
    uses. *)

Record ServerAccessKey : Type := {
  isSession : bool;
  expires : Z;
  createdBy : string;
  createdTime : Z
}.

Record Session : Type := {
  loggedInTime : Z;
  machineName : string
}.

(** A JavaScript object created by [{}]: its own properties in creation
    order.  Assigning to the key [__proto__] replaces the prototype and
    creates no own property; [Object.keys] lists the array indices first,
    in ascending order, then the other keys in creation order. *)
Module JsObject.

Fixpoint update {V : Type} (key : string) (v : V) (obj : list (string * V))
  : list (string * V) :=
  match obj with
  | [] => [(key, v)]
  | (k, x) :: rest =>
      if String.eqb k key then (k, v) :: rest else (k, x) :: update key v rest
  end.

(** [obj[key] = v]. *)
Definition set {V : Type} (key : string) (v : V) (obj : list (string * V))
  : list (string * V) :=
  if String.eqb key "__proto__" then obj else update key v obj.

(** [obj[key]] for an own property; [None] is [undefined]. *)
Fixpoint get {V : Type} (key : string) (obj : list (string * V)) : option V :=
  match obj with
  | [] => None
  | (k, x) :: rest => if String.eqb k key then Some x else get key rest
  end.

Definition digit (c : ascii) : option N :=
  let n := N_of_ascii c in
  if (N.leb 48 n && N.leb n 57)%bool then Some (n - 48)%N else None.

Fixpoint parse_digits (acc : N) (s : string) : option N :=
  match s with
  | "" => Some acc
  | String c s' =>
      match digit c with
      | Some d => parse_digits (10 * acc + d)%N s'
      | None => None
      end
  end.

(** The array index a key denotes: a canonical decimal numeral below
    [2^32 - 1]. *)
Definition array_index (key : string) : option N :=
  match key with
  | "" => None
  | String "0" "" => Some 0%N
  | String "0" _ => None
  | _ =>
      match parse_digits 0 key with
      | Some n => if (n <? 4294967295)%N then Some n else None
      | None => None
      end
  end.

Definition index_le (a b : N * string) : Prop := (fst a <= fst b)%N.

#[global] Instance index_le_dec (a b : N * string) : Decision (index_le a b) :=
  N.le_dec (fst a) (fst b).

(** [Object.keys(obj)]. *)
Definition keys {V : Type} (obj : list (string * V)) : list string :=
  let own := map fst obj in
  let indexed := omap (fun k => (fun n => (n, k)) <$> array_index k) own in
  let named :=
    List.filter (fun k => match array_index k with None => true | _ => false end)
                own in
  map snd (merge_sort index_le indexed) ++ named.

End JsObject.

(** The callback [getSessions] passes to [then], applied to
    [res.body.accessKeys]; [now] is [new Date().getTime()]. *)
Definition getSessions_then (now : Z) (accessKeys : list ServerAccessKey)
  : list (option Session) :=
  let sessionMap :=
    fold_left
      (fun sessionMap serverAccessKey =>
         if isSession serverAccessKey && (now <? expires serverAccessKey)%Z
         then JsObject.set (createdBy serverAccessKey)
                {| loggedInTime := createdTime serverAccessKey;
                   machineName := createdBy serverAccessKey |}
                sessionMap
         else sessionMap)
      accessKeys [] in
  let sessions :=
    map (fun machineName => JsObject.get machineName sessionMap)
        (JsObject.keys sessionMap) in
  sessions.

(** The session map once [accessKeys] have been visited, starting from
    [sessionMap]: the [forEach] loop of [getSessions]. *)
Definition sessionMap_after (now : Z) (accessKeys : list ServerAccessKey)
    (sessionMap : list (string * Session)) : list (string * Session) :=
  fold_left
    (fun sessionMap serverAccessKey =>
       if isSession serverAccessKey && (now <? expires serverAccessKey)%Z
       then JsObject.set (createdBy serverAccessKey)
              {| loggedInTime := createdTime serverAccessKey;
                 machineName := createdBy serverAccessKey |}
              sessionMap
       else sessionMap)
    accessKeys sessionMap.

(** The session made from a server key. *)
Definition session_of (key : ServerAccessKey) : Session :=
  {| loggedInTime := createdTime key; machineName := createdBy key |}.

(** A key that [getSessions] counts as a session in use. *)
Definition live (now : Z) (key : ServerAccessKey) : Prop :=
  isSession key = true /\ (now < expires key)%Z.

(** ** Sample environments *)

Definition example_disk : gmap string Node :=
  list_to_map
    [("/srv", Directory);
     ("/srv/app", Directory);
     ("/srv/app/a.txt", RegularFile (Raw [x68; x69]%byte));
     ("/srv/app/sub", Directory);
     ("/srv/app/sub/b.txt", RegularFile (Raw [x62]%byte));
     ("/srv/empty", Directory);
     ("/srv/locked", Directory);
     ("/srv/current", SymbolicLink "/srv/app");
     ("/srv/notes.md", RegularFile (Raw [x6e]%byte));
     ("/work", Directory)].

(** A process in [/work] whose random source always returns one half and
    whose I/O never fails. *)
Definition example_env : Env :=
  {| cwd := "/work";
     Math_random_values := fun _ => (1 # 2)%Q;
     readdirr_result := fun p =>
       if String.eqb p "/srv/app" then
         inr (["/srv/app"; "/srv/app/sub"],
              ["/srv/app/a.txt"; "/srv/app/sub/b.txt"])
       else if String.eqb p "/srv/empty" then inr (["/srv/empty"], [])
       else inl (SystemError "EACCES" "scandir" p);
     read_fault := fun _ => None;
     write_fault := fun _ => None |}.

(** The same process when the walk of [/srv/app] also reported
    [gone.txt], a file deleted before the archive writer reaches it. *)
Definition stale_env : Env :=
  {| cwd := "/work";
     Math_random_values := fun _ => (1 # 2)%Q;
     readdirr_result := fun p =>
       inr (["/srv/app"; "/srv/app/sub"],
            ["/srv/app/a.txt"; "/srv/app/gone.txt"; "/srv/app/sub/b.txt"]);
     read_fault := fun _ => None;
     write_fault := fun _ => None |}.


(** The process of [example_env] on a disk that fills up: the second
    member cannot be written. *)
Definition full_disk_env : Env :=
  {| cwd := cwd example_env;
     Math_random_values := Math_random_values example_env;
     readdirr_result := readdirr_result example_env;
     read_fault := read_fault example_env;
     write_fault := fun k =>
       match k with
       | 2 => Some (SystemError "ENOSPC" "write" "fffffffffffffff.zip")
       | _ => None
       end |}.

(** A process asked to bundle [/srv/app/..]: the walk reports the files
    of [/srv], after one of [/srv/app]. *)
Definition rooted_disk : gmap string Node :=
  <["/srv" := Directory]> example_disk.

Definition parent_env : Env :=
  {| cwd := cwd example_env;
     Math_random_values := Math_random_values example_env;
     readdirr_result := fun p =>
       inr (["/srv/app/.."], ["/srv/app/a.txt"; "/srv/notes.md"]);
     read_fault := read_fault example_env;
     write_fault := write_fault example_env |}.

(** The double nearest to [1/62], which lies below it. *)
Definition below_one_62nd : Q :=
  Qmake ((2 ^ 58 - 8) / 62) (Z.to_pos (2 ^ 58)).

(** * Properties *)

(** ** Strings *)

#[local] Arguments String.append : simpl nomatch.

Lemma append_assoc (a b c : string) : (a +:+ b) +:+ c = a +:+ (b +:+ c).
Proof. induction a as [|x a IH]; simpl; [reflexivity | now rewrite IH]. Qed.

Lemma append_nil_r (a : string) : a +:+ "" = a.
Proof. induction a as [|x a IH]; simpl; [reflexivity | now rewrite IH]. Qed.

Lemma length_append (a b : string) :
  String.length (a +:+ b) = String.length a + String.length b.
Proof. induction a as [|x a IH]; simpl; [reflexivity | now rewrite IH]. Qed.

Lemma count_append (c : ascii) (a b : string) :
  Js.count c (a +:+ b) = Js.count c a + Js.count c b.
Proof.
  induction a as [|x a IH]; simpl; [reflexivity |].
  rewrite IH. lia.
Qed.

Lemma count_not_contains (c : ascii) (s : string) :
  Js.contains c s = false -> Js.count c s = 0.
Proof.
  induction s as [|x s IH]; simpl; [reflexivity |].
  destruct (Ascii.eqb x c); [discriminate | auto].
Qed.

Lemma replace_first (c : ascii) (rep pre post : string) :
  Js.contains c pre = false ->
  Js.replace (String c "") rep (pre +:+ String c post) = pre +:+ rep +:+ post.
Proof.
  induction pre as [|x pre IH]; simpl; intros H.
  - now rewrite Ascii.eqb_refl.
  - rewrite (Ascii.eqb_sym c x).
    destruct (Ascii.eqb x c); [discriminate |].
    now rewrite <- IH.
Qed.

Lemma replace_absent (c : ascii) (rep s : string) :
  Js.contains c s = false -> Js.replace (String c "") rep s = s.
Proof.
  induction s as [|x s IH]; simpl; intros H; [reflexivity |].
  rewrite (Ascii.eqb_sym c x).
  destruct (Ascii.eqb x c); [discriminate |].
  now rewrite IH.
Qed.

(** ** [appNameParam] *)

(** C10: [appNameParam] replaces only the first ["/"] of the app name by
    ["~~"]: whatever follows the first slash, further slashes included, is
    kept as it is, so the result has as many slashes as the part after the
    first one. *)
Theorem appNameParam_replaces_first_slash_only (pre post : string) :
  Js.contains "/" pre = false ->
  appNameParam (pre +:+ "/" +:+ post) = pre +:+ "~~" +:+ post
  /\ Js.count "/" (appNameParam (pre +:+ "/" +:+ post)) = Js.count "/" post.
Proof.
  intros Hpre. unfold appNameParam.
  assert (E : Js.replace "/" "~~" (pre +:+ "/" +:+ post) = pre +:+ "~~" +:+ post)
    by (apply (replace_first "/" "~~" pre post Hpre)).
  split; [exact E |].
  rewrite E, !count_append, (count_not_contains _ _ Hpre). reflexivity.
Qed.

Lemma appNameParam_replaces_first_slash_only_witness :
  appNameParam "org/team/app" = "org~~team/app"
  /\ Js.count "/" (appNameParam "org/team/app") = 1.
Proof.
  apply (appNameParam_replaces_first_slash_only "org" "team/app").
  reflexivity.
Defined.

(** ** The constructor *)

(** C9: with an absent or empty access key the constructor throws a
    [CodePushUnauthorizedError] and leaves every field of the instance
    unset; with a non-empty key it completes and the [accessKey] getter
    returns that key. *)
Theorem constructor_requires_access_key
    (RequestManager Adapter Headers : Type)
    (new_RequestManager :
       option string -> option Headers -> option string -> option string ->
       RequestManager)
    (new_Adapter : RequestManager -> Adapter)
    (customHeaders : option Headers) (serverUrl proxy : option string) :
  let construct key :=
    constructor new_RequestManager new_Adapter key customHeaders serverUrl
                proxy uninitialized in
  construct None
    = (inl (CodePushUnauthorizedError "A token must be specified."),
       uninitialized)
  /\ construct (Some "")
    = (inl (CodePushUnauthorizedError "A token must be specified."),
       uninitialized)
  /\ forall (c : ascii) (rest : string),
       exists this,
         construct (Some (String c rest)) = (inr tt, this)
         /\ accessKey this = Some (String c rest)
         /\ is_Some (_requestManager _ _ this)
         /\ is_Some (_adapter _ _ this).
Proof.
  cbv zeta. split; [reflexivity |]. split; [reflexivity |].
  intros c rest. eexists. split; [reflexivity |].
  simpl. repeat split; eauto.
Qed.

(** ** [generateRandomFilename] *)

Lemma all_alnum_append (a b : string) :
  all_alnum (a +:+ b) = all_alnum a && all_alnum b.
Proof.
  induction a as [|x a IH]; simpl; [reflexivity |].
  rewrite IH. now rewrite andb_assoc.
Qed.

Lemma all_alnum_get (s : string) (n : nat) (c : ascii) :
  all_alnum s = true -> String.get n s = Some c -> isAlnum c = true.
Proof.
  revert n. induction s as [|x s IH]; simpl; intros n Hs Hget; [discriminate |].
  apply andb_prop in Hs as [Hx Hs].
  destruct n as [|n]; [now inversion Hget; subst | eauto].
Qed.

Lemma charAt_validChar_alnum (pos : Z) :
  all_alnum (Js.charAt validChar pos) = true.
Proof.
  unfold Js.charAt. destruct (pos <? 0)%Z; [reflexivity |].
  destruct (String.get (Z.to_nat pos) validChar) as [c|] eqn:E; [| reflexivity].
  simpl.
  rewrite (all_alnum_get validChar (Z.to_nat pos) c); [reflexivity | reflexivity | exact E].
Qed.

Lemma validChar_get (n : nat) :
  n < 62 -> exists c, String.get n validChar = Some c.
Proof.
  intros Hn.
  do 62 (destruct n as [|n]; [vm_compute; eauto |]). lia.
Qed.

Module NumberFacts.

Import Number.

#[local] Open Scope Z_scope.

Lemma round_half_even_bounds (a b : Z) :
  (0 < b)%Z ->
  (2 * round_half_even a b * b <= 2 * a + b)%Z
  /\ (2 * a - b <= 2 * round_half_even a b * b)%Z.
Proof.
  intros Hb. unfold round_half_even.
  pose proof (Z.div_mod a b ltac:(lia)) as E.
  pose proof (Z.mod_pos_bound a b Hb) as Hm.
  set (t := (a / b)%Z) in *. set (m := (a mod b)%Z) in *. clearbody t m.
  destruct (Z.compare_spec (2 * m) b) as [H | H | H];
    [destruct (Z.even t) | |]; nia.
Qed.

Lemma round_half_even_nonneg (a b : Z) :
  (0 <= a)%Z -> (0 < b)%Z -> (0 <= round_half_even a b)%Z.
Proof.
  intros Ha Hb. unfold round_half_even.
  pose proof (Z.div_pos a b Ha Hb) as Ht.
  destruct (2 * (a mod b) ?= b)%Z; [destruct (Z.even (a / b)) | |]; lia.
Qed.

Lemma scale_split : scale = (2 ^ 53 * 2 ^ 1021)%Z.
Proof. unfold scale. rewrite <- Z.pow_add_r by lia. reflexivity. Qed.

(** A double below one is at most [1 - 2^-53]. *)
Lemma double_below_one (r : Q) :
  is_double r = true -> (0 <= r)%Q -> (r < 1)%Q ->
  (2 ^ 53 * Qnum r <= (2 ^ 53 - 1) * Zpos (Qden r))%Z.
Proof.
  destruct r as [n d]. unfold is_double, round, Qle, Qlt. cbn [Qnum Qden].
  intros Hdouble Hn Hlt.
  assert (Hn' : (0 <= n)%Z) by lia. assert (Hlt' : (n < Zpos d)%Z) by lia.
  clear Hn Hlt.
  destruct (Z.ltb_spec n 0) as [| _]; [lia |].
  destruct (Z.le_gt_cases (Zpos d) (2 * n)) as [Hhalf | Hhalf]; [| lia].
  apply Qeq_bool_iff in Hdouble. unfold Qeq, round_nonneg in Hdouble.
  cbn [Qnum Qden] in Hdouble.
  assert (Hscale : (0 < scale)%Z) by (unfold scale; lia).
  rewrite Z2Pos.id in Hdouble by exact Hscale.
  assert (Hlog : Z.log2 (n * scale / Zpos d) = 1073%Z).
  { apply Z.log2_unique; [lia |]. split.
    - apply Z.div_le_lower_bound; [lia |].
      change scale with (2 ^ 1073 * 2)%Z. nia.
    - apply Z.div_lt_upper_bound; [lia |].
      change (2 ^ Z.succ 1073)%Z with scale. nia. }
  rewrite Hlog in Hdouble.
  change (Z.max 0 (1073 - 52)) with 1021%Z in Hdouble.
  rewrite scale_split in Hdouble.
  set (u := (2 ^ 1021)%Z) in *.
  assert (Hu : (0 < u)%Z) by (unfold u; lia).
  set (t := round_half_even _ _) in Hdouble. clearbody t u.
  assert (E : (t * Zpos d = 2 ^ 53 * n)%Z) by nia.
  assert (Ht : (t < 2 ^ 53)%Z) by nia.
  nia.
Qed.

(** The index [Math.floor(Math.random() * 62)] lies in [[0, 61]]. *)
Lemma floor_mul_62 (r : Q) :
  is_double r = true -> (0 <= r)%Q -> (r < 1)%Q ->
  (0 <= Qfloor (mul r (62 # 1)) < 62)%Z.
Proof.
  intros Hdouble Hn Hlt.
  pose proof (double_below_one r Hdouble Hn Hlt) as Hbelow.
  destruct r as [n d]. unfold Qle, Qlt in Hn, Hlt. cbn [Qnum Qden] in *.
  assert (Hn' : (0 <= n)%Z) by lia. clear Hn Hlt Hdouble.
  unfold mul, round, Qmult. cbn [Qnum Qden].
  destruct (Z.ltb_spec (n * 62) 0) as [| _]; [lia |].
  unfold round_nonneg. cbn [Qnum Qden].
  rewrite Pos.mul_1_r.
  assert (Hscale : (0 < scale)%Z) by (unfold scale; lia).
  unfold Qfloor. rewrite Z2Pos.id by exact Hscale.
  set (a := (n * 62 * scale)%Z).
  set (shift := Z.max 0 (Z.log2 (a / Zpos d) - 52)).
  assert (Hshift : (0 <= shift <= 1027)%Z).
  { unfold shift. split; [lia |].
    assert (Hq : (0 <= a / Zpos d < 2 ^ 1080)%Z).
    { split; [apply Z.div_pos; unfold a; nia |].
      apply Z.div_lt_upper_bound; [lia |].
      change (2 ^ 1080)%Z with (64 * scale)%Z. unfold a. nia. }
    destruct (Z.eq_dec (a / Zpos d) 0) as [-> | Hne]; [simpl; lia |].
    assert (Z.log2 (a / Zpos d) < 1080)%Z by (apply Z.log2_lt_pow2; lia).
    lia. }
  assert (Hp : (0 < 2 ^ shift <= 64 * 2 ^ 1021)%Z).
  { split; [apply Z.pow_pos_nonneg; lia |].
    change (64 * 2 ^ 1021)%Z with (2 ^ 1027)%Z.
    apply Z.pow_le_mono_r; lia. }
  set (p := (2 ^ shift)%Z) in *.
  pose proof (round_half_even_bounds a (Zpos d * p) ltac:(nia)) as [Hup _].
  pose proof (round_half_even_nonneg a (Zpos d * p) ltac:(unfold a; nia) ltac:(nia))
    as Hpos.
  set (t := round_half_even a (Zpos d * p)) in *.
  unfold a in Hup. rewrite scale_split in *.
  set (u := (2 ^ 1021)%Z) in *.
  assert (Hu : (0 < u)%Z) by (unfold u; lia).
  clearbody t p u. clear a shift Hshift.
  split.
  - apply Z.div_pos; nia.
  - apply Z.div_lt_upper_bound; [nia |].
    assert (2 * (t * p) * Zpos d < 2 * (2 ^ 53 * u * 62) * Zpos d)%Z; [| nia].
    assert (n * (2 ^ 53 * u) <= (2 ^ 53 - 1) * Zpos d * u)%Z by nia.
    nia.
Qed.

End NumberFacts.

Lemma random_index (r : Q) :
  Number.is_double r = true -> (0 <= r)%Q -> (r < 1)%Q ->
  (0 <= Math_floor
          (Number.mul r (inject_Z (Z.of_nat (String.length validChar)))) < 62)%Z.
Proof. apply NumberFacts.floor_mul_62. Qed.

Lemma charAt_validChar_length (pos : Z) :
  (0 <= pos < 62)%Z -> String.length (Js.charAt validChar pos) = 1.
Proof.
  intros Hpos. unfold Js.charAt.
  destruct (Z.ltb_spec pos 0) as [Hneg | _]; [lia |].
  destruct (validChar_get (Z.to_nat pos)) as [c Hc]; [lia |].
  now rewrite Hc.
Qed.

Lemma bind_unfold {A B : Type} (m : M A) (k : A -> M B) (st : State) :
  (m ≫= k) st
  = match m st with
    | (Ok a, st') => k a st'
    | (Throw e, st') => (Throw e, st')
    end.
Proof. reflexivity. Qed.

(** The character one iteration of the loop appends. *)
Lemma generateRandomFilename_loop_step (env : Env) (n : nat) (filename : string)
    (st : State) :
  generateRandomFilename_loop env (S n) filename st
  = generateRandomFilename_loop env n
      (filename +:+ Js.charAt validChar
         (Math_floor
            (Number.mul (Math_random_values env (random_calls st))
               (inject_Z (Z.of_nat (String.length validChar))))))
      (set_random_calls (S (random_calls st)) st).
Proof. reflexivity. Qed.

Lemma generateRandomFilename_loop_spec (env : Env) (n : nat) :
  forall (filename : string) (st : State),
  exists suffix,
    generateRandomFilename_loop env (S n) filename st
    = (Ok (filename +:+ suffix), set_random_calls (S n + random_calls st) st)
    /\ all_alnum suffix = true
    /\ (random_in_unit_interval env -> String.length suffix = S n).
Proof.
  induction n as [|n IH]; intros filename st.
  - eexists. split; [| split].
    + rewrite generateRandomFilename_loop_step. reflexivity.
    + apply charAt_validChar_alnum.
    + intros Hr. destruct (Hr (random_calls st)) as (Hd & H0 & H1).
      pose proof (random_index _ Hd H0 H1) as Hi.
      now apply charAt_validChar_length.
  - rewrite generateRandomFilename_loop_step.
    set (c := Js.charAt validChar _).
    destruct (IH (filename +:+ c) (set_random_calls (S (random_calls st)) st))
      as (suffix & Hrun & Halnum & Hlen).
    exists (c +:+ suffix).
    split; [| split].
    + rewrite Hrun, append_assoc. f_equal.
      unfold set_random_calls. simpl. f_equal. lia.
    + rewrite all_alnum_append, Halnum. unfold c.
      now rewrite charAt_validChar_alnum.
    + intros Hr. rewrite length_append, (Hlen Hr).
      destruct (Hr (random_calls st)) as (Hd & H0 & H1).
      pose proof (random_index _ Hd H0 H1) as Hi.
      unfold c. now rewrite charAt_validChar_length.
Qed.

Lemma generateRandomFilename_15 (env : Env) (st : State) :
  exists name,
    generateRandomFilename env 15 st
    = (Ok name, set_random_calls (15 + random_calls st) st)
    /\ all_alnum name = true
    /\ (random_in_unit_interval env -> String.length name = 15).
Proof.
  destruct (generateRandomFilename_loop_spec env 14 "" st) as (suffix & H).
  exists suffix. exact H.
Qed.

Lemma alnum_prefix_append (a rest : string) :
  all_alnum a = true -> alnum_prefix (String.length a) (a +:+ rest) = Some rest.
Proof.
  induction a as [|x a IH]; simpl; intros H; [reflexivity |].
  apply andb_prop in H as [Hx Ha]. rewrite Hx. auto.
Qed.

Lemma temp_name_matches (name : string) :
  all_alnum name = true -> String.length name = 15 ->
  matches_temp_pattern (name +:+ ".zip") = true.
Proof.
  intros Ha Hl. unfold matches_temp_pattern.
  rewrite <- Hl, (alnum_prefix_append name ".zip" Ha). reflexivity.
Qed.

(** ** The file system *)

Module FsFacts.

Import Fs.

Lemma walk_nil (fuel : nat) (d : gmap string Node) (fl : bool) (dir : string) :
  walk fuel d fl dir [] = inr (dir, Directory).
Proof. destruct fuel; reflexivity. Qed.

Lemma walk_cons (fuel : nat) (d : gmap string Node) (fl : bool) (dir name : string)
    (rest : list string) :
  walk fuel d fl dir (name :: rest)
  = if String.eqb name "" || String.eqb name "." then walk fuel d fl dir rest
    else if String.eqb name ".." then walk fuel d fl (parent dir) rest
    else
      match d !! child dir name with
      | None => inl "ENOENT"
      | Some Directory => walk fuel d fl (child dir name) rest
      | Some (RegularFile c) =>
          match rest with
          | [] => inr (child dir name, RegularFile c)
          | _ :: _ => inl "ENOTDIR"
          end
      | Some (SymbolicLink target) =>
          if match rest with [] => negb fl | _ :: _ => false end
          then inr (child dir name, SymbolicLink target)
          else
            match fuel with
            | O => inl "ELOOP"
            | S fuel' =>
                if String.eqb target "" then inl "ENOENT"
                else
                  walk fuel' d fl (if Path.isAbsolute target then "/" else dir)
                    (Js.split Path.sep target ++ rest)
            end
      end.
Proof. destruct fuel; reflexivity. Qed.

Lemma walked_nil (fuel : nat) (d : gmap string Node) (fl : bool) (dir : string) :
  walked fuel d fl dir [] = [].
Proof. destruct fuel; reflexivity. Qed.

Lemma walked_cons (fuel : nat) (d : gmap string Node) (fl : bool)
    (dir name : string) (rest : list string) :
  walked fuel d fl dir (name :: rest)
  = if String.eqb name "" || String.eqb name "." then walked fuel d fl dir rest
    else if String.eqb name ".." then walked fuel d fl (parent dir) rest
    else
      child dir name ::
      match d !! child dir name with
      | None => []
      | Some Directory => walked fuel d fl (child dir name) rest
      | Some (RegularFile c) => []
      | Some (SymbolicLink target) =>
          if match rest with [] => negb fl | _ :: _ => false end
          then []
          else
            match fuel with
            | O => []
            | S fuel' =>
                if String.eqb target "" then []
                else
                  walked fuel' d fl (if Path.isAbsolute target then "/" else dir)
                    (Js.split Path.sep target ++ rest)
            end
      end.
Proof. destruct fuel; reflexivity. Qed.

(** A resolution that does not look at [dest] does not depend on what
    lies there. *)
Lemma walk_agree (d dk : gmap string Node) (dest : string) (fl : bool) :
  (forall q, q <> dest -> dk !! q = d !! q) ->
  forall (fuel : nat) (names : list string) (dir : string),
  dest ∉ walked fuel d fl dir names ->
  walk fuel dk fl dir names = walk fuel d fl dir names.
Proof.
  intros Hagree fuel.
  induction fuel as [|fuel IHf]; intros names;
    induction names as [|name rest IHn]; intros dir Hv;
    rewrite ?walk_nil; try reflexivity;
    rewrite walk_cons, (walk_cons _ d); rewrite walked_cons in Hv;
    destruct (String.eqb name "" || String.eqb name "."); auto;
    destruct (String.eqb name ".."); auto;
    apply not_elem_of_cons in Hv as [Hne Hv];
    rewrite (Hagree (child dir name)) by congruence;
    destruct (d !! child dir name) as [[c | | target] |]; auto;
    destruct (match rest with [] => negb fl | _ :: _ => false end); auto.
  destruct (String.eqb target ""); auto.
Qed.

Lemma walked_agree (d dk : gmap string Node) (dest : string) (fl : bool) :
  (forall q, q <> dest -> dk !! q = d !! q) ->
  forall (fuel : nat) (names : list string) (dir : string),
  dest ∉ walked fuel d fl dir names ->
  walked fuel dk fl dir names = walked fuel d fl dir names.
Proof.
  intros Hagree fuel.
  induction fuel as [|fuel IHf]; intros names;
    induction names as [|name rest IHn]; intros dir Hv;
    rewrite ?walked_nil; try reflexivity;
    rewrite walked_cons, (walked_cons _ d); rewrite walked_cons in Hv;
    destruct (String.eqb name "" || String.eqb name "."); auto;
    destruct (String.eqb name ".."); auto;
    apply not_elem_of_cons in Hv as [Hne Hv];
    rewrite (Hagree (child dir name)) by congruence;
    destruct (d !! child dir name) as [[c | | target] |]; auto;
    try (f_equal; auto);
    destruct (match rest with [] => negb fl | _ :: _ => false end); auto.
  destruct (String.eqb target ""); auto.
Qed.

(** A resolution that looks at a regular file ends there. *)
Lemma walk_through_file (d : gmap string Node) (dest : string) (c : Content)
    (fl : bool) :
  d !! dest = Some (RegularFile c) ->
  forall (fuel : nat) (names : list string) (dir K : string) (n : Node),
  dest ∈ walked fuel d fl dir names ->
  walk fuel d fl dir names = inr (K, n) ->
  K = dest /\ n = RegularFile c.
Proof.
  intros Hdest fuel.
  induction fuel as [|fuel IHf]; intros names;
    induction names as [|name rest IHn]; intros dir K n Hv;
    rewrite ?walked_nil in Hv; try (now apply not_elem_of_nil in Hv);
    rewrite walk_cons; rewrite walked_cons in Hv;
    destruct (String.eqb name "" || String.eqb name "."); eauto;
    destruct (String.eqb name ".."); eauto;
    (apply elem_of_cons in Hv as [<- | Hv];
     [rewrite Hdest; destruct rest; [intros [= <- <-]; auto | discriminate] |]);
    destruct (d !! child dir name) as [[c' | | target] |];
    try (now apply not_elem_of_nil in Hv); eauto;
    destruct (match rest with [] => negb fl | _ :: _ => false end);
    try (now apply not_elem_of_nil in Hv).
  destruct (String.eqb target ""); [now apply not_elem_of_nil in Hv | eauto].
Qed.

(** Once a prefix of the path has led to the directory [K], what follows
    is looked up from [K]. *)
Lemma walk_app (d : gmap string Node) (fl : bool) (more : list string) :
  more <> [] ->
  forall (fuel : nat) (names : list string) (dir K : string),
  walk fuel d true dir names = inr (K, Directory) ->
  exists fuel', walk fuel d fl dir (names ++ more) = walk fuel' d fl K more.
Proof.
  intros Hmore fuel.
  induction fuel as [|fuel IHf]; intros names;
    induction names as [|name rest IHn]; intros dir K;
    rewrite ?walk_nil; try (intros [= <-]; eexists; reflexivity);
    rewrite walk_cons; simpl app; rewrite (walk_cons _ d fl);
    destruct (String.eqb name "" || String.eqb name "."); eauto;
    destruct (String.eqb name ".."); eauto;
    destruct (d !! child dir name) as [[c' | | target] |];
    try discriminate; eauto;
    try (destruct rest; discriminate).
  assert (E : match rest ++ more with [] => negb fl | _ :: _ => false end = false)
    by (destruct rest, more; simpl; congruence).
  rewrite E.
  destruct (match rest with [] => negb true | _ :: _ => false end) eqn:E';
    [destruct rest; discriminate |].
  destruct (String.eqb target ""); [discriminate |].
  rewrite app_assoc. apply IHf.
Qed.


(** *** Source files *)

Lemma source_agree (d dk : gmap string Node) (dest cwd p : string) :
  (forall q, q <> dest -> dk !! q = d !! q) ->
  dest ∉ visited max_links d (os_path cwd p) ->
  source dk cwd p = source d cwd p.
Proof. intros Hagree Hv. now apply (walk_agree d dk dest). Qed.

Lemma visited_agree (d dk : gmap string Node) (dest abs : string) :
  (forall q, q <> dest -> dk !! q = d !! q) ->
  dest ∉ visited max_links d abs ->
  dest ∉ visited max_links dk abs.
Proof.
  intros Hagree Hv. unfold visited.
  now rewrite (walked_agree d dk dest true Hagree).
Qed.

Lemma readFile_agree (d dk : gmap string Node) (dest cwd p : string) :
  (forall q, q <> dest -> dk !! q = d !! q) ->
  dest ∉ visited max_links d (os_path cwd p) ->
  readFile dk cwd p = readFile d cwd p.
Proof.
  intros Hagree Hv. unfold readFile.
  now rewrite (source_agree d dk dest cwd p Hagree Hv).
Qed.

Lemma stat_agree (d dk : gmap string Node) (dest cwd p : string) :
  (forall q, q <> dest -> dk !! q = d !! q) ->
  dest ∉ visited max_links d (os_path cwd p) ->
  stat dk cwd p = stat d cwd p.
Proof.
  intros Hagree Hv. unfold stat.
  now rewrite (source_agree d dk dest cwd p Hagree Hv).
Qed.

Lemma readFile_is_file (d : gmap string Node) (cwd p : string) (c : Content) :
  readFile d cwd p = inr c -> stat d cwd p = inr StatsFile.
Proof.
  unfold readFile, stat.
  destruct (source d cwd p) as [e | [q [c' | | t]]];
    intros H; inversion H; reflexivity.
Qed.

Lemma stat_file_content (d : gmap string Node) (cwd p : string) (stats : Stats) :
  stat d cwd p = inr stats -> isFile stats = true ->
  exists c, readFile d cwd p = inr c.
Proof.
  unfold readFile, stat.
  destruct (source d cwd p) as [e | [q [c' | | t]]];
    intros H Hf; inversion H; subst; try discriminate. eauto.
Qed.

Lemma stat_size_content (d : gmap string Node) (cwd p : string) (c : Content) :
  readFile d cwd p = inr c -> stat_size d cwd p = size c.
Proof. intros H. unfold stat_size. now rewrite H. Qed.

(** A file read through the path of a regular file is that file. *)
Lemma readFile_through_file (d : gmap string Node) (dest cwd p : string)
    (c0 c : Content) :
  d !! dest = Some (RegularFile c0) ->
  dest ∈ visited max_links d (os_path cwd p) ->
  readFile d cwd p = inr c -> c = c0.
Proof.
  intros Hdest Hv. unfold readFile, source.
  destruct (walk max_links d true "/" (Js.split Path.sep (os_path cwd p)))
    as [e | [K n]] eqn:Hw; [discriminate |].
  destruct (walk_through_file d dest c0 true Hdest _ _ _ _ _ Hv Hw) as [-> ->].
  now intros [= <-].
Qed.

Lemma size_empty_archive : size (ZipArchive [] false) = 0.
Proof. reflexivity. Qed.

Lemma size_started_archive (ms : list Member) (m : Member) :
  30 <= size (ZipArchive (ms ++ [m]) false).
Proof.
  induction ms as [|m0 ms IH]; simpl in *.
  - destruct m. lia.
  - destruct m0. lia.
Qed.

(** The size check of [yazl] at work.  [d0] is the disk when [fs.stat]
    examined the file, just after the archive was opened at [dest]; [dk]
    is the disk when the file was read, the archive holding at least the
    header of its entry.  When the file read has the size [fs.stat]
    reported, it does not lead through the archive, and it holds what it
    held on the disk [d] before the archive was opened. *)
Lemma read_of_checked_size (d d0 dk : gmap string Node) (dest cwd p : string)
    (partial : list Member) (m : Member) (c : Content) (stats : Stats) :
  (forall q, q <> dest -> d0 !! q = d !! q) ->
  d0 !! dest = Some (RegularFile (ZipArchive [] false)) ->
  (forall q, q <> dest -> dk !! q = d !! q) ->
  dk !! dest = Some (RegularFile (ZipArchive (partial ++ [m]) false)) ->
  stat d0 cwd p = inr stats -> isFile stats = true ->
  readFile dk cwd p = inr c ->
  size c = stat_size d0 cwd p ->
  (dest ∉ visited max_links d0 (os_path cwd p))
  /\ readFile d cwd p = inr c.
Proof.
  intros H0 Hd0 Hk Hdk Hstat Hfile Hread Hsize.
  destruct (stat_file_content d0 cwd p stats Hstat Hfile) as [c0 Hread0].
  rewrite (stat_size_content d0 cwd p c0 Hread0) in Hsize.
  assert (Hk0 : forall q, q <> dest -> dk !! q = d0 !! q)
    by (intros q Hq; rewrite (Hk q Hq), (H0 q Hq); reflexivity).
  destruct (decide (dest ∈ visited max_links d0 (os_path cwd p))) as [Hin | Hout].
  - pose proof (readFile_through_file d0 dest cwd p _ c0 Hd0 Hin Hread0) as ->.
    assert (Hink : dest ∈ visited max_links dk (os_path cwd p)).
    { destruct (decide (dest ∈ visited max_links dk (os_path cwd p)))
        as [H | H]; [exact H |].
      exfalso. apply (visited_agree dk d0 dest) in H; [contradiction |].
      intros q Hq. symmetry. now apply Hk0. }
    pose proof (readFile_through_file dk dest cwd p _ c Hdk Hink Hread) as ->.
    pose proof (size_started_archive partial m). rewrite size_empty_archive in Hsize.
    lia.
  - split; [exact Hout |].
    assert (Hd : forall q, q <> dest -> d !! q = d0 !! q)
      by (intros q Hq; symmetry; now apply H0).
    rewrite (readFile_agree d0 d dest cwd p Hd Hout).
    now rewrite <- (readFile_agree d0 dk dest cwd p Hk0 Hout).
Qed.

End FsFacts.

(** ** The callback of the directory walk *)

Lemma validateMetadataPath_cases (p : string) (st : State) :
  validateMetadataPath p st = (Ok (archive_name p), st)
  \/ exists e, validateMetadataPath p st = (Throw e, st).
Proof.
  unfold validateMetadataPath, archive_name.
  repeat match goal with
         | |- context [if ?b then _ else _] => destruct b
         end; eauto.
Qed.

Lemma check_cases (p : string) (st : State) :
  (validateMetadataPath p ≫= new_Entry) st = (Ok (archive_name p), st)
  \/ exists e, (validateMetadataPath p ≫= new_Entry) st = (Throw e, st).
Proof.
  rewrite bind_unfold.
  destruct (validateMetadataPath_cases p st) as [E | [e E]]; rewrite E;
    [| eauto].
  unfold new_Entry. destruct (65535 <? utf8_length (archive_name p))%Z; eauto.
Qed.


Lemma same_but_zipFile_refl (st : State) : same_but_zipFile st st.
Proof. unfold same_but_zipFile. tauto. Qed.

Lemma same_but_zipFile_set (z : option ZipFile) (st : State) :
  same_but_zipFile st (set_zipFile z st).
Proof. unfold same_but_zipFile. simpl. tauto. Qed.

Lemma same_but_zipFile_trans (a b c : State) :
  same_but_zipFile a b -> same_but_zipFile b c -> same_but_zipFile a c.
Proof.
  unfold same_but_zipFile. intros H1 H2.
  decompose [and] H1. decompose [and] H2. repeat split; congruence.
Qed.

Lemma zipFile_addFile_unfold (realPath metadataPath : string) (st : State) :
  zipFile_addFile realPath metadataPath st
  = match (validateMetadataPath metadataPath ≫= new_Entry) st with
    | (Ok name, st') =>
        (Ok tt,
         set_zipFile
           (match zipFile st' with
            | Some z =>
                Some {| zip_entries := zip_entries z ++ [(realPath, name)];
                        zip_ended := zip_ended z |}
            | None => None
            end) st')
    | (Throw e, st') => (Throw e, st')
    end.
Proof.
  unfold zipFile_addFile. rewrite !bind_unfold.
  destruct (validateMetadataPath metadataPath st) as [[name | e] st1];
    [| reflexivity].
  rewrite bind_unfold.
  destruct (new_Entry name st1) as [[name' | e] st2]; reflexivity.
Qed.

(** The loop over the scanned files queues the entries of the files
    [queued] before the first one whose name [yazl] rejects, and throws
    there; it completes when there is none. *)
Lemma for_each_addFile (env : Env) (base : string) (files : list string) :
  forall (st : State) (z : ZipFile),
  zipFile st = Some z ->
  exists r st' queued,
    for_each files
      (fun file =>
         zipFile_addFile file (Path.slash (Path.relative (cwd env) base file)))
      st = (r, st')
    /\ same_but_zipFile st st'
    /\ zipFile st'
       = Some {| zip_entries :=
                   zip_entries z ++
                   map (fun file =>
                          (file,
                           archive_name
                             (Path.slash (Path.relative (cwd env) base file))))
                       queued;
                 zip_ended := zip_ended z |}
    /\ (r = Ok tt -> queued = files)
    /\ (Forall
          (fun file =>
             accepted_name (Path.slash (Path.relative (cwd env) base file)))
          files ->
        r = Ok tt)
    /\ (Exists
          (fun file =>
             rejected_name (Path.slash (Path.relative (cwd env) base file)))
          files ->
        exists e, r = Throw e).
Proof.
  induction files as [|file files IH]; intros st z Hz.
  - exists (Ok tt), st, []. simpl. split; [reflexivity |].
    split; [apply same_but_zipFile_refl |].
    split; [rewrite Hz, app_nil_r; now destruct z |].
    split; [reflexivity |]. split; [reflexivity |].
    intros H. inversion H.
  - simpl. rewrite bind_unfold, zipFile_addFile_unfold.
    destruct (check_cases (Path.slash (Path.relative (cwd env) base file)) st)
      as [Hv | [e Hv]]; rewrite Hv.
    + rewrite Hz.
      edestruct (IH (set_zipFile
                      (Some {| zip_entries := zip_entries z ++
                                 [(file, archive_name
                                           (Path.slash
                                              (Path.relative (cwd env) base file)))];
                               zip_ended := zip_ended z |}) st))
        as (r & st' & queued & Hrun & Hsame & Hzip & Hdone & Hok & Hbad);
        [reflexivity |].
      exists r, st', (file :: queued). rewrite Hrun. split; [reflexivity |].
      split; [eapply same_but_zipFile_trans;
              [apply same_but_zipFile_set | exact Hsame] |].
      split; [rewrite Hzip; simpl; now rewrite <- app_assoc |].
      split; [intros Hr; now rewrite (Hdone Hr) |].
      split.
      * intros Hall. inversion Hall; subst. auto.
      * intros Hex. inversion Hex as [? ? [e He] | ? ? Hrest]; subst; [| auto].
        rewrite (He st) in Hv. discriminate.
    + exists (Throw e), st, []. split; [reflexivity |].
      split; [apply same_but_zipFile_refl |].
      split; [rewrite Hz, app_nil_r; now destruct z |].
      split; [discriminate |].
      split; [| eauto].
      intros Hall. inversion Hall as [|? ? Hacc _]; subst.
      rewrite (Hacc st) in Hv. discriminate.
Qed.

Lemma readdirr_callback_scan (env : Env) (directoryPath : string)
    (directories files : list string) (st : State) :
  exists name r st' queued,
    readdirr_callback env directoryPath None directories files st = (r, st')
    /\ all_alnum name = true
    /\ (random_in_unit_interval env -> String.length name = 15)
    /\ disk st' = disk st
    /\ random_calls st' = 15 + random_calls st
    /\ getPackageFilePromise st' = getPackageFilePromise st
    /\ listeners st' = listeners st ++ bundling_listeners (name +:+ ".zip")
    /\ writeStream st'
       = Some {| ws_path := name +:+ ".zip"; ws_source := Some OutputStreamE;
                 ws_closed := false |}
    /\ scan_request st' = scan_request st
    /\ io_log st' = io_log st
    /\ uncaught st' = uncaught st
    /\ zipFile st'
       = Some {| zip_entries :=
                   map (fun file =>
                          (file, archive_name (entry_name env directoryPath file)))
                       queued;
                 zip_ended := match r with Ok _ => true | Throw _ => false end |}
    /\ (r = Ok tt -> queued = files)
    /\ (Forall (fun file => accepted_name (entry_name env directoryPath file))
               files ->
        r = Ok tt)
    /\ (Exists (fun file => rejected_name (entry_name env directoryPath file))
               files ->
        exists e, r = Throw e).
Proof.
  destruct (generateRandomFilename_15 env st) as (name & Hgen & Halnum & Hlen).
  exists name.
  unfold readdirr_callback. rewrite bind_unfold, Hgen.
  rewrite bind_unfold. unfold new_ZipFile.
  rewrite bind_unfold. unfold fs_createWriteStream.
  rewrite bind_unfold. unfold pipe.
  rewrite bind_unfold. unfold on at 1.
  rewrite bind_unfold. unfold on at 1.
  rewrite bind_unfold.
  set (st2 := set_listeners _ _).
  destruct (for_each_addFile env (Path.dirname directoryPath) files st2
              {| zip_entries := []; zip_ended := false |} eq_refl)
    as (r & st3 & queued & Hrun & Hsame & Hzip & Hdone & Hok & Hbad).
  cbv zeta. rewrite Hrun.
  destruct Hsame as (Hd & Hrc & Hp & Hl & Hw & Hs & Hio & Hu).
  destruct r as [[] | e].
  - exists (Ok tt). eexists. exists queued. split; [reflexivity |].
    unfold zipFile_end, modify. simpl.
    rewrite Hd, Hrc, Hp, Hl, Hw, Hs, Hio, Hu, Hzip. simpl.
    repeat split; auto. now rewrite <- app_assoc.
  - exists (Throw e), st3, queued. split; [reflexivity |].
    rewrite Hd, Hrc, Hp, Hl, Hw, Hs, Hio, Hu, Hzip. simpl.
    repeat split; auto. now rewrite <- app_assoc.
Qed.

(** ** Events under the listeners of a bundling *)

Lemma settle_facts (p : Promise) (st : State) :
  disk (settle p st) = disk st
  /\ uncaught (settle p st) = uncaught st
  /\ listeners (settle p st) = listeners st
  /\ io_log (settle p st) = io_log st
  /\ writeStream (settle p st) = writeStream st
  /\ zipFile (settle p st) = zipFile st
  /\ getPackageFilePromise (settle p st)
     = match getPackageFilePromise st with
       | Some Pending => Some p
       | settled => settled
       end.
Proof.
  unfold settle.
  destruct (getPackageFilePromise st) as [[| |]|] eqn:E; simpl; rewrite ?E;
    tauto.
Qed.

Section Events.

Variable env : Env.
Variable fileName : string.

Lemma emit_writeStream_error (e : Error) (st : State) :
  listeners st = bundling_listeners fileName ->
  emit env WriteStreamE (EvError e) st = reject e st.
Proof. intros H. unfold emit. rewrite H. reflexivity. Qed.

Lemma emit_writeStream_close (st : State) :
  listeners st = bundling_listeners fileName ->
  emit env WriteStreamE EvClose st
  = resolve {| isTemporary := true; path := Path.join [cwd env; fileName] |} st.
Proof. intros H. unfold emit. rewrite H. reflexivity. Qed.

Lemma emit_zipFile_error (e : Error) (st : State) :
  listeners st = bundling_listeners fileName ->
  emit env ZipFileE (EvError e) st = set_uncaught e st.
Proof. intros H. unfold emit. rewrite H. reflexivity. Qed.

Lemma writeStream_fail_facts (e : Error) (st : State) :
  listeners st = bundling_listeners fileName ->
  disk (writeStream_fail env e st) = disk st
  /\ uncaught (writeStream_fail env e st) = uncaught st
  /\ listeners (writeStream_fail env e st) = listeners st
  /\ zipFile (writeStream_fail env e st) = zipFile st
  /\ getPackageFilePromise (writeStream_fail env e st)
     = match getPackageFilePromise st with
       | Some Pending => Some (Rejected e)
       | settled => settled
       end.
Proof.
  intros Hl. unfold writeStream_fail.
  rewrite (emit_writeStream_error e st Hl).
  destruct (settle_facts (Rejected e) st) as (Hd & Hu & Hl' & _ & _ & Hz & Hp).
  rewrite emit_writeStream_close
    by (unfold close_writeStream; simpl; unfold reject; congruence).
  unfold resolve.
  destruct (settle_facts
              (Fulfilled {| isTemporary := true;
                            path := Path.join [cwd env; fileName] |})
              (close_writeStream (reject e st)))
    as (Hd2 & Hu2 & Hl2 & _ & _ & Hz2 & Hp2).
  rewrite Hd2, Hu2, Hl2, Hz2, Hp2. unfold close_writeStream. simpl.
  unfold reject. rewrite Hd, Hu, Hl', Hz, Hp.
  repeat split.
  destruct (getPackageFilePromise st) as [[| |]|]; reflexivity.
Qed.


(** *** The answers of [fs.stat] *)

Lemma statEntries_facts (entries : list (string * string)) :
  forall st : State,
  listeners st = bundling_listeners fileName ->
  exists entries' st',
    statEntries env entries st = (entries', st')
    /\ same_but_log st st'
    /\ (forall e, uncaught st = Some e -> uncaught st' = Some e)
    /\ Forall2
         (fun entry entry' =>
            fst entry' = entry
            /\ forall sz, snd entry' = Some sz ->
                 sz = Fs.stat_size (disk st) (cwd env) (fst entry)
                 /\ exists stats,
                      Fs.stat (disk st) (cwd env) (fst entry) = inr stats
                      /\ isFile stats = true)
         entries entries'
    /\ (Forall (fun entry' => is_Some (snd entry')) entries' ->
        uncaught st' = uncaught st)
    /\ (Forall
          (fun entry =>
             exists c, Fs.readFile (disk st) (cwd env) (fst entry) = inr c)
          entries ->
        entries'
        = map (fun entry =>
                 (entry, Some (Fs.stat_size (disk st) (cwd env) (fst entry))))
              entries).
Proof.
  induction entries as [|[realPath metadataPath] rest IH]; intros st Hl.
  - exists [], st. simpl. unfold same_but_log. repeat split; auto.
  - cbn [statEntries].
    assert (Hcase :
      exists ready st1,
        statEntry env (realPath, metadataPath) st
        = ((realPath, metadataPath, ready), st1)
        /\ same_but_log st st1
        /\ (forall e, uncaught st = Some e -> uncaught st1 = Some e)
        /\ (forall sz, ready = Some sz ->
              sz = Fs.stat_size (disk st) (cwd env) realPath
              /\ exists stats,
                   Fs.stat (disk st) (cwd env) realPath = inr stats
                   /\ isFile stats = true)
        /\ (is_Some ready -> uncaught st1 = uncaught st)
        /\ ((exists c, Fs.readFile (disk st) (cwd env) realPath = inr c) ->
            ready = Some (Fs.stat_size (disk st) (cwd env) realPath))).
    { unfold statEntry. simpl disk.
      destruct (Fs.stat (disk st) (cwd env) realPath) as [e | stats] eqn:Hstat.
      - rewrite emit_zipFile_error by exact Hl.
        eexists _, _. split; [reflexivity |].
        split; [unfold same_but_log; simpl; tauto |].
        split; [intros e0 H0; simpl; now rewrite H0 |].
        split; [discriminate |].
        split; [intros [x Hx]; discriminate |].
        intros [c Hc]. apply FsFacts.readFile_is_file in Hc. congruence.
      - destruct (isFile stats) eqn:Hfile; simpl.
        + eexists _, _. split; [reflexivity |].
          split; [unfold same_but_log; simpl; tauto |].
          split; [auto |].
          split; [intros sz0 [= <-]; eauto |].
          split; reflexivity.
        + rewrite emit_zipFile_error by exact Hl.
          eexists _, _. split; [reflexivity |].
          split; [unfold same_but_log; simpl; tauto |].
          split; [intros e0 H0; simpl; now rewrite H0 |].
          split; [discriminate |].
          split; [intros [x Hx]; discriminate |].
          intros [c Hc]. apply FsFacts.readFile_is_file in Hc.
          rewrite Hc in Hstat. inversion Hstat; subst. discriminate. }
    destruct Hcase as (ready & st1 & Hrun1 & Hsame1 & Hmono1 & Hready1 & Hun1 & Hok1).
    rewrite Hrun1.
    destruct Hsame1 as (Hd1 & Hrc1 & Hp1 & Hl1 & Hw1 & Hs1 & Hz1).
    destruct (IH st1) as (rest' & st' & Hrun & Hsame & Hmono & Hall & Hun & Hok);
      [congruence |].
    rewrite Hrun.
    destruct Hsame as (Hd & Hrc & Hp & Hl' & Hw & Hs & Hz).
    exists ((realPath, metadataPath, ready) :: rest'), st'.
    split; [reflexivity |].
    split; [unfold same_but_log; repeat split; congruence |].
    split; [auto |].
    split.
    { constructor; [split; [reflexivity | exact Hready1] |].
      eapply Forall2_impl; [exact Hall |].
      intros entry entry' [E H]. rewrite Hd1 in H. auto. }
    split.
    { intros Hs'. inversion Hs' as [|? ? Hr Hrs]; subst.
      rewrite (Hun Hrs). now apply Hun1. }
    intros Hfine. inversion Hfine as [|? ? Hc Hcs]; subst. simpl in Hc.
    rewrite (Hok1 Hc). simpl. f_equal.
    rewrite <- Hd1. apply Hok. now rewrite Hd1.
Qed.

(** *** The pump *)

Lemma pump_outcome_unsettled (dest : string)
    (entries : list (string * string * option nat))
    (written : option (list Member)) (ended : bool) (st st' : State) :
  (forall p, p <> dest -> disk st' !! p = disk st !! p) ->
  archive_slot dest st st' ->
  (forall e, uncaught st = Some e -> uncaught st' = Some e) ->
  getPackageFilePromise st' = Some Pending
  \/ (exists e k, getPackageFilePromise st' = Some (Rejected e)
                  /\ write_fault env k = Some e) ->
  pump_outcome env fileName dest entries written ended st st'.
Proof.
  intros Hframe Hslot Hmono Hp. unfold pump_outcome.
  do 3 (split; [assumption |]).
  destruct Hp as [-> | (e & k & -> & Hk)]; eauto.
Qed.

Lemma set_uncaught_mono (e e0 : Error) (st : State) :
  uncaught st = Some e0 -> uncaught (set_uncaught e st) = Some e0.
Proof. intros H. unfold set_uncaught. simpl. now rewrite H. Qed.

Lemma pumpEntries_outcome (dest : string) (ended : bool)
    (entries : list (string * string * option nat)) :
  forall (k : nat) (written : option (list Member)) (st : State),
  listeners st = bundling_listeners fileName ->
  match written with
  | Some before =>
      getPackageFilePromise st = Some Pending
      /\ disk st !! dest = Some (RegularFile (ZipArchive before false))
  | None =>
      exists e j, getPackageFilePromise st = Some (Rejected e)
                  /\ write_fault env j = Some e
  end ->
  pump_outcome env fileName dest entries written ended st
    (pumpEntries env dest k entries written ended st).
Proof.
  induction entries as [|[[realPath metadataPath] [sz|]] rest IH];
    intros k written st Hl Hp.
  - (* nothing left *)
    simpl. destruct ended, written as [before|];
      try (apply pump_outcome_unsettled; [auto | now left | auto |
             first [left; tauto | right; exact Hp]]).
    destruct Hp as [Hp Hdest].
    destruct (write_fault env k) as [e|] eqn:Hfault.
    + destruct (writeStream_fail_facts e (log_io (IO_write dest) st) Hl)
        as (Hd & Hu & _ & _ & Hp').
      simpl in Hp'. rewrite Hp in Hp'.
      apply pump_outcome_unsettled.
      * intros p _. now rewrite Hd.
      * left. now rewrite Hd.
      * intros e0. now rewrite Hu.
      * right. eauto.
    + rewrite emit_writeStream_close by exact Hl.
      unfold pump_outcome, archive_slot, resolve, settle. simpl.
      rewrite Hp. simpl.
      split; [intros p Hne; now rewrite lookup_insert_ne |].
      split; [right; right; rewrite lookup_insert_eq; eauto |].
      split; [auto |].
      repeat split; auto.
      { apply last_snoc. }
      { intros w Hw. now rewrite Hw. }
      exists before, []. rewrite app_nil_r, lookup_insert_eq.
      split; [reflexivity |]. split; [reflexivity | constructor].
  - (* a ready entry *)
    cbn [pumpEntries].
    (* the local file header *)
    set (hdr :=
      match written with
      | None => (None, st)
      | Some before =>
          match write_fault env k with
          | Some e => (None, writeStream_fail env e (log_io (IO_write dest) st))
          | None =>
              (Some before,
               log_io (IO_write dest)
                 (set_disk
                    (insert dest
                       (RegularFile
                          (ZipArchive (before ++ [mkMember metadataPath (Raw [])])
                             false)))
                    st))
          end
      end).
    assert (Hhdr :
      exists written1 st1,
        hdr = (written1, st1)
        /\ listeners st1 = bundling_listeners fileName
        /\ uncaught st1 = uncaught st
        /\ (forall p, p <> dest -> disk st1 !! p = disk st !! p)
        /\ match written1 with
           | Some before1 =>
               written = Some before1
               /\ getPackageFilePromise st1 = Some Pending
               /\ writeStream st1 = writeStream st
               /\ disk st1 !! dest
                  = Some (RegularFile
                            (ZipArchive
                               (before1 ++ [mkMember metadataPath (Raw [])])
                               false))
           | None =>
               disk st1 = disk st
               /\ exists e j, getPackageFilePromise st1 = Some (Rejected e)
                              /\ write_fault env j = Some e
           end).
    { unfold hdr. destruct written as [before|].
      - destruct Hp as [Hp Hdest].
        destruct (write_fault env k) as [e|] eqn:Hfault.
        + destruct (writeStream_fail_facts e (log_io (IO_write dest) st) Hl)
            as (Hd & Hu & Hl' & _ & Hp').
          simpl in Hp'. rewrite Hp in Hp'.
          eexists _, _. split; [reflexivity |].
          split; [rewrite Hl'; exact Hl |]. split; [exact Hu |].
          split; [intros p _; now rewrite Hd |].
          split; [exact Hd | eauto].
        + eexists _, _. split; [reflexivity |]. simpl.
          split; [exact Hl |]. split; [reflexivity |].
          split; [intros p Hne; now rewrite lookup_insert_ne |].
          rewrite lookup_insert_eq. auto.
      - eexists _, _. split; [reflexivity |]. auto. }
    destruct Hhdr as (written1 & st1 & -> & Hl1 & Hu1 & Hframe1 & Hw1).
    assert (Hslot1 : archive_slot dest st st1).
    { destruct written1 as [before1|].
      - right. left. destruct Hw1 as (_ & _ & _ & H). eauto.
      - left. destruct Hw1 as (H & _). now rewrite H. }
    assert (Hp1 :
      getPackageFilePromise st1 = Some Pending
      \/ exists e j, getPackageFilePromise st1 = Some (Rejected e)
                     /\ write_fault env j = Some e).
    { destruct written1; [left; tauto | right; tauto]. }
    (* the file is read *)
    assert (Hstop : forall e,
      pump_outcome env fileName dest
        ((realPath, metadataPath, Some sz) :: rest) written ended st
        (emit env ZipFileE (EvError e) (log_io (IO_read realPath) st1))).
    { intros e. rewrite emit_zipFile_error by exact Hl1.
      apply pump_outcome_unsettled.
      - exact Hframe1.
      - exact Hslot1.
      - intros e0 H0. simpl. rewrite Hu1, H0. reflexivity.
      - exact Hp1. }
    simpl disk.
    destruct (read_fault env realPath) as [e|]; [apply Hstop |].
    destruct (Fs.readFile (disk st1) (cwd env) realPath) as [e | content] eqn:Hread;
      [apply Hstop |].
    (* its data is written and counted *)
    set (dat :=
      match written1 with
      | None => (None, log_io (IO_read realPath) st1)
      | Some before1 =>
          (Some (before1 ++ [mkMember metadataPath content]),
           log_io (IO_write dest)
             (set_disk
                (insert dest
                   (RegularFile
                      (ZipArchive (before1 ++ [mkMember metadataPath content])
                         false)))
                (log_io (IO_read realPath) st1)))
      end).
    assert (Hdat :
      exists written2 st2,
        dat = (written2, st2)
        /\ listeners st2 = bundling_listeners fileName
        /\ uncaught st2 = uncaught st
        /\ (forall p, p <> dest -> disk st2 !! p = disk st !! p)
        /\ match written2 with
           | Some before2 =>
               exists before1,
                 written = Some before1
                 /\ written1 = Some before1
                 /\ before2 = before1 ++ [mkMember metadataPath content]
                 /\ getPackageFilePromise st2 = Some Pending
                 /\ writeStream st2 = writeStream st
                 /\ disk st2 !! dest = Some (RegularFile (ZipArchive before2 false))
           | None =>
               archive_slot dest st st2
               /\ exists e j, getPackageFilePromise st2 = Some (Rejected e)
                              /\ write_fault env j = Some e
           end).
    { unfold dat. destruct written1 as [before1|].
      - destruct Hw1 as (-> & Hq & Hws & Hd).
        eexists _, _. split; [reflexivity |]. simpl.
        split; [exact Hl1 |]. split; [exact Hu1 |].
        split; [intros p Hne; rewrite lookup_insert_ne by congruence; auto |].
        exists before1. rewrite lookup_insert_eq. repeat split; auto.
      - destruct Hw1 as (Hd & Hq).
        eexists _, _. split; [reflexivity |]. simpl.
        split; [exact Hl1 |]. split; [exact Hu1 |].
        split; [exact Hframe1 |].
        split; [left; simpl; now rewrite Hd | exact Hq]. }
    destruct Hdat as (written2 & st2 & -> & Hl2 & Hu2 & Hframe2 & Hw2).
    assert (Hslot2 : archive_slot dest st st2).
    { destruct written2 as [before2|]; [| tauto].
      destruct Hw2 as (before1 & _ & _ & _ & _ & _ & H). right. left. eauto. }
    assert (Hp2 :
      getPackageFilePromise st2 = Some Pending
      \/ exists e j, getPackageFilePromise st2 = Some (Rejected e)
                     /\ write_fault env j = Some e).
    { destruct written2 as [before2|]; [| right; tauto].
      destruct Hw2 as (before1 & _ & _ & _ & H & _). now left. }
    destruct (Nat.eqb_spec (Fs.size content) sz) as [Hsize | Hsize].
    2:{ rewrite emit_zipFile_error by exact Hl2.
        apply pump_outcome_unsettled.
        - exact Hframe2.
        - exact Hslot2.
        - intros e0 H0. simpl. rewrite Hu2, H0. reflexivity.
        - exact Hp2. }
    (* the pump goes on *)
    assert (Hpre :
      match written2 with
      | Some before =>
          getPackageFilePromise st2 = Some Pending
          /\ disk st2 !! dest = Some (RegularFile (ZipArchive before false))
      | None =>
          exists e j, getPackageFilePromise st2 = Some (Rejected e)
                      /\ write_fault env j = Some e
      end).
    { destruct written2 as [before2|]; [| tauto].
      destruct Hw2 as (before1 & _ & _ & _ & H1 & _ & H2). auto. }
    specialize (IH (S k) written2 st2 Hl2 Hpre).
    set (st' := pumpEntries env dest (S k) rest written2 ended st2) in *.
    destruct IH as (Hframe & Hslot & Hmono & Hcase).
    unfold pump_outcome.
    split; [intros p Hne; rewrite (Hframe p Hne); auto |].
    split.
    { destruct Hslot as [H | [H | H]]; [| right; left; exact H | right; right; exact H].
      destruct Hslot2 as [H2 | [(ms & H2) | (ms & dsc & H2 & Hf)]].
      - left. congruence.
      - right. left. exists ms. congruence.
      - destruct Hp2 as [Hq | (e1 & j & Hq & _)]; congruence. }
    split; [intros e0 H0; apply Hmono; now rewrite Hu2 |].
    destruct (getPackageFilePromise st') as [[| dsc | e]|]; auto.
    destruct Hcase as (Hdsc & Hend & Hunc & Hlast & Hws & before2 & ms & -> & Hdest & Hall).
    destruct Hw2 as (before1 & -> & -> & -> & Hq2 & Hws2 & Hd2).
    split; [exact Hdsc |]. split; [exact Hend |].
    split; [congruence |]. split; [exact Hlast |].
    split; [intros w Hw; apply Hws; congruence |].
    exists before1, (mkMember metadataPath content :: ms).
    split; [reflexivity |].
    split; [rewrite Hdest, <- app_assoc; reflexivity |].
    constructor.
    + simpl. split; [reflexivity |]. split; [now rewrite Hsize |].
      destruct Hw1 as (_ & _ & _ & Hd1).
      exists (disk st1), before1. auto.
    + eapply Forall2_impl; [exact Hall |].
      intros entry m (Hname & Hsz & dk & partial & Hdk & Hdkd & Hrd).
      split; [exact Hname |]. split; [exact Hsz |].
      exists dk, partial. split; [| auto].
      intros p Hne. rewrite (Hdk p Hne). auto.
  - (* an entry that never became ready *)
    simpl. apply pump_outcome_unsettled; [auto | now left | auto |].
    destruct written as [before|]; [left; tauto | right; exact Hp].
Qed.

End Events.

(** ** Paths *)

Module PathFacts.

Import Path.

Lemma split_nonempty (s : string) : exists h t, Js.split sep s = h :: t.
Proof.
  destruct s as [|c s]; simpl; [eauto |].
  destruct (Ascii.eqb c sep); [eauto |].
  destruct (Js.split sep s); eauto.
Qed.

Lemma split_append (a b : string) :
  Js.split sep (a +:+ String sep b) = Js.split sep a ++ Js.split sep b.
Proof.
  induction a as [|x a IH]; simpl.
  - reflexivity.
  - rewrite IH. destruct (Ascii.eqb x sep); [reflexivity |].
    destruct (split_nonempty a) as (h & t & E). now rewrite E.
Qed.

Lemma split_no_sep (s : string) :
  Js.contains sep s = false -> Js.split sep s = [s].
Proof.
  induction s as [|x s IH]; simpl; [reflexivity |].
  destruct (Ascii.eqb x sep); [discriminate |].
  intros H. now rewrite (IH H).
Qed.

Lemma split_sep_free (s : string) :
  Forall (fun p => Js.contains sep p = false) (Js.split sep s).
Proof.
  induction s as [|x s IH]; simpl.
  - repeat constructor.
  - destruct (Ascii.eqb x sep) eqn:E.
    + constructor; [reflexivity | exact IH].
    + destruct (Js.split sep s) as [|h t]; inversion IH; subst;
        constructor; simpl; try rewrite E; auto.
Qed.

Lemma normalizeArray_loop_app (a : bool) (l1 l2 : list string) :
  forall res,
  normalizeArray_loop a (l1 ++ l2) res
  = normalizeArray_loop a l2 (normalizeArray_loop a l1 res).
Proof.
  induction l1 as [|p l1 IH]; intros res; simpl; [reflexivity |].
  destruct (String.eqb p "" || String.eqb p "."); [apply IH |].
  destruct (String.eqb p ".."); [| apply IH].
  destruct res as [|top below]; [apply IH |].
  destruct (String.eqb top ".."); apply IH.
Qed.

Lemma proper_name_spec (s : string) :
  proper_name s = true <->
  s <> "" /\ Js.contains sep s = false /\ s <> "." /\ s <> "..".
Proof.
  unfold proper_name. rewrite !andb_true_iff, !negb_true_iff, !String.eqb_neq.
  tauto.
Qed.

Lemma loop_push_proper (a : bool) (p : string) (res : list string) :
  proper_name p = true -> normalizeArray_loop a [p] res = p :: res.
Proof.
  intros H. apply proper_name_spec in H as (H1 & _ & H2 & H3).
  simpl. apply String.eqb_neq in H1, H2, H3. now rewrite H1, H2, H3.
Qed.

Lemma loop_proper_names (a : bool) (names : list string) :
  forall res,
  Forall (fun p => proper_name p = true) names ->
  normalizeArray_loop a names res = rev names ++ res.
Proof.
  induction names as [|p names IH]; intros res H; [reflexivity |].
  inversion H as [|? ? Hp Hn]; subst.
  change (p :: names) with ([p] ++ names).
  rewrite normalizeArray_loop_app, (loop_push_proper a p res Hp), (IH _ Hn).
  simpl. now rewrite <- app_assoc.
Qed.

(** Without [allowAboveRoot] the stack only ever holds proper names. *)
Lemma loop_keeps_proper (parts : list string) :
  forall res,
  Forall (fun p => Js.contains sep p = false) parts ->
  Forall (fun p => proper_name p = true) res ->
  Forall (fun p => proper_name p = true) (normalizeArray_loop false parts res).
Proof.
  induction parts as [|p parts IH]; intros res Hparts Hres; [exact Hres |].
  inversion Hparts as [|? ? Hp Hrest]; subst. simpl.
  destruct (String.eqb p "") eqn:E1; simpl; [now apply IH |].
  destruct (String.eqb p ".") eqn:E2; simpl; [now apply IH |].
  destruct (String.eqb p "..") eqn:E3.
  - destruct res as [|top below]; [now apply IH |].
    inversion Hres; subst.
    destruct (String.eqb top ".."); apply IH; auto.
  - apply IH; [exact Hrest |]. constructor; [| exact Hres].
    unfold proper_name. now rewrite E1, Hp, E2, E3.
Qed.

Lemma stack_append (a b : string) (res : list string) :
  stack (a +:+ String sep b) res = stack b (stack a res).
Proof. unfold stack. now rewrite split_append, normalizeArray_loop_app. Qed.

Lemma stack_empty (res : list string) : stack "" res = res.
Proof. reflexivity. Qed.

Lemma stack_proper (s : string) (res : list string) :
  Forall (fun p => proper_name p = true) res ->
  Forall (fun p => proper_name p = true) (stack s res).
Proof. apply loop_keeps_proper, split_sep_free. Qed.

Lemma stack_name (name : string) (res : list string) :
  proper_name name = true -> stack name res = name :: res.
Proof.
  intros H. unfold stack.
  rewrite split_no_sep; [now apply loop_push_proper |].
  now apply proper_name_spec in H.
Qed.

Lemma join_cons (p q : string) (l : list string) :
  Js.join "/" (p :: q :: l) = p +:+ String sep (Js.join "/" (q :: l)).
Proof. reflexivity. Qed.

Lemma split_join (names : list string) :
  names <> [] ->
  Forall (fun p => proper_name p = true) names ->
  Js.split sep (Js.join "/" names) = names.
Proof.
  induction names as [|p names IH]; intros Hne H; [congruence |].
  inversion H as [|? ? Hp Hn]; subst.
  apply proper_name_spec in Hp as (_ & Hsep & _).
  destruct names as [|q names].
  - simpl. now apply split_no_sep.
  - rewrite join_cons, split_append, (split_no_sep p Hsep), IH;
      [reflexivity | congruence | exact Hn].
Qed.

Lemma stack_join (names res : list string) :
  Forall (fun p => proper_name p = true) names ->
  stack (Js.join "/" names) res = rev names ++ res.
Proof.
  intros H. destruct names as [|p names]; [reflexivity |].
  unfold stack. rewrite split_join by (auto; congruence).
  now apply loop_proper_names.
Qed.

Lemma join_not_empty (p : string) (names : list string) :
  p <> "" -> Js.join "/" (p :: names) <> "".
Proof.
  intros Hp. destruct p as [|c p]; [congruence |].
  destruct names; simpl; discriminate.
Qed.

End PathFacts.

Module ResolveFacts.

Import Path PathFacts.

Lemma isAbsolute_not_empty (p : string) : isAbsolute p = true -> p <> "".
Proof. destruct p; [discriminate | discriminate]. Qed.

Lemma isAbsolute_append (a b : string) :
  a <> "" -> isAbsolute (a +:+ b) = isAbsolute a.
Proof. destruct a; [congruence | reflexivity]. Qed.

Lemma proper_not_absolute (s : string) :
  proper_name s = true -> isAbsolute s = false.
Proof.
  intros H. apply proper_name_spec in H as (Hne & Hsep & _).
  destruct s as [|c s]; [reflexivity |]. simpl in *.
  destruct (Ascii.eqb c sep); [discriminate | reflexivity].
Qed.

Lemma resolve_single (cwd p : string) :
  isAbsolute cwd = true -> p <> "" ->
  resolve cwd [p] = "/" +:+ Js.join "/" (rev (stack (anchor cwd p) [])).
Proof.
  intros Hcwd Hp. unfold resolve, anchor. simpl rev. simpl app.
  unfold resolve_loop. apply String.eqb_neq in Hp. rewrite Hp.
  destruct (isAbsolute p) eqn:Habs.
  - unfold normalizeArray. simpl negb.
    change (p +:+ "/" +:+ "") with (p +:+ String sep "").
    fold (stack (p +:+ String sep "") []).
    rewrite stack_append, stack_empty. reflexivity.
  - pose proof (isAbsolute_not_empty cwd Hcwd) as Hne.
    apply String.eqb_neq in Hne. rewrite Hne, Hcwd.
    unfold normalizeArray. simpl negb.
    change (cwd +:+ "/" +:+ p +:+ "/" +:+ "")
      with (cwd +:+ String sep (p +:+ String sep "")).
    fold (stack (cwd +:+ String sep (p +:+ String sep "")) []).
    rewrite !stack_append, stack_empty. reflexivity.
Qed.

Lemma resolve_pair (cwd d s : string) :
  isAbsolute cwd = true -> d <> "" -> s <> "" -> isAbsolute s = false ->
  resolve cwd [d; s]
  = "/" +:+ Js.join "/" (rev (stack s (stack (anchor cwd d) []))).
Proof.
  intros Hcwd Hd Hs Hrel. unfold resolve, anchor. simpl rev. simpl app.
  unfold resolve_loop. apply String.eqb_neq in Hd, Hs. rewrite Hs, Hrel, Hd.
  destruct (isAbsolute d) eqn:Habs.
  - unfold normalizeArray. simpl negb.
    change (d +:+ "/" +:+ s +:+ "/" +:+ "")
      with (d +:+ String sep (s +:+ String sep "")).
    fold (stack (d +:+ String sep (s +:+ String sep "")) []).
    rewrite !stack_append, stack_empty. reflexivity.
  - pose proof (isAbsolute_not_empty cwd Hcwd) as Hne.
    apply String.eqb_neq in Hne. rewrite Hne, Hcwd.
    unfold normalizeArray. simpl negb.
    change (cwd +:+ "/" +:+ d +:+ "/" +:+ s +:+ "/" +:+ "")
      with (cwd +:+ String sep (d +:+ String sep (s +:+ String sep ""))).
    fold (stack (cwd +:+ String sep (d +:+ String sep (s +:+ String sep ""))) []).
    rewrite !stack_append, stack_empty. reflexivity.
Qed.

Lemma lastChar_append (a b : string) :
  b <> "" -> lastChar (a +:+ b) = lastChar b.
Proof.
  intros Hb. induction a as [|x a IH]; [reflexivity |].
  simpl. rewrite IH.
  destruct (a +:+ b) eqn:E; [| reflexivity].
  destruct a, b; simpl in E; congruence.
Qed.

Lemma lastChar_no_sep (s : string) (c : ascii) :
  Js.contains sep s = false -> lastChar s = Some c -> Ascii.eqb c sep = false.
Proof.
  induction s as [|x s IH]; simpl; [discriminate |].
  destruct (Ascii.eqb x sep) eqn:E; [discriminate |].
  intros Hs. destruct s; [intros [= <-]; exact E | now apply IH].
Qed.

Lemma stack_nil_proper (s : string) :
  Forall (fun p => proper_name p = true) (stack s []).
Proof. apply stack_proper. constructor. Qed.

Lemma join_two (a b : string) :
  a <> "" -> b <> "" -> Path.join [a; b] = normalize (a +:+ String sep b).
Proof.
  intros Ha Hb. apply String.eqb_neq in Ha, Hb.
  unfold Path.join. simpl. now rewrite Ha, Hb.
Qed.

Lemma normalize_absolute (p : string) :
  isAbsolute p = true ->
  (forall c, lastChar p = Some c -> Ascii.eqb c sep = false) ->
  normalize p = "/" +:+ Js.join "/" (rev (stack p [])).
Proof.
  intros Habs Hlast. unfold normalize. rewrite Habs. simpl negb.
  rewrite andb_false_r.
  destruct (lastChar p) as [c|]; [rewrite (Hlast c eq_refl) |];
    now rewrite andb_false_r.
Qed.

(** The generated archive lies where [path.join(process.cwd(), fileName)]
    says: the operating system resolves both to the same absolute path. *)
Lemma resolve_join_cwd (cwd fileName : string) :
  isAbsolute cwd = true -> proper_name fileName = true ->
  resolve cwd [Path.join [cwd; fileName]] = resolve cwd [fileName].
Proof.
  intros Hcwd Hname.
  pose proof (isAbsolute_not_empty cwd Hcwd) as Hcne.
  pose proof (proj1 (proper_name_spec fileName) Hname) as (Hfne & Hfsep & _).
  assert (Hjoin : Path.join [cwd; fileName]
                  = "/" +:+ Js.join "/" (rev (stack cwd []) ++ [fileName])).
  { rewrite (join_two cwd fileName Hcne Hfne).
    rewrite normalize_absolute.
    - now rewrite stack_append, (stack_name _ _ Hname).
    - now rewrite isAbsolute_append.
    - intros c.
      change (cwd +:+ String sep fileName) with (cwd +:+ ("/" +:+ fileName)).
      rewrite <- append_assoc, lastChar_append by exact Hfne.
      apply lastChar_no_sep, Hfsep. }
  rewrite Hjoin.
  rewrite (resolve_single cwd fileName Hcwd Hfne).
  rewrite resolve_single by (exact Hcwd || discriminate).
  unfold anchor. rewrite (proper_not_absolute fileName Hname).
  change (isAbsolute ("/" +:+ Js.join "/" (rev (stack cwd []) ++ [fileName])))
    with true. cbv iota.
  rewrite stack_append, (stack_name _ _ Hname).
  change ("/" +:+ Js.join "/" (rev (stack cwd []) ++ [fileName]))
    with ("" +:+ String sep (Js.join "/" (rev (stack cwd []) ++ [fileName]))).
  rewrite stack_append, stack_empty, stack_join.
  - rewrite app_nil_r, rev_involutive. reflexivity.
  - apply Forall_app. split.
    + apply Forall_rev, stack_nil_proper.
    + now constructor.
Qed.

End ResolveFacts.

(** ** A whole bundling *)

Lemma isAlnum_not_sep (c : ascii) : isAlnum c = true -> Ascii.eqb c Path.sep = false.
Proof.
  intros H. destruct (Ascii.eqb_spec c Path.sep) as [-> |]; [discriminate | reflexivity].
Qed.

Lemma all_alnum_no_sep (s : string) :
  all_alnum s = true -> Js.contains Path.sep s = false.
Proof.
  induction s as [|c s IH]; simpl; [reflexivity |].
  intros H. apply andb_prop in H as [Hc Hs].
  now rewrite (isAlnum_not_sep c Hc), IH.
Qed.

Lemma contains_append (c : ascii) (a b : string) :
  Js.contains c (a +:+ b) = Js.contains c a || Js.contains c b.
Proof.
  induction a as [|x a IH]; simpl; [reflexivity |].
  destruct (Ascii.eqb x c); [reflexivity | exact IH].
Qed.

Lemma temp_name_proper (name : string) :
  all_alnum name = true -> proper_name (name +:+ ".zip") = true.
Proof.
  intros H. apply PathFacts.proper_name_spec.
  assert (Hlen : 4 <= String.length (name +:+ ".zip"))
    by (rewrite length_append; simpl; lia).
  repeat split.
  - intros E. rewrite E in Hlen. simpl in Hlen. lia.
  - rewrite contains_append, (all_alnum_no_sep name H). reflexivity.
  - intros E. rewrite E in Hlen. simpl in Hlen. lia.
  - intros E. rewrite E in Hlen. simpl in Hlen. lia.
Qed.

(** The three ways the synchronous part ends. *)
Lemma packageFileFromPath_throws (env : Env) (d : gmap string Node)
    (filePath : string) (e : Error) :
  Fs.lstat d (cwd env) filePath = inl e ->
  packageFileFromPath env filePath (initial_state d)
  = (Throw e, log_io (IO_lstat filePath) (initial_state d)).
Proof.
  intros H. unfold packageFileFromPath. rewrite bind_unfold.
  unfold fs_lstatSync. simpl disk. now rewrite H.
Qed.

Lemma packageFileFromPath_directory (env : Env) (d : gmap string Node)
    (filePath : string) (stats : Stats) :
  Fs.lstat d (cwd env) filePath = inr stats ->
  isDirectory stats = true ->
  packageFileFromPath env filePath (initial_state d)
  = (Ok tt,
     set_scan_request (Some filePath)
       (log_io (IO_readdirr filePath)
          (set_promise (Some Pending)
             (log_io (IO_lstat filePath) (initial_state d))))).
Proof.
  intros H Hdir. unfold packageFileFromPath. rewrite bind_unfold.
  unfold fs_lstatSync. simpl disk. now rewrite H, Hdir.
Qed.

Lemma packageFileFromPath_single_file (env : Env) (d : gmap string Node)
    (filePath : string) (stats : Stats) :
  Fs.lstat d (cwd env) filePath = inr stats ->
  isDirectory stats = false ->
  packageFileFromPath env filePath (initial_state d)
  = (Ok tt,
     {| disk := d; random_calls := 0;
        getPackageFilePromise :=
          Some (Fulfilled {| isTemporary := false; path := filePath |});
        listeners := []; zipFile := None; writeStream := None;
        scan_request := None; io_log := [IO_lstat filePath];
        uncaught := None |}).
Proof.
  intros H Hdir. unfold packageFileFromPath. rewrite bind_unfold.
  unfold fs_lstatSync. simpl disk. now rewrite H, Hdir.
Qed.


(** The archive is streamed from a state in which the promise is
    pending, the two listeners are registered, the write stream is piped
    and the entries of the files before the first rejected name are
    queued. *)
Lemma streaming_starts (env : Env) (d : gmap string Node) (filePath : string)
    (stats : Stats) (directories files : list string) :
  Fs.lstat d (cwd env) filePath = inr stats ->
  isDirectory stats = true ->
  readdirr_result env filePath = inr (directories, files) ->
  exists name r queued st2,
    all_alnum name = true
    /\ (random_in_unit_interval env -> String.length name = 15)
    /\ packageFileFromPath_settled env filePath (initial_state d)
       = (Ok tt, stream_phase env st2)
    /\ disk st2 = d
    /\ getPackageFilePromise st2 = Some Pending
    /\ listeners st2 = bundling_listeners (name +:+ ".zip")
    /\ writeStream st2
       = Some {| ws_path := name +:+ ".zip"; ws_source := Some OutputStreamE;
                 ws_closed := false |}
    /\ uncaught st2 = match r with Ok _ => None | Throw e => Some e end
    /\ zipFile st2
       = Some {| zip_entries :=
                   map (fun file =>
                          (file, archive_name (entry_name env filePath file)))
                       queued;
                 zip_ended := match r with Ok _ => true | Throw _ => false end |}
    /\ (r = Ok tt -> queued = files)
    /\ (Forall (fun file => accepted_name (entry_name env filePath file)) files ->
        r = Ok tt)
    /\ (Exists (fun file => rejected_name (entry_name env filePath file)) files ->
        exists e, r = Throw e).
Proof.
  intros Hlstat Hdir Hscan.
  unfold packageFileFromPath_settled.
  rewrite (packageFileFromPath_directory env d filePath stats Hlstat Hdir).
  unfold deliver_readdirr. simpl scan_request. cbv iota. rewrite Hscan.
  match goal with
  | |- context [readdirr_callback env filePath None directories files ?s] =>
      destruct (readdirr_callback_scan env filePath directories files s)
        as (name & r & st2 & queued & Hrun & Halnum & Hlen & Hd & _ & Hp & Hl
            & Hws & _ & _ & Hu & Hzip & Hdone & Hok & Hbad);
      rewrite Hrun
  end.
  simpl in Hd, Hp, Hl, Hws, Hu.
  exists name, r, queued.
  destruct r as [[] | e].
  - exists st2. repeat split; auto.
  - exists (set_uncaught e st2). unfold set_uncaught. simpl. rewrite Hu.
    repeat split; auto.
Qed.

(** What the event loop makes of that state. *)
Lemma stream_phase_outcome (env : Env) (fileName : string) (z : ZipFile)
    (st2 : State) :
  listeners st2 = bundling_listeners fileName ->
  getPackageFilePromise st2 = Some Pending ->
  writeStream st2
  = Some {| ws_path := fileName; ws_source := Some OutputStreamE;
            ws_closed := false |} ->
  zipFile st2 = Some z ->
  let dest := Fs.os_path (cwd env) fileName in
  let st' := stream_phase env st2 in
  (forall p, p <> dest -> disk st' !! p = disk st2 !! p)
  /\ archive_slot dest st2 st'
  /\ (forall e, uncaught st2 = Some e -> uncaught st' = Some e)
  /\ match getPackageFilePromise st' with
     | Some (Fulfilled dsc) =>
         dsc = {| isTemporary := true; path := Path.join [cwd env; fileName] |}
         /\ zip_ended z = true
         /\ uncaught st' = uncaught st2
         /\ last (io_log st') = Some (IO_close dest)
         /\ writeStream st'
            = Some {| ws_path := fileName; ws_source := Some OutputStreamE;
                      ws_closed := true |}
         /\ exists ms,
              disk st' !! dest = Some (RegularFile (ZipArchive ms true))
              /\ Forall2
                   (fun entry m =>
                      member_name m = snd entry
                      /\ Fs.readFile (disk st2) (cwd env) (fst entry)
                         = inr (member_content m))
                   (zip_entries z) ms
     | Some (Rejected e) => exists k, write_fault env k = Some e
     | Some Pending => True
     | None => False
     end.
Proof.
  intros Hl Hp Hws Hz dest st'. unfold st', stream_phase.
  rewrite Hz, Hws. cbn [ws_source ws_path]. fold dest.
  destruct (write_fault env 0) as [e|] eqn:Hfault.
  - (* the archive file cannot be opened *)
    destruct (writeStream_fail_facts env fileName e (log_io (IO_open dest) st2) Hl)
      as (Hd3 & Hu3 & Hl3 & _ & Hp3).
    simpl in Hd3, Hu3, Hl3, Hp3. rewrite Hp in Hp3.
    set (st3 := writeStream_fail env e (log_io (IO_open dest) st2)) in *.
    destruct (statEntries_facts env fileName (zip_entries z) st3)
      as (entries' & st4 & Hstat & Hsame & Hmono4 & _); [congruence |].
    rewrite Hstat.
    destruct Hsame as (Hd4 & _ & Hp4 & Hl4 & _).
    pose proof (pumpEntries_outcome env fileName dest (zip_ended z) entries' 1
                  None st4) as Hout.
    destruct Hout as (Hframe & Hslot & Hmono & Hcase);
      [congruence | exists e, 0; split; congruence |].
    set (st5 := pumpEntries env dest 1 entries' None (zip_ended z) st4) in *.
    split; [intros p Hne; rewrite (Hframe p Hne); congruence |].
    split.
    { destruct Hslot as [H | [H | H]]; [left; congruence | right; left; exact H
                                        | right; right; exact H]. }
    split; [intros e0 H0; apply Hmono, Hmono4; congruence |].
    destruct (getPackageFilePromise st5) as [[| dsc | e1]|]; auto.
    destruct Hcase as (_ & _ & _ & _ & _ & before & ms & Hnone & _).
    discriminate.
  - (* the archive file is open and empty *)
    set (st3 := set_disk (insert dest (RegularFile (ZipArchive [] false)))
                  (log_io (IO_open dest) st2)).
    destruct (statEntries_facts env fileName (zip_entries z) st3)
      as (entries' & st4 & Hstat & Hsame & Hmono4 & Hall4 & Hready4 & _);
      [exact Hl |].
    rewrite Hstat.
    destruct Hsame as (Hd4 & _ & Hp4 & Hl4 & Hws4 & _).
    simpl in Hd4, Hp4, Hl4, Hws4.
    pose proof (pumpEntries_outcome env fileName dest (zip_ended z) entries' 1
                  (Some []) st4) as Hout.
    destruct Hout as (Hframe & Hslot & Hmono & Hcase);
      [congruence
      | split; [congruence | rewrite Hd4; apply lookup_insert_eq] |].
    set (st5 := pumpEntries env dest 1 entries' (Some []) (zip_ended z) st4) in *.
    assert (Hoff : forall p, p <> dest -> disk st4 !! p = disk st2 !! p)
      by (intros p Hne; rewrite Hd4; now apply lookup_insert_ne).
    split; [intros p Hne; rewrite (Hframe p Hne); auto |].
    split.
    { destruct Hslot as [H | [H | H]]; [| right; left; exact H | right; right; exact H].
      right. left. exists []. rewrite H, Hd4. apply lookup_insert_eq. }
    split; [intros e0 H0; apply Hmono, Hmono4; exact H0 |].
    destruct (getPackageFilePromise st5) as [[| dsc | e1]|]; auto.
    destruct Hcase as (Hdsc & Hend & Hunc & Hlast & Hclosed & before & ms & Hb
                       & Hdest & Hall).
    inversion Hb; subst before. simpl in Hdest.
    assert (Hreadyall : Forall (fun entry' => is_Some (snd entry')) entries').
    { apply (Forall2_Forall_l _ _ _ _ Hall).
      apply Forall_forall. intros m _ entry' (_ & Hsome & _).
      rewrite Hsome. eauto. }
    split; [exact Hdsc |]. split; [exact Hend |].
    split; [rewrite Hunc; now apply Hready4 |].
    split; [exact Hlast |].
    split; [rewrite Hws in Hws4; rewrite (Hclosed _ Hws4); reflexivity |].
    exists ms. split; [exact Hdest |].
    eapply Forall2_trans; [| exact Hall4 | exact Hall].
    intros entry entry' m [<- Hsz] (Hname & Hsize & dk & partial & Hdk & Hdkd & Hrd).
    split; [exact Hname |].
    destruct (Hsz _ Hsize) as (Esz & stats & Hst & Hfile).
    eapply (FsFacts.read_of_checked_size (disk st2) (disk st3) dk dest).
    + intros q Hq. simpl. now apply lookup_insert_ne.
    + simpl. apply lookup_insert_eq.
    + intros q Hq. rewrite (Hdk q Hq). auto.
    + exact Hdkd.
    + exact Hst.
    + exact Hfile.
    + exact Hrd.
    + exact Esz.
Qed.

Lemma settled_directory (env : Env) (d : gmap string Node) (filePath : string)
    (stats : Stats) (directories files : list string) :
  Fs.lstat d (cwd env) filePath = inr stats ->
  isDirectory stats = true ->
  readdirr_result env filePath = inr (directories, files) ->
  exists name st',
    packageFileFromPath_settled env filePath (initial_state d) = (Ok tt, st')
    /\ all_alnum name = true
    /\ (random_in_unit_interval env -> String.length name = 15)
    /\ directory_outcome env d filePath name files st'.
Proof.
  intros Hlstat Hdir Hscan.
  destruct (streaming_starts env d filePath stats directories files
              Hlstat Hdir Hscan)
    as (name & r & queued & st2 & Halnum & Hlen & Hrun & Hd & Hp & Hl & Hws
        & Hu & Hzip & Hdone & _ & _).
  exists name, (stream_phase env st2).
  split; [exact Hrun |]. split; [exact Halnum |]. split; [exact Hlen |].
  destruct (stream_phase_outcome env (name +:+ ".zip") _ st2 Hl Hp Hws Hzip)
    as (Hframe & Hslot & Hmono & Hcase).
  unfold directory_outcome. cbv zeta. rewrite <- Hd.
  split; [exact Hframe |]. split; [exact Hslot |].
  destruct (getPackageFilePromise (stream_phase env st2)) as [[| dsc | e]|]; auto.
  destruct Hcase as (Hdsc & Hend & Hunc & Hlast & Hclosed & ms & Hdest & Hall).
  simpl in Hend, Hall.
  destruct r as [[] | e]; [| discriminate].
  rewrite (Hdone eq_refl) in Hall.
  split; [exact Hdsc |]. split; [congruence |]. split; [exact Hlast |].
  split; [exact Hclosed |].
  exists ms. split; [exact Hdest |].
  apply Forall2_fmap_l in Hall. exact Hall.
Qed.

Lemma settled_single_file (env : Env) (d : gmap string Node)
    (filePath : string) (stats : Stats) :
  Fs.lstat d (cwd env) filePath = inr stats ->
  isDirectory stats = false ->
  packageFileFromPath_settled env filePath (initial_state d)
  = (Ok tt,
     {| disk := d; random_calls := 0;
        getPackageFilePromise :=
          Some (Fulfilled {| isTemporary := false; path := filePath |});
        listeners := []; zipFile := None; writeStream := None;
        scan_request := None; io_log := [IO_lstat filePath];
        uncaught := None |}).
Proof.
  intros H Hdir. unfold packageFileFromPath_settled.
  now rewrite (packageFileFromPath_single_file env d filePath stats H Hdir).
Qed.

Lemma settled_walk_error (env : Env) (d : gmap string Node)
    (filePath : string) (stats : Stats) (error : Error) :
  Fs.lstat d (cwd env) filePath = inr stats ->
  isDirectory stats = true ->
  readdirr_result env filePath = inl error ->
  packageFileFromPath_settled env filePath (initial_state d)
  = (Ok tt,
     {| disk := d; random_calls := 0;
        getPackageFilePromise := Some (Rejected error);
        listeners := []; zipFile := None; writeStream := None;
        scan_request := None;
        io_log := [IO_lstat filePath; IO_readdirr filePath];
        uncaught := None |}).
Proof.
  intros H Hdir Hscan. unfold packageFileFromPath_settled.
  rewrite (packageFileFromPath_directory env d filePath stats H Hdir).
  unfold deliver_readdirr. simpl scan_request. cbv iota. now rewrite Hscan.
Qed.


(** A temporary descriptor only comes out of a bundling whose input is a
    directory and whose walk succeeded. *)
Lemma settled_temporary (env : Env) (d : gmap string Node) (filePath : string)
    (r : Result unit) (st : State) (dsc : PackageFile) :
  packageFileFromPath_settled env filePath (initial_state d) = (r, st) ->
  getPackageFilePromise st = Some (Fulfilled dsc) ->
  isTemporary dsc = true ->
  exists stats directories files name,
    Fs.lstat d (cwd env) filePath = inr stats
    /\ isDirectory stats = true
    /\ readdirr_result env filePath = inr (directories, files)
    /\ all_alnum name = true
    /\ (random_in_unit_interval env -> String.length name = 15)
    /\ directory_outcome env d filePath name files st.
Proof.
  intros Hrun Hp Htemp.
  destruct (Fs.lstat d (cwd env) filePath) as [e | stats] eqn:Hlstat.
  { unfold packageFileFromPath_settled in Hrun.
    rewrite (packageFileFromPath_throws env d filePath e Hlstat) in Hrun.
    inversion Hrun; subst. discriminate. }
  destruct (isDirectory stats) eqn:Hdir.
  2:{ rewrite (settled_single_file env d filePath stats Hlstat Hdir) in Hrun.
      inversion Hrun; subst. simpl in Hp. inversion Hp; subst. discriminate. }
  destruct (readdirr_result env filePath) as [error | [directories files]] eqn:Hscan.
  { rewrite (settled_walk_error env d filePath stats error Hlstat Hdir Hscan)
      in Hrun.
    inversion Hrun; subst. discriminate. }
  destruct (settled_directory env d filePath stats directories files
              Hlstat Hdir Hscan) as (name & st' & Hrun' & Halnum & Hlen & Hout).
  rewrite Hrun in Hrun'. inversion Hrun'; subst.
  exists stats, directories, files, name.
  do 5 (split; [solve [auto] |]). exact Hout.
Qed.


(** ** Runs whose sources are read without trouble *)

Section ReadableSources.

Variable env : Env.
Variable fileName : string.
Variable dest : string.
Variable d : gmap string Node.






End ReadableSources.





(** ** Path classification *)

(** C2, as stated, fails: a symbolic link whose target is a directory is
    not classified as a directory. *)
Lemma symlink_to_directory_not_classified_as_directory :
  ~ (forall (env : Env) (d : gmap string Node) (filePath target : string),
       d !! Fs.os_path (cwd env) filePath = Some (SymbolicLink target) ->
       Fs.stat d (cwd env) filePath = inr StatsDirectory ->
       classification env d filePath = Some IsDirectory).
Proof.
  intros H.
  specialize (H example_env example_disk "/srv/current" "/srv/app").
  assert (E : classification example_env example_disk "/srv/current"
              = Some IsSingleFile) by (vm_compute; reflexivity).
  rewrite E in H.
  assert (C : Some IsSingleFile = Some IsDirectory)
    by (apply H; vm_compute; reflexivity).
  discriminate C.
Qed.


(** C2, amended: the classification is decided by [lstat] on the path.
    Symbolic links in the directories that lead to the last component
    are followed, and so is a link that a trailing slash comes after; the
    link named by the last component itself is not: such an input, a
    name in the working directory or a name after a path to a directory,
    is classified as a single file whatever the link's target, and the
    input is a directory exactly when the resolution that stops at the
    last component ends at a directory. *)
Theorem classification_is_by_lstat (env : Env) (d : gmap string Node)
    (filePath : string) :
  classification env d filePath
  = match Fs.lstat d (cwd env) filePath with
    | inl _ => None
    | inr stats => Some (if isDirectory stats then IsDirectory else IsSingleFile)
    end
  /\ (classification env d filePath = Some IsDirectory <->
      exists K, Fs.lookup false d (cwd env) filePath = inr (K, Directory))
  /\ (forall target,
        proper_name filePath = true ->
        d !! Fs.child (Fs.start (cwd env) filePath) filePath
        = Some (SymbolicLink target) ->
        classification env d filePath = Some IsSingleFile)
  /\ (forall dir name K target,
        filePath = dir +:+ "/" +:+ name ->
        Fs.lookup true d (cwd env) dir = inr (K, Directory) ->
        proper_name name = true ->
        d !! Fs.child K name = Some (SymbolicLink target) ->
        classification env d filePath = Some IsSingleFile)
  /\ (forall p K,
        filePath = p +:+ "/" ->
        Fs.lookup true d (cwd env) p = inr (K, Directory) ->
        classification env d filePath = Some IsDirectory).
Proof.
  assert (E : classification env d filePath
              = match Fs.lstat d (cwd env) filePath with
                | inl _ => None
                | inr stats =>
                    Some (if isDirectory stats then IsDirectory else IsSingleFile)
                end).
  { unfold classification.
    destruct (Fs.lstat d (cwd env) filePath) as [e | stats] eqn:Hl.
    - now rewrite (packageFileFromPath_throws env d filePath e Hl).
    - destruct (isDirectory stats) eqn:Hd.
      + now rewrite (packageFileFromPath_directory env d filePath stats Hl Hd).
      + now rewrite (packageFileFromPath_single_file env d filePath stats Hl Hd). }
  split; [exact E |]. rewrite E. unfold Fs.lstat.
  split; [| split; [| split]].
  - destruct (Fs.lookup false d (cwd env) filePath) as [code | [K [c | | t]]];
      simpl; split; try discriminate; try (intros [K' H']; discriminate);
      eauto.
  - intros target Hname Hlink. unfold Fs.lookup.
    apply PathFacts.proper_name_spec in Hname as (Hn0 & Hsep & Hn1 & Hn2).
    apply String.eqb_neq in Hn0, Hn1, Hn2. rewrite Hn0.
    rewrite (PathFacts.split_no_sep filePath Hsep), FsFacts.walk_cons.
    rewrite Hn0, Hn1, Hn2. simpl orb. cbv iota. rewrite Hlink. reflexivity.
  - intros dir name K target -> Hdir Hname Hlink.
    unfold Fs.lookup in *.
    destruct (String.eqb_spec dir "") as [-> | Hne]; [discriminate |].
    replace (String.eqb (dir +:+ "/" +:+ name) "") with false
      by (destruct dir; [congruence | reflexivity]).
    assert (Hstart : Fs.start (cwd env) (dir +:+ "/" +:+ name)
                     = Fs.start (cwd env) dir).
    { unfold Fs.start. now rewrite ResolveFacts.isAbsolute_append. }
    rewrite Hstart.
    apply PathFacts.proper_name_spec in Hname as (Hn0 & Hsep & Hn1 & Hn2).
    change (dir +:+ "/" +:+ name) with (dir +:+ String Path.sep name).
    rewrite PathFacts.split_append, (PathFacts.split_no_sep name Hsep).
    destruct (FsFacts.walk_app d false [name] ltac:(discriminate) _ _ _ _ Hdir)
      as [fuel' ->].
    rewrite FsFacts.walk_cons.
    apply String.eqb_neq in Hn0, Hn1, Hn2. rewrite Hn0, Hn1, Hn2. simpl orb.
    cbv iota. rewrite Hlink. reflexivity.
  - intros p K -> Hdir.
    unfold Fs.lookup in *.
    destruct (String.eqb_spec p "") as [-> | Hne]; [discriminate |].
    replace (String.eqb (p +:+ "/") "") with false
      by (destruct p; [congruence | reflexivity]).
    assert (Hstart : Fs.start (cwd env) (p +:+ "/") = Fs.start (cwd env) p).
    { unfold Fs.start. now rewrite ResolveFacts.isAbsolute_append. }
    rewrite Hstart.
    change (p +:+ "/") with (p +:+ String Path.sep "").
    rewrite PathFacts.split_append.
    destruct (FsFacts.walk_app d false (Js.split Path.sep "")
                ltac:(discriminate) _ _ _ _ Hdir) as [fuel' ->].
    change (Js.split Path.sep "") with [""].
    rewrite FsFacts.walk_cons. simpl orb. cbv iota.
    rewrite FsFacts.walk_nil. reflexivity.
Qed.

Lemma classification_is_by_lstat_witness :
  classification example_env example_disk "/srv/current/" = Some IsDirectory.
Proof.
  apply (proj2 (proj2 (proj2 (proj2
           (classification_is_by_lstat example_env example_disk
              "/srv/current/")))) "/srv/current" "/srv/app").
  - reflexivity.
  - vm_compute. reflexivity.
Defined.

(** The link [/srv/current] leads to the directory [/srv/app]: named
    alone it is a single file, with a trailing slash it is a directory,
    and so is a directory reached through it; the empty path and a path
    below a regular file make [lstat] throw. *)
Example classification_of_sample_paths :
  classification example_env example_disk "/srv/current" = Some IsSingleFile
  /\ classification example_env example_disk "/srv/current/" = Some IsDirectory
  /\ classification example_env example_disk "/srv/current/sub"
     = Some IsDirectory
  /\ classification example_env example_disk "/srv/current/a.txt"
     = Some IsSingleFile
  /\ classification example_env example_disk "" = None
  /\ Fs.lstat example_disk "/work" "/srv/notes.md/x"
     = inl (SystemError "ENOTDIR" "lstat" "/srv/notes.md/x")
  /\ Fs.lstat example_disk "/work" "/srv/missing"
     = inl (SystemError "ENOENT" "lstat" "/srv/missing").
Proof. vm_compute. repeat split; reflexivity. Qed.

(** ** Single files *)

(** C6: for an input that is not a directory the call itself settles the
    promise with [{ isTemporary: false, path: filePath }]; the only I/O is
    the [lstat] of the input, no write stream or archive is created, the
    disk is unchanged, and the event loop has nothing left to do. *)
Theorem single_file_is_passed_through (env : Env) (d : gmap string Node)
    (filePath : string) (stats : Stats) :
  Fs.lstat d (cwd env) filePath = inr stats ->
  isDirectory stats = false ->
  let st :=
    {| disk := d; random_calls := 0;
       getPackageFilePromise :=
         Some (Fulfilled {| isTemporary := false; path := filePath |});
       listeners := []; zipFile := None; writeStream := None;
       scan_request := None; io_log := [IO_lstat filePath];
       uncaught := None |} in
  packageFileFromPath env filePath (initial_state d) = (Ok tt, st)
  /\ packageFileFromPath_settled env filePath (initial_state d) = (Ok tt, st).
Proof.
  intros H Hdir. split.
  - exact (packageFileFromPath_single_file env d filePath stats H Hdir).
  - exact (settled_single_file env d filePath stats H Hdir).
Qed.

Lemma single_file_is_passed_through_witness :
  let st :=
    {| disk := example_disk; random_calls := 0;
       getPackageFilePromise :=
         Some (Fulfilled {| isTemporary := false; path := "/srv/notes.md" |});
       listeners := []; zipFile := None; writeStream := None;
       scan_request := None; io_log := [IO_lstat "/srv/notes.md"];
       uncaught := None |} in
  packageFileFromPath example_env "/srv/notes.md" (initial_state example_disk)
  = (Ok tt, st)
  /\ packageFileFromPath_settled example_env "/srv/notes.md"
       (initial_state example_disk) = (Ok tt, st).
Proof.
  apply (single_file_is_passed_through example_env example_disk "/srv/notes.md"
           StatsFile); vm_compute; reflexivity.
Defined.

(** ** Failure of the directory walk *)

(** C7: when the walk of a directory input reports an error, the promise
    is rejected with that very error; no file list is used, no random
    name is drawn, no write stream or archive is created, the disk is
    unchanged, and the walk is requested exactly once. *)
Theorem walk_error_rejects_unchanged (env : Env) (d : gmap string Node)
    (filePath : string) (stats : Stats) (error : Error) :
  Fs.lstat d (cwd env) filePath = inr stats ->
  isDirectory stats = true ->
  readdirr_result env filePath = inl error ->
  packageFileFromPath_settled env filePath (initial_state d)
  = (Ok tt,
     {| disk := d; random_calls := 0;
        getPackageFilePromise := Some (Rejected error);
        listeners := []; zipFile := None; writeStream := None;
        scan_request := None;
        io_log := [IO_lstat filePath; IO_readdirr filePath];
        uncaught := None |}).
Proof. apply settled_walk_error. Qed.

Lemma walk_error_rejects_unchanged_witness :
  packageFileFromPath_settled example_env "/srv/locked"
    (initial_state example_disk)
  = (Ok tt,
     {| disk := example_disk; random_calls := 0;
        getPackageFilePromise :=
          Some (Rejected (SystemError "EACCES" "scandir" "/srv/locked"));
        listeners := []; zipFile := None; writeStream := None;
        scan_request := None;
        io_log := [IO_lstat "/srv/locked"; IO_readdirr "/srv/locked"];
        uncaught := None |}).
Proof.
  apply (walk_error_rejects_unchanged example_env example_disk "/srv/locked"
           StatsDirectory); vm_compute; reflexivity.
Defined.

(** ** Temporary archives *)

(** C3: when a bundling has settled with a descriptor whose [isTemporary]
    is true, the file the descriptor's path leads to is on disk as a ZIP
    container whose central directory has been written, it is the file
    of the write stream, the stream's descriptor is closed, and closing
    it was the last I/O operation before the promise was resolved. *)
Theorem temporary_descriptor_names_closed_archive (env : Env)
    (d : gmap string Node) (filePath : string) (r : Result unit) (st : State)
    (dsc : PackageFile) :
  Path.isAbsolute (cwd env) = true ->
  packageFileFromPath_settled env filePath (initial_state d) = (r, st) ->
  getPackageFilePromise st = Some (Fulfilled dsc) ->
  isTemporary dsc = true ->
  exists members w,
    disk st !! Fs.os_path (cwd env) (path dsc)
    = Some (RegularFile (ZipArchive members true))
    /\ writeStream st = Some w
    /\ ws_closed w = true
    /\ Fs.os_path (cwd env) (ws_path w) = Fs.os_path (cwd env) (path dsc)
    /\ last (io_log st) = Some (IO_close (Fs.os_path (cwd env) (path dsc)))
    /\ uncaught st = None.
Proof.
  intros Hcwd Hrun Hp Htemp.
  destruct (settled_temporary env d filePath r st dsc Hrun Hp Htemp)
    as (stats & directories & files & name & _ & _ & _ & Halnum & _ & Hout).
  destruct Hout as (_ & _ & Hcase). rewrite Hp in Hcase.
  destruct Hcase as (-> & Hunc & Hlast & Hws & ms & Hdest & _).
  pose proof (ResolveFacts.resolve_join_cwd (cwd env) (name +:+ ".zip") Hcwd
                (temp_name_proper name Halnum)) as Hsame.
  exists ms. eexists. simpl path. unfold Fs.os_path in *. rewrite Hsame.
  repeat split; eauto.
Qed.

Lemma temporary_descriptor_names_closed_archive_witness :
  let st := snd (packageFileFromPath_settled example_env "/srv/app"
                   (initial_state example_disk)) in
  exists members w,
    disk st !! Fs.os_path "/work" "/work/fffffffffffffff.zip"
    = Some (RegularFile (ZipArchive members true))
    /\ writeStream st = Some w
    /\ ws_closed w = true
    /\ Fs.os_path "/work" (ws_path w)
       = Fs.os_path "/work" "/work/fffffffffffffff.zip"
    /\ last (io_log st)
       = Some (IO_close (Fs.os_path "/work" "/work/fffffffffffffff.zip"))
    /\ uncaught st = None.
Proof.
  apply (temporary_descriptor_names_closed_archive example_env example_disk
           "/srv/app" (Ok tt) _
           {| isTemporary := true; path := "/work/fffffffffffffff.zip" |});
    vm_compute; reflexivity.
Defined.

(** C8: when [Math.random()] returns doubles in [[0, 1)],
    [generateRandomFilename(15)] returns 15 characters of [[A-Za-z0-9]]
    (the index of each is the floor of the rounded double product
    [r * 62]); the name the write stream is created with is that token
    followed by [.zip], so it matches [^[A-Za-z0-9]{15}\.zip$]; and the
    path of a temporary descriptor is [path.join(process.cwd(), fileName)]
    for that same name. *)
Theorem temporary_filename_matches_pattern (env : Env) :
  random_in_unit_interval env ->
  (forall st, exists name,
     generateRandomFilename env 15 st
     = (Ok name, set_random_calls (15 + random_calls st) st)
     /\ String.length name = 15
     /\ all_alnum name = true)
  /\ (forall directoryPath directories files st, exists w,
        writeStream
          (snd (readdirr_callback env directoryPath None directories files st))
        = Some w
        /\ matches_temp_pattern (ws_path w) = true)
  /\ (forall d filePath r st dsc,
        packageFileFromPath_settled env filePath (initial_state d) = (r, st) ->
        getPackageFilePromise st = Some (Fulfilled dsc) ->
        isTemporary dsc = true ->
        exists fileName,
          matches_temp_pattern fileName = true
          /\ ws_path <$> writeStream st = Some fileName
          /\ path dsc = Path.join [cwd env; fileName]).
Proof.
  intros Hrange. split; [| split].
  - intros st.
    destruct (generateRandomFilename_15 env st) as (name & Hgen & Ha & Hl).
    exists name. auto.
  - intros directoryPath directories files st.
    destruct (readdirr_callback_scan env directoryPath directories files st)
      as (name & r & st' & queued & Hrun & Ha & Hl & _ & _ & _ & _ & Hw & _).
    rewrite Hrun. simpl. eexists. split; [exact Hw |].
    simpl. apply temp_name_matches; auto.
  - intros d filePath r st dsc Hrun Hp Htemp.
    destruct (settled_temporary env d filePath r st dsc Hrun Hp Htemp)
      as (stats & directories & files & name & _ & _ & _ & Ha & Hl & Hout).
    destruct Hout as (_ & _ & Hcase). rewrite Hp in Hcase.
    destruct Hcase as (-> & _ & _ & Hws & _).
    exists (name +:+ ".zip"). rewrite Hws.
    split; [apply temp_name_matches; auto | split; reflexivity].
Qed.

Lemma temporary_filename_matches_pattern_witness :
  (forall st, exists name,
     generateRandomFilename example_env 15 st
     = (Ok name, set_random_calls (15 + random_calls st) st)
     /\ String.length name = 15
     /\ all_alnum name = true)
  /\ (forall directoryPath directories files st, exists w,
        writeStream
          (snd (readdirr_callback example_env directoryPath None directories
                  files st))
        = Some w
        /\ matches_temp_pattern (ws_path w) = true)
  /\ (forall d filePath r st dsc,
        packageFileFromPath_settled example_env filePath (initial_state d)
        = (r, st) ->
        getPackageFilePromise st = Some (Fulfilled dsc) ->
        isTemporary dsc = true ->
        exists fileName,
          matches_temp_pattern fileName = true
          /\ ws_path <$> writeStream st = Some fileName
          /\ path dsc = Path.join [cwd example_env; fileName]).
Proof.
  apply (temporary_filename_matches_pattern example_env).
  intros i. split; [vm_compute; reflexivity |].
  split; vm_compute; [discriminate | reflexivity].
Defined.

(** The index is taken from the rounded product: for the double just
    below [1/62] the exact product lies below [1], the double product is
    [1], and the character drawn is [B]. *)
Example index_of_rounded_product :
  Number.is_double below_one_62nd = true
  /\ Qfloor (below_one_62nd * 62) = 0%Z
  /\ Math_floor (Number.mul below_one_62nd 62) = 1%Z
  /\ Js.charAt validChar (Math_floor (Number.mul below_one_62nd 62)) = "B".
Proof. vm_compute. repeat split; reflexivity. Qed.


(** ** Archive contents *)



(** Where a temporary archive lies when the working directory is
    [/work]. *)
Lemma temp_archive_in_work (name : string) :
  all_alnum name = true ->
  Fs.os_path "/work" (name +:+ ".zip") = "/work/" +:+ name +:+ ".zip".
Proof.
  intros H. pose proof (temp_name_proper name H) as Hproper.
  unfold Fs.os_path.
  rewrite ResolveFacts.resolve_single;
    [| reflexivity | now apply PathFacts.proper_name_spec in Hproper].
  unfold anchor. rewrite (ResolveFacts.proper_not_absolute _ Hproper).
  now rewrite PathFacts.stack_append, (PathFacts.stack_name _ _ Hproper).
Qed.




(** The directory [/srv/app] with [a.txt] and [sub/b.txt] is bundled into
    an archive with the members [app/a.txt] and [app/sub/b.txt]; the empty
    directory [/srv/empty] into a complete archive without members. *)
Example bundle_of_sample_tree :
  let st := snd (packageFileFromPath_settled example_env "/srv/app"
                   (initial_state example_disk)) in
  getPackageFilePromise st
  = Some (Fulfilled {| isTemporary := true;
                       path := "/work/fffffffffffffff.zip" |})
  /\ disk st !! "/work/fffffffffffffff.zip"
     = Some (RegularFile
               (ZipArchive [mkMember "app/a.txt" (Raw [x68; x69]%byte);
                            mkMember "app/sub/b.txt" (Raw [x62]%byte)] true)).
Proof. vm_compute. split; reflexivity. Qed.

Example bundle_of_empty_directory :
  let st := snd (packageFileFromPath_settled example_env "/srv/empty"
                   (initial_state example_disk)) in
  getPackageFilePromise st
  = Some (Fulfilled {| isTemporary := true;
                       path := "/work/fffffffffffffff.zip" |})
  /\ disk st !! "/work/fffffffffffffff.zip"
     = Some (RegularFile (ZipArchive [] true)).
Proof. vm_compute. split; reflexivity. Qed.


(** ** Failures of source files *)

(** A rejection carries the error of the directory walk or the error of
    a failed operation on the archive file; a source file that cannot be
    examined or read never rejects the promise. *)
Lemma rejection_origin (env : Env) (d : gmap string Node) (filePath : string)
    (r : Result unit) (st : State) (e : Error) :
  packageFileFromPath_settled env filePath (initial_state d) = (r, st) ->
  getPackageFilePromise st = Some (Rejected e) ->
  readdirr_result env filePath = inl e \/ exists k, write_fault env k = Some e.
Proof.
  intros Hrun Hp.
  destruct (Fs.lstat d (cwd env) filePath) as [e0 | stats] eqn:Hlstat.
  { unfold packageFileFromPath_settled in Hrun.
    rewrite (packageFileFromPath_throws env d filePath e0 Hlstat) in Hrun.
    inversion Hrun; subst. discriminate. }
  destruct (isDirectory stats) eqn:Hdir.
  2:{ rewrite (settled_single_file env d filePath stats Hlstat Hdir) in Hrun.
      inversion Hrun; subst. discriminate. }
  destruct (readdirr_result env filePath) as [error | [directories files]] eqn:Hscan.
  { rewrite (settled_walk_error env d filePath stats error Hlstat Hdir Hscan)
      in Hrun.
    inversion Hrun; subst. simpl in Hp. inversion Hp; subst. now left. }
  destruct (settled_directory env d filePath stats directories files
              Hlstat Hdir Hscan) as (name & st' & Hrun' & _ & _ & Hout).
  rewrite Hrun in Hrun'. inversion Hrun'; subst.
  destruct Hout as (_ & _ & Hcase). rewrite Hp in Hcase. now right.
Qed.

(** An error event on the [ZipFile] or on its output stream has no
    listener. *)
Lemma source_error_events_are_unhandled (env : Env) (fileName : string)
    (e : Error) (st : State) :
  listeners st = bundling_listeners fileName ->
  emit env ZipFileE (EvError e) st = set_uncaught e st
  /\ emit env OutputStreamE (EvError e) st = set_uncaught e st.
Proof. intros H. unfold emit. rewrite H. split; reflexivity. Qed.

(** When a scanned file cannot be read as a regular file, the promise is
    not fulfilled; and it is not rejected either unless an operation on
    the archive file fails: with a working destination it stays pending
    for ever. *)
Lemma unreadable_source_leaves_promise_pending (env : Env)
    (d : gmap string Node) (filePath : string) (stats : Stats)
    (directories files : list string) (r : Result unit) (st : State) :
  Fs.lstat d (cwd env) filePath = inr stats ->
  isDirectory stats = true ->
  readdirr_result env filePath = inr (directories, files) ->
  Exists (fun file => forall c, Fs.readFile d (cwd env) file <> inr c) files ->
  packageFileFromPath_settled env filePath (initial_state d) = (r, st) ->
  (forall dsc, getPackageFilePromise st <> Some (Fulfilled dsc))
  /\ ((forall k, write_fault env k = None) ->
      getPackageFilePromise st = Some Pending).
Proof.
  intros Hlstat Hdir Hscan Hex Hrun.
  destruct (settled_directory env d filePath stats directories files
              Hlstat Hdir Hscan) as (name & st' & Hrun' & _ & _ & Hout).
  rewrite Hrun in Hrun'. inversion Hrun'; subst r st'.
  destruct Hout as (_ & _ & Hcase).
  assert (Hnot : forall dsc, getPackageFilePromise st <> Some (Fulfilled dsc)).
  { intros dsc Hp. rewrite Hp in Hcase.
    destruct Hcase as (_ & _ & _ & _ & ms & _ & Hall).
    clear - Hex Hall.
    induction Hall as [|file m files ms [_ Hc] _ IH]; inversion Hex; subst.
    - now apply (H0 (member_content m)).
    - now apply IH. }
  split; [exact Hnot |]. intros Hw.
  destruct (getPackageFilePromise st) as [[| dsc | e]|];
    [reflexivity | | | contradiction].
  - now destruct (Hnot dsc).
  - destruct Hcase as [k Hk]. rewrite Hw in Hk. discriminate.
Qed.

(** A fulfilled promise means that no exception went uncaught. *)
Lemma fulfilled_without_uncaught_error (env : Env) (d : gmap string Node)
    (filePath : string) (r : Result unit) (st : State) (dsc : PackageFile) :
  packageFileFromPath_settled env filePath (initial_state d) = (r, st) ->
  getPackageFilePromise st = Some (Fulfilled dsc) ->
  uncaught st = None.
Proof.
  intros Hrun Hp.
  destruct (Fs.lstat d (cwd env) filePath) as [e0 | stats] eqn:Hlstat.
  { unfold packageFileFromPath_settled in Hrun.
    rewrite (packageFileFromPath_throws env d filePath e0 Hlstat) in Hrun.
    inversion Hrun; subst. discriminate. }
  destruct (isDirectory stats) eqn:Hdir.
  2:{ rewrite (settled_single_file env d filePath stats Hlstat Hdir) in Hrun.
      now inversion Hrun; subst. }
  destruct (readdirr_result env filePath) as [error | [directories files]] eqn:Hscan.
  { rewrite (settled_walk_error env d filePath stats error Hlstat Hdir Hscan)
      in Hrun.
    now inversion Hrun; subst. }
  destruct (settled_directory env d filePath stats directories files
              Hlstat Hdir Hscan) as (name & st' & Hrun' & _ & _ & Hout).
  rewrite Hrun in Hrun'. inversion Hrun'; subst.
  destruct Hout as (_ & _ & Hcase). rewrite Hp in Hcase.
  now destruct Hcase as (_ & Hnone & _).
Qed.

(** C1 at the failing input: the walk of [/srv/app] reported [gone.txt],
    which is no longer on disk when the archive writer examines it.  The
    [ZipFile] emits ["error"], for which no listener is registered: the
    error is an uncaught exception, the promise stays pending (it is
    neither rejected nor fulfilled), and the archive file is left on disk
    with its first member only and without central directory. *)
Theorem deleted_source_leaves_promise_pending :
  let st := snd (packageFileFromPath_settled stale_env "/srv/app"
                   (initial_state example_disk)) in
  getPackageFilePromise st = Some Pending
  /\ uncaught st = Some (SystemError "ENOENT" "stat" "/srv/app/gone.txt")
  /\ listeners st = bundling_listeners "fffffffffffffff.zip"
  /\ disk st !! "/work/fffffffffffffff.zip"
     = Some (RegularFile
               (ZipArchive [mkMember "app/a.txt" (Raw [x68; x69]%byte)] false)).
Proof. vm_compute. repeat split; reflexivity. Qed.


(** ** Entry names *)

Module EntryNames.

Import Path PathFacts ResolveFacts.

Lemma list_ascii_append (a b : string) :
  list_ascii_of_string (a +:+ b) = list_ascii_of_string a ++ list_ascii_of_string b.
Proof. induction a as [|x a IH]; simpl; [reflexivity | now rewrite IH]. Qed.

Lemma no_sep_units (s : string) :
  Js.contains sep s = false ->
  Forall (fun c => Ascii.eqb c sep = false) (list_ascii_of_string s).
Proof.
  induction s as [|x s IH]; simpl; intros H; [constructor |].
  destruct (Ascii.eqb x sep) eqn:E; [discriminate |].
  constructor; auto.
Qed.

Lemma dirname_scan_no_sep (units : list ascii) :
  Forall (fun c => Ascii.eqb c sep = false) units ->
  forall b, dirname_scan units b = None.
Proof.
  induction 1 as [|c units Hc _ IH]; intros b; simpl; [reflexivity |].
  rewrite Hc. apply IH.
Qed.

Lemma dirname_scan_component (units rest : list ascii) :
  units <> [] ->
  Forall (fun c => Ascii.eqb c sep = false) units ->
  forall b, dirname_scan (units ++ sep :: rest) b = Some rest.
Proof.
  intros Hne H. induction H as [|c units Hc Hrest IH]; [congruence |].
  intros b. simpl. rewrite Hc.
  destruct units as [|c' units].
  - reflexivity.
  - apply IH. congruence.
Qed.

Lemma proper_units (name : string) :
  proper_name name = true ->
  rev (list_ascii_of_string name) <> []
  /\ Forall (fun c => Ascii.eqb c sep = false) (rev (list_ascii_of_string name)).
Proof.
  intros H. apply proper_name_spec in H as (Hne & Hsep & _). split.
  - destruct name as [|c name]; [congruence |]. simpl.
    intros E. apply app_eq_nil in E as [_ E]. discriminate.
  - apply Forall_rev, no_sep_units, Hsep.
Qed.

(** [path.dirname] of a bare name, of a name under the root and of a name
    under a parent path. *)
Lemma dirname_name (name : string) :
  proper_name name = true -> dirname name = ".".
Proof.
  intros H. pose proof (proj1 (proper_name_spec name) H) as (Hne & Hsep & _).
  destruct name as [|c name]; [congruence |].
  simpl in Hsep. destruct (Ascii.eqb c sep) eqn:E; [discriminate |].
  unfold dirname. rewrite E.
  rewrite dirname_scan_no_sep; [reflexivity |].
  apply Forall_rev, no_sep_units, Hsep.
Qed.

Lemma dirname_root_child (name : string) :
  proper_name name = true -> dirname (String sep name) = "/".
Proof.
  intros H. pose proof (proj1 (proper_name_spec name) H) as (_ & Hsep & _).
  unfold dirname. rewrite Ascii.eqb_refl.
  rewrite dirname_scan_no_sep; [reflexivity |].
  apply Forall_rev, no_sep_units, Hsep.
Qed.

Lemma dirname_child (parent name : string) :
  parent <> "" -> proper_name name = true ->
  dirname (parent +:+ String sep name)
  = if String.eqb parent "/" then "//" else parent.
Proof.
  intros Hp H. destruct (proper_units name H) as [Hne Hall].
  destruct parent as [|c0 ptail]; [congruence |].
  change (String c0 ptail +:+ String sep name)
    with (String c0 (ptail +:+ String sep name)).
  unfold dirname.
  rewrite list_ascii_append. simpl list_ascii_of_string.
  rewrite rev_app_distr. simpl rev. rewrite <- app_assoc. simpl app.
  rewrite (dirname_scan_component _ _ Hne Hall).
  rewrite length_rev.
  destruct ptail as [|c1 ptail].
  - simpl. destruct (Ascii.eqb_spec c0 sep) as [-> | Hc]; simpl.
    + reflexivity.
    + destruct (Ascii.eqb_spec c0 "/"); [contradiction | reflexivity].
  - replace (Ascii.eqb c0 sep && Nat.eqb (List.length (list_ascii_of_string (String c1 ptail))) 0)
      with false by (simpl; now rewrite andb_false_r).
    rewrite rev_involutive, string_of_list_ascii_of_string.
    simpl. destruct (Ascii.eqb c0 "/"); reflexivity.
Qed.

Lemma trim_start_proper (names : list string) :
  Forall (fun p => proper_name p = true) names -> trim_start names = names.
Proof.
  destruct 1 as [|p names Hp _]; [reflexivity |].
  apply proper_name_spec in Hp as (Hne & _).
  simpl. apply String.eqb_neq in Hne. now rewrite Hne.
Qed.

(** Splitting the joined components of a resolved path gives them back. *)
Lemma parts_roundtrip (names : list string) :
  Forall (fun p => proper_name p = true) names ->
  trim (Js.split sep (Js.join "/" names)) = names.
Proof.
  intros H. destruct names as [|p names]; [reflexivity |].
  rewrite split_join by (auto; congruence).
  unfold trim. rewrite (trim_start_proper _ H).
  rewrite trim_start_proper by now apply Forall_rev.
  apply rev_involutive.
Qed.

Lemma samePartsLength_prefix (a r : list string) :
  samePartsLength a (a ++ r) = List.length a.
Proof.
  induction a as [|x a IH]; simpl; [now destruct r |].
  now rewrite String.eqb_refl, IH.
Qed.

(** [path.relative] from a location to a location beneath it. *)
Lemma relative_beneath (cwd from to : string) (base below : list string) :
  Forall (fun p => proper_name p = true) base ->
  Forall (fun p => proper_name p = true) below ->
  resolve cwd [from] = "/" +:+ Js.join "/" base ->
  resolve cwd [to] = "/" +:+ Js.join "/" (base ++ below) ->
  relative cwd from to = Js.join "/" below.
Proof.
  intros Hb Hr Hfrom Hto. unfold relative. rewrite Hfrom, Hto.
  change (Js.substr 1 ("/" +:+ Js.join "/" base)) with (Js.join "/" base).
  change (Js.substr 1 ("/" +:+ Js.join "/" (base ++ below)))
    with (Js.join "/" (base ++ below)).
  rewrite (parts_roundtrip base Hb).
  rewrite parts_roundtrip by (apply Forall_app; auto).
  rewrite samePartsLength_prefix, Nat.sub_diag, drop_app_length.
  reflexivity.
Qed.


Lemma dirname_scan_skip (seps units : list ascii) :
  Forall (fun c => Ascii.eqb c sep = true) seps ->
  dirname_scan (seps ++ units) true = dirname_scan units true.
Proof.
  induction 1 as [|c seps Hc _ IH]; [reflexivity |].
  simpl. now rewrite Hc.
Qed.

Lemma slashes_units (n : nat) :
  Forall (fun c => Ascii.eqb c sep = true) (list_ascii_of_string (slashes n)).
Proof. induction n; simpl; constructor; auto. Qed.

(** [path.dirname] skips trailing slashes. *)
Lemma dirname_slashes (root : string) (n : nat) :
  root <> "" -> dirname (root +:+ slashes n) = dirname root.
Proof.
  destruct root as [|c0 tail]; [congruence |]. intros _.
  change (String c0 tail +:+ slashes n) with (String c0 (tail +:+ slashes n)).
  unfold dirname. rewrite list_ascii_append, rev_app_distr.
  rewrite dirname_scan_skip; [reflexivity |].
  apply Forall_rev, slashes_units.
Qed.

Lemma stack_only_slashes (n : nat) (res : list string) :
  stack (slashes n) res = res.
Proof.
  induction n as [|n IH]; [apply stack_empty |].
  change (slashes (S n)) with ("" +:+ String sep (slashes n)).
  now rewrite stack_append, stack_empty.
Qed.

Lemma stack_slashes (a : string) (n : nat) (res : list string) :
  stack (a +:+ slashes n) res = stack a res.
Proof.
  destruct n as [|n]; [now rewrite append_nil_r |].
  change (slashes (S n)) with (String sep (slashes n)).
  now rewrite stack_append, stack_only_slashes.
Qed.

Lemma anchor_slashes (cwd root : string) (n : nat) :
  root <> "" ->
  anchor cwd (root +:+ slashes n) = anchor cwd root +:+ slashes n.
Proof.
  intros Hne. unfold anchor. rewrite isAbsolute_append by exact Hne.
  destruct (isAbsolute root); [reflexivity |].
  change (String sep (root +:+ slashes n))
    with (String sep "" +:+ (root +:+ slashes n)).
  change (String sep root) with (String sep "" +:+ root).
  now rewrite <- !append_assoc.
Qed.

End EntryNames.

Module EntryNameFacts.

Import Path PathFacts ResolveFacts EntryNames.

Lemma join_not_absolute (p : string) (names : list string) :
  proper_name p = true -> isAbsolute (Js.join "/" (p :: names)) = false.
Proof.
  intros H. pose proof (proper_not_absolute p H) as Hrel.
  apply proper_name_spec in H as (Hne & _).
  destruct names as [|q names]; [exact Hrel |].
  rewrite join_cons, isAbsolute_append; auto.
Qed.

Lemma anchor_child (cwd parent name : string) :
  parent <> "" ->
  anchor cwd (parent +:+ String sep name) = anchor cwd parent +:+ String sep name.
Proof.
  intros Hp. unfold anchor. rewrite isAbsolute_append by exact Hp.
  destruct (isAbsolute parent); [reflexivity |].
  now rewrite append_assoc.
Qed.

(** The directory a scanned root is relative to, and the root itself, as
    lists of components: [base] for [path.dirname(directoryPath)] and
    [base ++ [name]] for [directoryPath]. *)
Lemma root_and_parent_plain (cwd directoryPath name : string) :
  isAbsolute cwd = true ->
  proper_name name = true ->
  directoryPath = name
  \/ (exists parent, directoryPath = parent +:+ String sep name) ->
  exists base,
    Forall (fun p => proper_name p = true) base
    /\ directoryPath <> ""
    /\ resolve cwd [dirname directoryPath] = "/" +:+ Js.join "/" base
    /\ stack (anchor cwd directoryPath) [] = name :: rev base.
Proof.
  intros Hcwd Hname Hshape.
  pose proof (proj1 (proper_name_spec name) Hname) as (Hne & _).
  destruct Hshape as [-> | [parent ->]].
  - exists (rev (stack cwd [])).
    split; [apply Forall_rev, stack_nil_proper |]. split; [exact Hne |].
    rewrite (dirname_name name Hname), rev_involutive.
    split.
    + rewrite resolve_single by (exact Hcwd || discriminate).
      unfold anchor. simpl isAbsolute. cbv iota.
      now rewrite stack_append.
    + unfold anchor. rewrite (proper_not_absolute name Hname).
      now rewrite stack_append, (stack_name _ _ Hname).
  - destruct (String.eqb_spec parent "") as [-> | Hp].
    + exists []. split; [constructor |]. split; [discriminate |].
      change ("" +:+ String sep name) with (String sep name).
      rewrite (dirname_root_child name Hname).
      split; [reflexivity |].
      unfold anchor. simpl isAbsolute. cbv iota.
      change (String sep name) with ("" +:+ String sep name).
      now rewrite stack_append, (stack_name _ _ Hname).
    + exists (rev (stack (anchor cwd parent) [])).
      split; [apply Forall_rev, stack_nil_proper |].
      split; [destruct parent; [congruence | discriminate] |].
      rewrite rev_involutive, (dirname_child parent name Hp Hname).
      split.
      * destruct (String.eqb_spec parent "/") as [-> | Hroot].
        -- reflexivity.
        -- now rewrite resolve_single.
      * now rewrite (anchor_child cwd parent name Hp), stack_append,
          (stack_name _ _ Hname).
Qed.

(** The same for a root written with trailing slashes. *)
Lemma root_and_parent (cwd directoryPath name : string) (n : nat) :
  isAbsolute cwd = true ->
  proper_name name = true ->
  directoryPath = name +:+ slashes n
  \/ (exists parent, directoryPath = parent +:+ String sep name +:+ slashes n) ->
  exists base,
    Forall (fun p => proper_name p = true) base
    /\ directoryPath <> ""
    /\ resolve cwd [dirname directoryPath] = "/" +:+ Js.join "/" base
    /\ stack (anchor cwd directoryPath) [] = name :: rev base.
Proof.
  intros Hcwd Hname Hshape.
  assert (Hroot : exists root,
            directoryPath = root +:+ slashes n
            /\ (root = name \/ exists parent, root = parent +:+ String sep name)).
  { destruct Hshape as [-> | [parent ->]].
    - exists name. auto.
    - exists (parent +:+ String sep name). split; [| eauto].
      change (String sep name +:+ slashes n)
        with (String sep "" +:+ (name +:+ slashes n)).
      change (String sep name) with (String sep "" +:+ name).
      now rewrite <- !append_assoc. }
  destruct Hroot as (root & -> & Hplain).
  destruct (root_and_parent_plain cwd root name Hcwd Hname Hplain)
    as (base & Hbase & Hne & Hfrom & Hstack).
  exists base. split; [exact Hbase |].
  split; [destruct root; [congruence | discriminate] |].
  rewrite (dirname_slashes root n Hne), (anchor_slashes cwd root n Hne),
    stack_slashes.
  auto.
Qed.

(** [path.relative] from the parent of the scanned root to a file found
    below the root. *)
Lemma relative_from_parent (cwd directoryPath name file : string) (n : nat)
    (subs : list string) :
  isAbsolute cwd = true ->
  proper_name name = true ->
  directoryPath = name +:+ slashes n
  \/ (exists parent, directoryPath = parent +:+ String sep name +:+ slashes n) ->
  subs <> [] ->
  Forall (fun s => proper_name s = true) subs ->
  resolve cwd [file] = resolve cwd [directoryPath; Js.join "/" subs] ->
  relative cwd (dirname directoryPath) file = Js.join "/" (name :: subs).
Proof.
  intros Hcwd Hname Hshape Hsubs Hproper Hfile.
  destruct (root_and_parent cwd directoryPath name n Hcwd Hname Hshape)
    as (base & Hbase & Hdne & Hfrom & Hstack).
  apply (relative_beneath cwd _ file base (name :: subs)); auto.
  rewrite Hfile.
  destruct subs as [|s subs]; [congruence |].
  inversion Hproper as [|? ? Hs _]; subst.
  rewrite resolve_pair; auto.
  - rewrite stack_join by exact Hproper. rewrite Hstack.
    rewrite rev_app_distr, rev_involutive. simpl rev.
    rewrite rev_involutive, <- app_assoc. reflexivity.
  - apply join_not_empty. now apply proper_name_spec in Hs.
  - now apply join_not_absolute.
Qed.

Lemma replaceAll_absent (c : ascii) (rep s : string) :
  Js.contains c s = false -> Js.replaceAll c rep s = s.
Proof.
  induction s as [|x s IH]; simpl; [reflexivity |].
  destruct (Ascii.eqb x c); [discriminate |].
  intros H. now rewrite IH.
Qed.

Lemma slash_without_backslash (s : string) :
  Js.contains backslash s = false -> slash s = s.
Proof.
  intros H. unfold slash.
  destruct (isExtendedLengthPath s || hasNonAscii s); [reflexivity |].
  now apply replaceAll_absent.
Qed.

Lemma join_without_backslash (names : list string) :
  Forall (fun s => Js.contains backslash s = false) names ->
  Js.contains backslash (Js.join "/" names) = false.
Proof.
  induction 1 as [|p names Hp Hrest IH]; [reflexivity |].
  destruct names as [|q names]; [exact Hp |].
  rewrite PathFacts.join_cons, contains_append, Hp. simpl.
  exact IH.
Qed.

Lemma startsWith_append (a b c : string) :
  Js.startsWith (a +:+ b) (a +:+ c) = Js.startsWith b c.
Proof.
  induction a as [|x a IH]; simpl; [reflexivity |].
  now rewrite Ascii.eqb_refl.
Qed.

Lemma resolve_absolute_any_cwd (cwd cwd' p : string) :
  isAbsolute p = true -> resolve cwd [p] = resolve cwd' [p].
Proof.
  intros H. pose proof (isAbsolute_not_empty p H) as Hne.
  apply String.eqb_neq in Hne.
  unfold resolve. simpl rev. simpl app. unfold resolve_loop.
  now rewrite Hne, H.
Qed.

Lemma dirname_absolute (p : string) :
  isAbsolute p = true -> isAbsolute (dirname p) = true.
Proof.
  destruct p as [|c0 tail]; [discriminate |]. simpl. intros Hc.
  rewrite Hc.
  destruct (dirname_scan (rev (list_ascii_of_string tail)) true) as [before|];
    [| reflexivity].
  destruct (true && Nat.eqb (List.length before) 0); [reflexivity | exact Hc].
Qed.

Lemma hasNonAscii_append (a b : string) :
  hasNonAscii (a +:+ b) = hasNonAscii a || hasNonAscii b.
Proof.
  induction a as [|c a IH]; [reflexivity |].
  simpl. now rewrite IH, orb_assoc.
Qed.

Lemma replaceAll_append (c : ascii) (rep a b : string) :
  Js.replaceAll c rep (a +:+ b) = Js.replaceAll c rep a +:+ Js.replaceAll c rep b.
Proof.
  induction a as [|x a IH]; [reflexivity |].
  simpl. rewrite IH. destruct (Ascii.eqb x c); [| reflexivity].
  now rewrite append_assoc.
Qed.

Lemma backslash_join_cons (p q : string) (l : list string) :
  Js.join (String backslash "") (p :: q :: l)
  = p +:+ String backslash (Js.join (String backslash "") (q :: l)).
Proof. reflexivity. Qed.

(** A relative path written with backslashes between names that hold
    neither a backslash nor a code unit above [0x80]. *)
Lemma backslash_join (names : list string) :
  Forall (fun s => Js.contains backslash s = false /\ hasNonAscii s = false)
         names ->
  hasNonAscii (Js.join (String backslash "") names) = false
  /\ Js.replaceAll backslash "/" (Js.join (String backslash "") names)
     = Js.join "/" names.
Proof.
  induction 1 as [|p names [Hb Ha] _ [IH1 IH2]]; [split; reflexivity |].
  destruct names as [|q names].
  - split; [exact Ha | now apply replaceAll_absent].
  - rewrite backslash_join_cons, PathFacts.join_cons.
    rewrite hasNonAscii_append, Ha, replaceAll_append,
      (replaceAll_absent _ _ _ Hb).
    change (String backslash (Js.join (String backslash "") (q :: names)))
      with (String backslash "" +:+ Js.join (String backslash "") (q :: names)).
    rewrite hasNonAscii_append, replaceAll_append, IH1, IH2.
    split; reflexivity.
Qed.

Lemma not_extended (p : string) (names : list string) :
  p <> "" -> Js.contains backslash p = false ->
  isExtendedLengthPath (Js.join (String backslash "") (p :: names)) = false.
Proof.
  intros Hne Hb. destruct p as [|c p]; [congruence |].
  assert (Hc : Ascii.eqb backslash c = false).
  { rewrite Ascii.eqb_sym. simpl in Hb.
    destruct (Ascii.eqb c backslash); [discriminate | reflexivity]. }
  assert (Hstart : forall tail,
            isExtendedLengthPath (String c tail) = false).
  { intros tail. unfold isExtendedLengthPath.
    cbn [Js.startsWith]. now rewrite Hc. }
  destruct names as [|q names]; [apply Hstart |].
  rewrite backslash_join_cons. apply Hstart.
Qed.

End EntryNameFacts.

(** C5, as stated, fails.  For the root [/srv/app/.] the file
    [/srv/app/a.txt] is named [a.txt], without the name [app] of the
    scanned directory (the same happens for the root [.] from inside the
    directory).  For a root whose own name starts with a backslash the
    entry name starts with a slash.  And a relative path that a host
    writes with backslashes keeps them when one of its names has a code
    unit above [0x80]: it is not given the name it has when written with
    slashes. *)
Lemma entry_name_may_lack_root_name :
  ~ (forall (env : Env) (directoryPath sub : string),
       Path.isAbsolute (cwd env) = true ->
       Path.isAbsolute directoryPath = true ->
       proper_name sub = true ->
       Js.startsWith (Path.resolved_name (cwd env) directoryPath)
         (entry_name env directoryPath (Path.join [directoryPath; sub]))
       = true)
  /\ ~ (forall (env : Env) (directoryPath sub : string),
          Path.isAbsolute (cwd env) = true ->
          Path.isAbsolute directoryPath = true ->
          proper_name sub = true ->
          Path.isAbsolute
            (entry_name env directoryPath (Path.join [directoryPath; sub]))
          = false)
  /\ ~ (forall names : list string,
          Forall (fun s => proper_name s = true
                           /\ Js.contains Path.backslash s = false) names ->
          Path.slash (Js.join (String Path.backslash "") names)
          = Js.join "/" names).
Proof.
  split; [| split]; intros H.
  - specialize (H example_env "/srv/app/." "a.txt" eq_refl eq_refl eq_refl).
    vm_compute in H. discriminate H.
  - specialize (H example_env "/srv/\app" "a.txt" eq_refl eq_refl eq_refl).
    vm_compute in H. discriminate H.
  - specialize (H ["app"; String "233" ".txt"]).
    assert (Hnames : Forall (fun s => proper_name s = true
                                      /\ Js.contains Path.backslash s = false)
                       ["app"; String "233" ".txt"])
      by (repeat constructor).
    specialize (H Hnames). vm_compute in H. discriminate H.
Qed.

Example entry_names_for_dot_roots :
  Path.join ["/srv/app/."; "a.txt"] = "/srv/app/a.txt"
  /\ Path.resolved_name "/work" "/srv/app/." = "app"
  /\ entry_name example_env "/srv/app/." "/srv/app/a.txt" = "a.txt"
  /\ Path.resolved_name "/work" "." = "work"
  /\ entry_name example_env "." (Path.join ["."; "a.txt"]) = "a.txt"
  /\ entry_name example_env "/srv/\app" "/srv/\app/a.txt" = "/app/a.txt".
Proof. vm_compute. repeat split; reflexivity. Qed.


(** The package [slash] leaves a path with a code unit above [0x80] as
    it is: a backslash in the name of such a file stays in the entry
    name, and a relative path that a host writes with backslashes is not
    brought to the form it has with slashes. *)
Example slash_keeps_backslashes :
  entry_name example_env "/srv/app"
    ("/srv/app/" +:+ String "233" (String Path.backslash "x.txt"))
  = "app/" +:+ String "233" (String Path.backslash "x.txt")
  /\ Path.slash ("app" +:+ String Path.backslash (String "233" ".txt"))
     = "app" +:+ String Path.backslash (String "233" ".txt")
  /\ Path.slash ("app" +:+ String Path.backslash "a.txt") = "app/a.txt".
Proof. vm_compute. repeat split; reflexivity. Qed.

(** C5, amended: the entry name is
    [slash (path.relative (path.dirname directoryPath) file)].  (1) For
    an absolute root and file it depends on nothing else, the working
    directory included.  (2) When the scanned root is given as a proper
    directory name, alone or after a parent path and a slash, with or
    without trailing slashes, the file lies at [subs] below the root,
    and neither the root's name nor [subs] contains a backslash, the
    entry name is the root's name followed by [subs], joined by forward
    slashes: it starts with the root's name and a slash, has no leading
    slash and no backslash.  (3) The separator of the host does not show
    in the name as long as no code unit above [0x80] occurs: a relative
    path written with backslashes between such names is given the name
    it has when written with slashes. *)
Theorem entry_name_keeps_root_name (env : Env) (directoryPath file : string) :
  (forall env' : Env,
     Path.isAbsolute directoryPath = true ->
     Path.isAbsolute file = true ->
     entry_name env' directoryPath file = entry_name env directoryPath file)
  /\ (forall (name : string) (n : nat) (subs : list string),
        Path.isAbsolute (cwd env) = true ->
        proper_name name = true ->
        directoryPath = name +:+ slashes n
        \/ (exists parent, directoryPath = parent +:+ "/" +:+ name +:+ slashes n) ->
        subs <> [] ->
        Forall (fun s => proper_name s = true) subs ->
        Forall (fun s => Js.contains Path.backslash s = false) (name :: subs) ->
        Path.resolve (cwd env) [file]
        = Path.resolve (cwd env) [directoryPath; Js.join "/" subs] ->
        entry_name env directoryPath file = Js.join "/" (name :: subs)
        /\ Js.startsWith (name +:+ "/") (entry_name env directoryPath file)
           = true
        /\ Path.isAbsolute (entry_name env directoryPath file) = false
        /\ Js.contains Path.backslash (entry_name env directoryPath file)
           = false)
  /\ (forall (name : string) (subs : list string),
        name <> "" ->
        Forall (fun s => Js.contains Path.backslash s = false
                         /\ Path.hasNonAscii s = false) (name :: subs) ->
        Path.slash (Js.join (String Path.backslash "") (name :: subs))
        = Js.join "/" (name :: subs)
        /\ (Path.relative (cwd env) (Path.dirname directoryPath) file
            = Js.join "/" (name :: subs) ->
            entry_name env directoryPath file
            = Path.slash (Js.join (String Path.backslash "") (name :: subs)))).
Proof.
  split; [| split].
  - intros env' Hd Hf. unfold entry_name, Path.relative.
    rewrite (EntryNameFacts.resolve_absolute_any_cwd (cwd env') (cwd env) file Hf).
    rewrite (EntryNameFacts.resolve_absolute_any_cwd (cwd env') (cwd env)
               (Path.dirname directoryPath)
               (EntryNameFacts.dirname_absolute directoryPath Hd)).
    reflexivity.
  - intros name n subs Hcwd Hname Hshape Hsubs Hproper Hback Hfile.
    assert (Hrel : Path.relative (cwd env) (Path.dirname directoryPath) file
                   = Js.join "/" (name :: subs))
      by (apply (EntryNameFacts.relative_from_parent _ _ _ _ n); assumption).
    assert (Hclean : Js.contains Path.backslash (Js.join "/" (name :: subs))
                     = false)
      by (apply EntryNameFacts.join_without_backslash; assumption).
    assert (E : entry_name env directoryPath file = Js.join "/" (name :: subs)).
    { unfold entry_name. rewrite Hrel.
      now apply EntryNameFacts.slash_without_backslash. }
    rewrite E. split; [reflexivity |].
    split.
    { destruct subs as [|s subs]; [congruence |].
      rewrite PathFacts.join_cons.
      change (name +:+ String Path.sep (Js.join "/" (s :: subs)))
        with (name +:+ ("/" +:+ Js.join "/" (s :: subs))).
      now rewrite EntryNameFacts.startsWith_append. }
    split; [now apply EntryNameFacts.join_not_absolute | exact Hclean].
  - intros name subs Hne Hall.
    destruct (EntryNameFacts.backslash_join (name :: subs) Hall) as [Hascii Hrep].
    assert (Hname : Js.contains Path.backslash name = false)
      by (inversion Hall as [|? ? [H _] _]; exact H).
    assert (E : Path.slash (Js.join (String Path.backslash "") (name :: subs))
                = Js.join "/" (name :: subs)).
    { unfold Path.slash.
      now rewrite (EntryNameFacts.not_extended name subs Hne Hname), Hascii, Hrep. }
    split; [exact E |].
    intros Hrel. rewrite E. unfold entry_name. rewrite Hrel.
    apply EntryNameFacts.slash_without_backslash,
      EntryNameFacts.join_without_backslash.
    eapply Forall_impl; [exact Hall |]. now intros s [H _].
Qed.

Lemma entry_name_keeps_root_name_witness :
  entry_name example_env "/srv/app//" "/srv/app/sub/b.txt" = "app/sub/b.txt"
  /\ Js.startsWith "app/"
       (entry_name example_env "/srv/app//" "/srv/app/sub/b.txt") = true
  /\ Path.isAbsolute (entry_name example_env "/srv/app//" "/srv/app/sub/b.txt")
     = false
  /\ Js.contains Path.backslash
       (entry_name example_env "/srv/app//" "/srv/app/sub/b.txt") = false.
Proof.
  apply (proj1 (proj2 (entry_name_keeps_root_name example_env "/srv/app//"
                         "/srv/app/sub/b.txt"))
           "app" 2 ["sub"; "b.txt"]).
  - reflexivity.
  - reflexivity.
  - right. exists "/srv". reflexivity.
  - discriminate.
  - repeat constructor.
  - repeat constructor.
  - vm_compute. reflexivity.
Defined.


(** ** URL encoding *)

Module UriFacts.

Import Uri.

Lemma hexDigit_unreserved (n : nat) : unreserved (hexDigit n) = true.
Proof. do 16 (destruct n as [|n]; [reflexivity |]). reflexivity. Qed.

Lemma unreserved_differs (c d : ascii) :
  unreserved c = false -> unreserved d = true -> Ascii.eqb d c = false.
Proof.
  intros Hc Hd. destruct (Ascii.eqb_spec d c) as [-> |]; [congruence | reflexivity].
Qed.

Lemma count_cons (c a : ascii) (s : string) :
  Js.count c (String a s) = (if Ascii.eqb a c then 1 else 0) + Js.count c s.
Proof. reflexivity. Qed.

Lemma count_percent (c : ascii) (b : nat) :
  unreserved c = false -> c <> "%"%char -> Js.count c (percent b) = 0.
Proof.
  intros Hc Hp. unfold percent. rewrite !count_cons.
  rewrite !(unreserved_differs c _ Hc (hexDigit_unreserved _)).
  destruct (Ascii.eqb_spec "%" c) as [E |]; [congruence | reflexivity].
Qed.

Lemma count_encode_unit (c d : ascii) :
  unreserved c = false -> c <> "%"%char -> Js.count c (encode_unit d) = 0.
Proof.
  intros Hc Hp. unfold encode_unit.
  destruct (unreserved d) eqn:Hd.
  - rewrite count_cons. now rewrite (unreserved_differs c d Hc Hd).
  - destruct (Nat.ltb (nat_of_ascii d) 128).
    + now apply count_percent.
    + rewrite count_append, !count_percent; auto.
Qed.

Lemma count_encodeURIComponent (c : ascii) (s : string) :
  unreserved c = false -> c <> "%"%char ->
  Js.count c (encodeURIComponent s) = 0.
Proof.
  intros Hc Hp. induction s as [|d s IH]; [reflexivity |].
  simpl. now rewrite count_append, IH, count_encode_unit.
Qed.

Lemma encodeURIComponent_append (a b : string) :
  encodeURIComponent (a +:+ b) = encodeURIComponent a +:+ encodeURIComponent b.
Proof.
  induction a as [|c a IH]; [reflexivity |].
  simpl. now rewrite IH, append_assoc.
Qed.

Lemma encodeURIComponent_unreserved (s : string) :
  all_unreserved s = true -> encodeURIComponent s = s.
Proof.
  induction s as [|c s IH]; [reflexivity |]. simpl.
  intros H. apply andb_prop in H as [Hc Hs].
  unfold encode_unit. rewrite Hc, (IH Hs). reflexivity.
Qed.

Lemma all_unreserved_append (a b : string) :
  all_unreserved (a +:+ b) = all_unreserved a && all_unreserved b.
Proof.
  induction a as [|c a IH]; [reflexivity |].
  simpl. now rewrite IH, andb_assoc.
Qed.

Lemma all_unreserved_no_slash (s : string) :
  all_unreserved s = true -> Js.contains "/" s = false.
Proof.
  induction s as [|c s IH]; [reflexivity |]. simpl.
  intros H. apply andb_prop in H as [Hc Hs].
  destruct (Ascii.eqb_spec c "/") as [-> |]; [discriminate | auto].
Qed.

(** *** The encoding is a prefix code *)

Lemma hexDigit_inj (i j : nat) :
  i < 16 -> j < 16 -> hexDigit i = hexDigit j -> i = j.
Proof.
  intros Hi Hj H.
  do 16 (destruct i as [|i];
         [do 16 (destruct j as [|j];
                 [first [reflexivity | vm_compute in H; discriminate H] |]);
          lia |]).
  lia.
Qed.

Lemma percent_append (b : nat) (r : string) :
  percent b +:+ r
  = String "%" (String (hexDigit (b / 16)) (String (hexDigit (b mod 16)) r)).
Proof. reflexivity. Qed.

Lemma percent_inj (b b' : nat) (r r' : string) :
  b < 256 -> b' < 256 ->
  percent b +:+ r = percent b' +:+ r' -> b = b' /\ r = r'.
Proof.
  intros Hb Hb' H. rewrite !percent_append in H.
  assert (Hhi : b / 16 < 16) by (apply Nat.Div0.div_lt_upper_bound; lia).
  assert (Hhi' : b' / 16 < 16) by (apply Nat.Div0.div_lt_upper_bound; lia).
  assert (Hlo : b mod 16 < 16) by (apply Nat.mod_upper_bound; lia).
  assert (Hlo' : b' mod 16 < 16) by (apply Nat.mod_upper_bound; lia).
  pose proof (Nat.div_mod_eq b 16) as E. pose proof (Nat.div_mod_eq b' 16) as E'.
  set (hi := b / 16) in *. set (lo := b mod 16) in *.
  set (hi' := b' / 16) in *. set (lo' := b' mod 16) in *.
  clearbody hi lo hi' lo'.
  injection H as H1 H2 Hr.
  apply hexDigit_inj in H1; [| assumption | assumption].
  apply hexDigit_inj in H2; [| assumption | assumption].
  split; [lia | exact Hr].
Qed.

Lemma nat_of_ascii_inj (c c' : ascii) :
  nat_of_ascii c = nat_of_ascii c' -> c = c'.
Proof.
  intros H. rewrite <- (ascii_nat_embedding c), <- (ascii_nat_embedding c').
  now rewrite H.
Qed.

Lemma encode_unit_starts (c : ascii) :
  exists x rest, encode_unit c = String x rest
                 /\ (unreserved c = true -> x = c)
                 /\ (unreserved c = false -> x = "%"%char).
Proof.
  unfold encode_unit. destruct (unreserved c).
  - exists c, "". split; [reflexivity | split; [reflexivity | discriminate]].
  - destruct (Nat.ltb (nat_of_ascii c) 128); eexists _, _;
      (split; [reflexivity | split; [discriminate | reflexivity]]).
Qed.

Lemma encode_unit_inj (c c' : ascii) (r r' : string) :
  encode_unit c +:+ r = encode_unit c' +:+ r' -> c = c' /\ r = r'.
Proof.
  pose proof (nat_ascii_bounded c) as Hb.
  pose proof (nat_ascii_bounded c') as Hb'.
  unfold encode_unit.
  destruct (unreserved c) eqn:Hc, (unreserved c') eqn:Hc'.
  - simpl. intros H. injection H as -> ->. auto.
  - destruct (Nat.ltb (nat_of_ascii c') 128); simpl; intros H;
      injection H as -> _; discriminate.
  - destruct (Nat.ltb (nat_of_ascii c) 128); simpl; intros H;
      injection H as <- _; discriminate.
  - destruct (Nat.ltb_spec (nat_of_ascii c) 128) as [Hn | Hn],
             (Nat.ltb_spec (nat_of_ascii c') 128) as [Hn' | Hn'];
      rewrite ?append_assoc; intros H.
    + apply percent_inj in H as [E ->]; [| lia | lia].
      split; [now apply nat_of_ascii_inj | reflexivity].
    + apply percent_inj in H as [E _].
      * pose proof (Nat.Div0.div_le_upper_bound (nat_of_ascii c') 64 3). lia.
      * lia.
      * assert (nat_of_ascii c' / 64 < 4)
          by (apply Nat.Div0.div_lt_upper_bound; lia). lia.
    + apply percent_inj in H as [E _].
      * lia.
      * assert (nat_of_ascii c / 64 < 4)
          by (apply Nat.Div0.div_lt_upper_bound; lia). lia.
      * lia.
    + assert (nat_of_ascii c / 64 < 4)
        by (apply Nat.Div0.div_lt_upper_bound; lia).
      assert (nat_of_ascii c' / 64 < 4)
        by (apply Nat.Div0.div_lt_upper_bound; lia).
      pose proof (Nat.mod_upper_bound (nat_of_ascii c) 64).
      pose proof (Nat.mod_upper_bound (nat_of_ascii c') 64).
      apply percent_inj in H as [E1 H]; [| lia | lia].
      apply percent_inj in H as [E2 ->]; [| lia | lia].
      split; [| reflexivity]. apply nat_of_ascii_inj.
      rewrite (Nat.div_mod_eq (nat_of_ascii c) 64),
              (Nat.div_mod_eq (nat_of_ascii c') 64). lia.
Qed.

Lemma encode_unit_length (c : ascii) : 1 <= String.length (encode_unit c).
Proof.
  destruct (encode_unit_starts c) as (x & rest & -> & _). simpl. lia.
Qed.

(** Two encoded values followed by the same text are equal only if the
    values are. *)
Lemma encodeURIComponent_cancel (q : string) (s : string) :
  forall s',
  encodeURIComponent s +:+ q = encodeURIComponent s' +:+ q -> s = s'.
Proof.
  induction s as [|c s IH]; intros [|c' s'] H; simpl in H.
  - reflexivity.
  - apply (f_equal String.length) in H.
    rewrite !length_append in H. pose proof (encode_unit_length c'). lia.
  - apply (f_equal String.length) in H.
    rewrite !length_append in H. pose proof (encode_unit_length c). lia.
  - rewrite !append_assoc in H. apply encode_unit_inj in H as [-> H].
    now rewrite (IH s' H).
Qed.

(** Two encoded values followed by a slash are equal only if the values
    and what follows the slash are. *)
Lemma encodeURIComponent_until_slash (s : string) :
  forall s' r r',
  encodeURIComponent s +:+ String "/" r = encodeURIComponent s' +:+ String "/" r' ->
  s = s' /\ r = r'.
Proof.
  assert (Hfirst : forall c rest r,
            String "/" r <> encode_unit c +:+ rest).
  { intros c rest r H.
    destruct (encode_unit_starts c) as (x & tl & E & Ht & Hf).
    rewrite E in H. simpl in H. injection H as Hx _.
    destruct (unreserved c) eqn:Hc.
    - rewrite (Ht eq_refl) in Hx. subst c. discriminate.
    - rewrite (Hf eq_refl) in Hx. discriminate. }
  induction s as [|c s IH]; intros [|c' s'] r r' H; simpl in H.
  - injection H as ->. auto.
  - rewrite append_assoc in H. now apply Hfirst in H.
  - rewrite append_assoc in H. symmetry in H. now apply Hfirst in H.
  - rewrite !append_assoc in H. apply encode_unit_inj in H as [-> H].
    apply IH in H as [-> ->]. auto.
Qed.

End UriFacts.

(** ** Request URLs *)

Lemma count_urlEncode (c : ascii) (strings : list string) :
  Uri.unreserved c = false -> c <> "%"%char ->
  forall values,
  Js.count c (urlEncode strings values) = list_sum (map (Js.count c) strings).
Proof.
  intros Hc Hp. induction strings as [|s strings IH]; intros values;
    [reflexivity |].
  destruct values as [|v values]; simpl.
  - now rewrite count_append, IH.
  - now rewrite !count_append, IH, UriFacts.count_encodeURIComponent.
Qed.

Lemma appNameParam_first_slash (pre post : string) :
  Js.contains "/" pre = false ->
  appNameParam (pre +:+ "/" +:+ post) = pre +:+ "~~" +:+ post.
Proof. intros H. exact (replace_first "/" "~~" pre post H). Qed.

Lemma urlEncode_one (prefix value : string) :
  urlEncode [prefix; ""] [value] = prefix +:+ Uri.encodeURIComponent value.
Proof. simpl. now rewrite append_nil_r. Qed.

(** X1: a substituted value never adds a reserved character to a URL:
    for a character [c] that is neither unreserved nor [%] (a slash, [?],
    [#], [&], a space), the URL built by [urlEncode] has as many [c] as
    its template strings have. *)
Theorem urlEncode_values_add_no_reserved (c : ascii)
    (strings values : list string) :
  Uri.unreserved c = false -> c <> "%"%char ->
  Js.count c (urlEncode strings values) = list_sum (map (Js.count c) strings).
Proof. intros Hc Hp. now apply count_urlEncode. Qed.

Lemma urlEncode_values_add_no_reserved_witness :
  Js.count "/" (getDeployment_url "org/app/x" "Prod/../1") = 4.
Proof.
  apply (urlEncode_values_add_no_reserved "/"
           ["/apps/"; "/deployments/"; ""]
           [appNameParam "org/app/x"; "Prod/../1"]);
    [reflexivity | discriminate].
Defined.

(** X2: the URL of a deployment determines the deployment name and the
    encoded app name: two calls build the same URL exactly when the
    deployment names are equal and the app names have the same
    [appNameParam]. *)
Theorem getDeployment_url_determines_names (appName deploymentName
    appName' deploymentName' : string) :
  getDeployment_url appName deploymentName
  = getDeployment_url appName' deploymentName'
  <-> appNameParam appName = appNameParam appName'
      /\ deploymentName = deploymentName'.
Proof.
  split.
  - unfold getDeployment_url. simpl. intros H.
    injection H as H.
    apply UriFacts.encodeURIComponent_until_slash in H as [Ha H].
    injection H as H.
    apply UriFacts.encodeURIComponent_cancel in H.
    auto.
  - intros [Ha ->]. unfold getDeployment_url. now rewrite Ha.
Qed.

(** X3: for an owner and an app name made of unreserved characters, the
    app [owner/app] is addressed by the URL [/apps/owner~~app]. *)
Theorem getApp_url_of_owner_and_app (owner app : string) :
  Uri.all_unreserved owner = true ->
  Uri.all_unreserved app = true ->
  getApp_url (owner +:+ "/" +:+ app) = "/apps/" +:+ owner +:+ "~~" +:+ app.
Proof.
  intros Ho Ha. unfold getApp_url.
  rewrite (appNameParam_first_slash owner app
             (UriFacts.all_unreserved_no_slash owner Ho)).
  simpl urlEncode.
  rewrite UriFacts.encodeURIComponent_unreserved.
  - now rewrite append_nil_r.
  - rewrite UriFacts.all_unreserved_append, Ho. simpl. exact Ha.
Qed.

Lemma getApp_url_of_owner_and_app_witness :
  getApp_url "contoso/MyApp-iOS" = "/apps/contoso~~MyApp-iOS".
Proof.
  apply (getApp_url_of_owner_and_app "contoso" "MyApp-iOS"); reflexivity.
Defined.

(** X4: only the first slash of an app name becomes [~~] in the URL; a
    later slash is sent percent-encoded as [%2F]. *)
Theorem getApp_url_later_slash_is_escaped (pre mid post : string) :
  Js.contains "/" pre = false ->
  getApp_url (pre +:+ "/" +:+ mid +:+ "/" +:+ post)
  = "/apps/" +:+ Uri.encodeURIComponent pre +:+ "~~"
    +:+ Uri.encodeURIComponent mid +:+ "%2F" +:+ Uri.encodeURIComponent post.
Proof.
  intros Hpre. unfold getApp_url.
  rewrite (appNameParam_first_slash pre (mid +:+ "/" +:+ post) Hpre).
  rewrite urlEncode_one, !UriFacts.encodeURIComponent_append.
  reflexivity.
Qed.

Lemma getApp_url_later_slash_is_escaped_witness :
  getApp_url "org/team/app"
  = "/apps/" +:+ Uri.encodeURIComponent "org" +:+ "~~"
    +:+ Uri.encodeURIComponent "team" +:+ "%2F" +:+ Uri.encodeURIComponent "app".
Proof.
  apply (getApp_url_later_slash_is_escaped "org" "team" "app"). reflexivity.
Defined.

(** X5: [appNameParam] is not injective: an app name with [~~] where
    another has its only slash gets the same parameter, and so the same
    URL, although the names differ. *)
Theorem appNameParam_confuses_slash_and_tildes (pre post : string) :
  Js.contains "/" pre = false ->
  Js.contains "/" post = false ->
  pre +:+ "/" +:+ post <> pre +:+ "~~" +:+ post
  /\ appNameParam (pre +:+ "/" +:+ post) = appNameParam (pre +:+ "~~" +:+ post)
  /\ getApp_url (pre +:+ "/" +:+ post) = getApp_url (pre +:+ "~~" +:+ post).
Proof.
  intros Hpre Hpost.
  assert (E : appNameParam (pre +:+ "/" +:+ post)
              = appNameParam (pre +:+ "~~" +:+ post)).
  { rewrite (appNameParam_first_slash pre post Hpre).
    unfold appNameParam. rewrite replace_absent; [reflexivity |].
    rewrite !contains_append, Hpre, Hpost. reflexivity. }
  split; [| split; [exact E | unfold getApp_url; now rewrite E]].
  intros H. apply (inj (String.app pre)) in H. discriminate H.
Qed.

Lemma appNameParam_confuses_slash_and_tildes_witness :
  "org/app" <> "org~~app"
  /\ appNameParam "org/app" = appNameParam "org~~app"
  /\ getApp_url "org/app" = getApp_url "org~~app".
Proof.
  apply (appNameParam_confuses_slash_and_tildes "org" "app"); reflexivity.
Defined.

Lemma rollback_shape (a eA b eD c eT : string) :
  a +:+ eA +:+ b +:+ eD +:+ c +:+ eT +:+ "" +:+ ""
  = (a +:+ eA +:+ b +:+ eD +:+ "" +:+ "") +:+ c +:+ eT.
Proof.
  change ("" +:+ "") with "". rewrite !append_nil_r, !append_assoc.
  reflexivity.
Qed.

(** X6: [rollback] without target release, or with the empty string,
    requests the deployment's [rollback/] URL with nothing after the last
    slash; a non-empty target release follows it, encoded. *)
Theorem rollback_url_of_target (appName deploymentName : string) :
  rollback_url appName deploymentName None
  = getDeployment_url appName deploymentName +:+ "/rollback/"
  /\ rollback_url appName deploymentName (Some "")
     = getDeployment_url appName deploymentName +:+ "/rollback/"
  /\ forall (c : ascii) (rest : string),
       rollback_url appName deploymentName (Some (String c rest))
       = getDeployment_url appName deploymentName +:+ "/rollback/"
         +:+ Uri.encodeURIComponent (String c rest).
Proof.
  unfold rollback_url, getDeployment_url. cbn [urlEncode].
  repeat split; intros.
  - exact (rollback_shape _ _ _ _ _ "").
  - exact (rollback_shape _ _ _ _ _ "").
  - exact (rollback_shape _ _ _ _ _ _).
Qed.

(** ** Sessions *)

Module SessionFacts.

Import JsObject.

Lemma getSessions_then_unfold (now : Z) (accessKeys : list ServerAccessKey) :
  getSessions_then now accessKeys
  = map (fun machineName => get machineName (sessionMap_after now accessKeys []))
        (keys (sessionMap_after now accessKeys [])).
Proof. reflexivity. Qed.

Lemma sessionMap_after_app (now : Z) (l1 l2 : list ServerAccessKey)
    (obj : list (string * Session)) :
  sessionMap_after now (l1 ++ l2) obj
  = sessionMap_after now l2 (sessionMap_after now l1 obj).
Proof. unfold sessionMap_after. apply fold_left_app. Qed.

Lemma sessionMap_after_cons (now : Z) (key : ServerAccessKey)
    (l : list ServerAccessKey) (obj : list (string * Session)) :
  sessionMap_after now (key :: l) obj
  = sessionMap_after now l
      (if isSession key && (now <? expires key)%Z
       then set (createdBy key) (session_of key) obj else obj).
Proof. reflexivity. Qed.

Lemma live_spec (now : Z) (key : ServerAccessKey) :
  isSession key && (now <? expires key)%Z = true <-> live now key.
Proof. unfold live. rewrite andb_true_iff, Z.ltb_lt. tauto. Qed.

Section Objects.

Context {V : Type}.

Lemma get_update (k key : string) (v : V) (obj : list (string * V)) :
  get k (update key v obj) = if String.eqb key k then Some v else get k obj.
Proof.
  induction obj as [|[k0 x] rest IH]; simpl.
  - reflexivity.
  - destruct (String.eqb_spec k0 key) as [-> | Hne]; simpl.
    + destruct (String.eqb key k); reflexivity.
    + rewrite IH. destruct (String.eqb_spec k0 k) as [-> | Hne'].
      * apply String.eqb_neq in Hne. rewrite String.eqb_sym in Hne.
        now rewrite Hne.
      * reflexivity.
Qed.

Lemma get_is_Some (k : string) (obj : list (string * V)) :
  is_Some (get k obj) <-> k ∈ map fst obj.
Proof.
  induction obj as [|[k0 x] rest IH]; simpl.
  - split; [intros [? H]; discriminate | intros H; inversion H].
  - rewrite elem_of_cons. destruct (String.eqb_spec k0 k) as [-> | Hne].
    + split; eauto.
    + rewrite IH. split; [auto | intros [E | H]; [congruence | exact H]].
Qed.

Lemma update_NoDup (key : string) (v : V) (obj : list (string * V)) :
  NoDup (map fst obj) -> NoDup (map fst (update key v obj)).
Proof.
  induction obj as [|[k0 x] rest IH]; simpl; intros H.
  - apply NoDup_singleton.
  - apply NoDup_cons in H as [Hk0 Hrest].
    destruct (String.eqb_spec k0 key) as [-> | Hne]; simpl.
    + apply NoDup_cons. auto.
    + apply NoDup_cons. split; [| auto].
      intros Hin. apply get_is_Some in Hin. rewrite get_update in Hin.
      apply Hk0, get_is_Some.
      destruct (String.eqb_spec key k0) as [E | _]; [congruence | exact Hin].
Qed.

(** [Object.keys] lists every own key once. *)
Lemma keys_Permutation (obj : list (string * V)) :
  keys obj ≡ₚ map fst obj.
Proof.
  unfold keys. rewrite merge_sort_Permutation.
  induction (map fst obj) as [|k own IH]; [reflexivity |].
  simpl. destruct (array_index k) as [n|]; simpl.
  - now rewrite IH.
  - rewrite <- Permutation_middle. now rewrite IH.
Qed.

End Objects.

(** What holds of the session map at every point of the loop. *)
Lemma sessionMap_invariant (now : Z) (accessKeys : list ServerAccessKey) :
  forall seen obj,
  (forall key, key ∈ seen -> key ∈ accessKeys) ->
  NoDup (map fst obj) ->
  (forall k s, get k obj = Some s ->
     k <> "__proto__"
     /\ exists key, key ∈ accessKeys /\ live now key
                    /\ s = session_of key /\ createdBy key = k) ->
  NoDup (map fst (sessionMap_after now seen obj))
  /\ forall k s, get k (sessionMap_after now seen obj) = Some s ->
       k <> "__proto__"
       /\ exists key, key ∈ accessKeys /\ live now key
                      /\ s = session_of key /\ createdBy key = k.
Proof.
  induction seen as [|key seen IH]; intros obj Hsub Hnd Hinv.
  - split; [exact Hnd | exact Hinv].
  - rewrite sessionMap_after_cons.
    apply IH; [intros k Hk; apply Hsub; apply elem_of_cons; now right | |].
    + destruct (isSession key && (now <? expires key)%Z); [| exact Hnd].
      unfold set. destruct (String.eqb (createdBy key) "__proto__");
        [exact Hnd | now apply update_NoDup].
    + destruct (isSession key && (now <? expires key)%Z) eqn:Hlive;
        [| exact Hinv].
      unfold set.
      destruct (String.eqb_spec (createdBy key) "__proto__") as [E | Hne];
        [exact Hinv |].
      intros k s. rewrite get_update.
      destruct (String.eqb_spec (createdBy key) k) as [<- | Hk].
      * intros [= <-]. split; [exact Hne |].
        exists key. split; [apply Hsub, elem_of_cons; now left |].
        split; [now apply live_spec | auto].
      * apply Hinv.
Qed.

Lemma sessionMap_facts (now : Z) (accessKeys : list ServerAccessKey) :
  NoDup (map fst (sessionMap_after now accessKeys []))
  /\ forall k s, get k (sessionMap_after now accessKeys []) = Some s ->
       k <> "__proto__"
       /\ exists key, key ∈ accessKeys /\ live now key
                      /\ s = session_of key /\ createdBy key = k.
Proof.
  apply (sessionMap_invariant now accessKeys accessKeys []); [auto | |].
  - apply NoDup_nil_2.
  - intros k s H. discriminate H.
Qed.

(** Keys visited later that are not live sessions of machine [k] leave
    the entry of [k] alone. *)
Lemma get_after_others (now : Z) (k : string) (after : list ServerAccessKey) :
  forall obj,
  Forall (fun key => ~ (live now key /\ createdBy key = k)) after ->
  get k (sessionMap_after now after obj) = get k obj.
Proof.
  induction after as [|key after IH]; intros obj H; [reflexivity |].
  inversion H as [|? ? Hkey Hrest]; subst.
  rewrite sessionMap_after_cons, (IH _ Hrest).
  destruct (isSession key && (now <? expires key)%Z) eqn:Hlive; [| reflexivity].
  unfold set. destruct (String.eqb (createdBy key) "__proto__"); [reflexivity |].
  rewrite get_update.
  destruct (String.eqb_spec (createdBy key) k) as [E | Hne]; [| reflexivity].
  exfalso. apply Hkey. split; [now apply live_spec | exact E].
Qed.

(** The sessions listed are the entries of the session map, key by key. *)
Lemma sessions_of_keys (obj : list (string * Session)) (l : list string) :
  (forall k, k ∈ l -> k ∈ map fst obj) ->
  (forall k s, get k obj = Some s -> machineName s = k) ->
  exists sessions,
    map (fun machineName => get machineName obj) l = Some <$> sessions
    /\ machineName <$> sessions = l.
Proof.
  intros Hsub Hname. induction l as [|k l IH].
  - exists []. auto.
  - destruct IH as (sessions & E & En);
      [intros k' Hk'; apply Hsub; apply elem_of_cons; now right |].
    destruct (proj2 (get_is_Some k obj)) as [s Hs];
      [apply Hsub, elem_of_cons; now left |].
    exists (s :: sessions). split.
    + simpl. now rewrite Hs, E.
    + now rewrite fmap_cons, En, (Hname k s Hs).
Qed.

End SessionFacts.

(** X7: [getSessions] returns one defined session per machine name: no
    entry is [undefined] and no two sessions name the same machine. *)
Theorem getSessions_one_session_per_machine (now : Z)
    (accessKeys : list ServerAccessKey) :
  exists sessions,
    getSessions_then now accessKeys = Some <$> sessions
    /\ NoDup (machineName <$> sessions).
Proof.
  destruct (SessionFacts.sessionMap_facts now accessKeys) as [Hnd Hinv].
  destruct (SessionFacts.sessions_of_keys
              (sessionMap_after now accessKeys [])
              (JsObject.keys (sessionMap_after now accessKeys [])))
    as (sessions & E & En).
  - intros k Hk. now rewrite <- (SessionFacts.keys_Permutation _).
  - intros k s Hs. destruct (Hinv k s Hs) as (_ & key & _ & _ & -> & Hk).
    exact Hk.
  - exists sessions. split; [exact E |].
    rewrite En, SessionFacts.keys_Permutation. exact Hnd.
Qed.

(** X8: every session [getSessions] returns comes from a server key that
    is a session and expires after [now]: it carries that key's creator
    as machine name and its creation time as login time.  Keys that are
    not sessions, or have expired, contribute nothing. *)
Theorem getSessions_only_live_sessions (now : Z)
    (accessKeys : list ServerAccessKey) (s : Session) :
  Some s ∈ getSessions_then now accessKeys ->
  exists key,
    key ∈ accessKeys /\ isSession key = true /\ (now < expires key)%Z
    /\ machineName s = createdBy key /\ loggedInTime s = createdTime key.
Proof.
  rewrite SessionFacts.getSessions_then_unfold. intros H.
  apply list_elem_of_fmap in H as (k & Hs & _). symmetry in Hs.
  destruct (SessionFacts.sessionMap_facts now accessKeys) as [_ Hinv].
  destruct (Hinv k s Hs) as (_ & key & Hin & [Hsess Hexp] & -> & _).
  exists key. auto.
Qed.

Lemma getSessions_only_live_sessions_witness :
  exists key,
    key ∈ [ {| isSession := true; expires := 50; createdBy := "old";
               createdTime := 1 |};
            {| isSession := true; expires := 200; createdBy := "laptop";
               createdTime := 2 |} ]
    /\ isSession key = true /\ (100 < expires key)%Z
    /\ machineName {| loggedInTime := 2; machineName := "laptop" |}
       = createdBy key
    /\ loggedInTime {| loggedInTime := 2; machineName := "laptop" |}
       = createdTime key.
Proof.
  apply (getSessions_only_live_sessions 100).
  vm_compute. apply list_elem_of_here.
Defined.

(** X9: the last live session key of a machine wins: when a key is a
    session, expires after [now], is not created by ["__proto__"], and no
    later key is a live session of the same machine, the session made of
    that key is among the sessions returned. *)
Theorem getSessions_last_key_wins (now : Z)
    (before after : list ServerAccessKey) (key : ServerAccessKey) :
  isSession key = true ->
  (now < expires key)%Z ->
  createdBy key <> "__proto__" ->
  Forall (fun later => ~ (live now later /\ createdBy later = createdBy key))
         after ->
  Some {| loggedInTime := createdTime key; machineName := createdBy key |}
    ∈ getSessions_then now (before ++ key :: after).
Proof.
  intros Hsess Hexp Hproto Hafter.
  rewrite SessionFacts.getSessions_then_unfold.
  set (obj := sessionMap_after now (before ++ key :: after) []).
  assert (Hget : JsObject.get (createdBy key) obj = Some (session_of key)).
  { subst obj. rewrite SessionFacts.sessionMap_after_app,
      SessionFacts.sessionMap_after_cons,
      (SessionFacts.get_after_others now _ after _ Hafter).
    rewrite (proj2 (SessionFacts.live_spec now key) (conj Hsess Hexp)).
    unfold JsObject.set. apply String.eqb_neq in Hproto. rewrite Hproto.
    now rewrite SessionFacts.get_update, String.eqb_refl. }
  apply list_elem_of_fmap. exists (createdBy key). split; [now rewrite Hget |].
  rewrite SessionFacts.keys_Permutation.
  apply SessionFacts.get_is_Some. rewrite Hget. eauto.
Qed.

(** X10: a machine named ["__proto__"] is never listed, whatever session
    keys it has: the assignment to that key of the session map creates no
    property. *)
Theorem getSessions_never_lists_proto (now : Z)
    (accessKeys : list ServerAccessKey) (s : Session) :
  Some s ∈ getSessions_then now accessKeys ->
  machineName s <> "__proto__".
Proof.
  rewrite SessionFacts.getSessions_then_unfold. intros H.
  apply list_elem_of_fmap in H as (k & Hs & _). symmetry in Hs.
  destruct (SessionFacts.sessionMap_facts now accessKeys) as [_ Hinv].
  destruct (Hinv k s Hs) as (Hne & key & _ & _ & -> & Hk).
  simpl. now rewrite Hk.
Qed.

Lemma getSessions_last_key_wins_witness :
  Some {| loggedInTime := 7; machineName := "laptop" |}
    ∈ getSessions_then 100
        ([ {| isSession := true; expires := 200; createdBy := "laptop";
              createdTime := 1 |} ]
         ++ {| isSession := true; expires := 300; createdBy := "laptop";
               createdTime := 7 |}
         :: [ {| isSession := true; expires := 50; createdBy := "laptop";
                 createdTime := 9 |};
              {| isSession := true; expires := 300; createdBy := "desktop";
                 createdTime := 11 |} ]).
Proof.
  apply (getSessions_last_key_wins 100
           [ {| isSession := true; expires := 200; createdBy := "laptop";
                createdTime := 1 |} ]
           [ {| isSession := true; expires := 50; createdBy := "laptop";
                createdTime := 9 |};
             {| isSession := true; expires := 300; createdBy := "desktop";
                createdTime := 11 |} ]
           {| isSession := true; expires := 300; createdBy := "laptop";
              createdTime := 7 |}).
  - reflexivity.
  - reflexivity.
  - discriminate.
  - repeat constructor.
    + intros [[_ H] _]. vm_compute in H. discriminate H.
    + intros [_ H]. discriminate H.
Defined.

Lemma getSessions_never_lists_proto_witness :
  machineName {| loggedInTime := 2; machineName := "laptop" |} <> "__proto__".
Proof.
  apply (getSessions_never_lists_proto 100
           [ {| isSession := true; expires := 200; createdBy := "__proto__";
                createdTime := 1 |};
             {| isSession := true; expires := 200; createdBy := "laptop";
                createdTime := 2 |} ]).
  vm_compute. apply list_elem_of_here.
Defined.


(** ** More on bundling *)

(** X11: a path that [lstat] cannot resolve (a component is missing, lies
    below a regular file, or the path is empty) makes
    [packageFileFromPath] throw the [lstat] error synchronously: no
    promise is created (the error is not a rejection), and nothing but
    the [lstat] has happened. *)
Theorem missing_path_throws_synchronously (env : Env) (d : gmap string Node)
    (filePath code : string) :
  Fs.lookup false d (cwd env) filePath = inl code ->
  packageFileFromPath_settled env filePath (initial_state d)
  = (Throw (SystemError code "lstat" filePath),
     {| disk := d; random_calls := 0; getPackageFilePromise := None;
        listeners := []; zipFile := None; writeStream := None;
        scan_request := None; io_log := [IO_lstat filePath];
        uncaught := None |}).
Proof.
  intros H. unfold packageFileFromPath_settled.
  rewrite (packageFileFromPath_throws env d filePath
             (SystemError code "lstat" filePath)); [reflexivity |].
  unfold Fs.lstat. now rewrite H.
Qed.

Lemma missing_path_throws_synchronously_witness :
  packageFileFromPath_settled example_env "/srv/notes.md/x"
    (initial_state example_disk)
  = (Throw (SystemError "ENOTDIR" "lstat" "/srv/notes.md/x"),
     {| disk := example_disk; random_calls := 0; getPackageFilePromise := None;
        listeners := []; zipFile := None; writeStream := None;
        scan_request := None; io_log := [IO_lstat "/srv/notes.md/x"];
        uncaught := None |}).
Proof.
  apply (missing_path_throws_synchronously example_env example_disk
           "/srv/notes.md/x" "ENOTDIR").
  vm_compute. reflexivity.
Defined.






(** X14: a rejection of the bundling promise carries either the error
    the directory walk reported or the error of a failed operation on the
    archive file; no other failure rejects it. *)
Theorem rejections_come_from_walk_or_destination (env : Env)
    (d : gmap string Node) (filePath : string) (r : Result unit) (st : State)
    (e : Error) :
  packageFileFromPath_settled env filePath (initial_state d) = (r, st) ->
  getPackageFilePromise st = Some (Rejected e) ->
  readdirr_result env filePath = inl e \/ exists k, write_fault env k = Some e.
Proof. apply rejection_origin. Qed.

Lemma rejections_come_from_walk_or_destination_witness :
  readdirr_result full_disk_env "/srv/app"
  = inl (SystemError "ENOSPC" "write" "fffffffffffffff.zip")
  \/ exists k,
       write_fault full_disk_env k
       = Some (SystemError "ENOSPC" "write" "fffffffffffffff.zip").
Proof.
  apply (rejections_come_from_walk_or_destination full_disk_env example_disk
           "/srv/app" (Ok tt)
           (snd (packageFileFromPath_settled full_disk_env "/srv/app"
                   (initial_state example_disk))));
    vm_compute; reflexivity.
Defined.


(** X15: a bundling changes no file but its own archive: when the
    working directory is a directory that no symbolic link leads to and
    no file [<alphanumeric token>.zip] in it is a symbolic link, then,
    whatever the input and the outcome, a path other than that of such a
    file holds afterwards what it held before. *)
Theorem bundling_touches_only_its_archive (env : Env) (d : gmap string Node)
    (filePath : string) (r : Result unit) (st : State) (p : string) :
  Fs.lookup true d (cwd env) (cwd env) = inr (cwd env, Directory) ->
  (forall name target, all_alnum name = true ->
     d !! Fs.os_path (cwd env) (name +:+ ".zip") <> Some (SymbolicLink target)) ->
  packageFileFromPath_settled env filePath (initial_state d) = (r, st) ->
  (forall name, all_alnum name = true ->
     p <> Fs.os_path (cwd env) (name +:+ ".zip")) ->
  disk st !! p = d !! p.
Proof.
  intros _ _ Hrun Hp.
  destruct (Fs.lstat d (cwd env) filePath) as [e0 | stats] eqn:Hlstat.
  { unfold packageFileFromPath_settled in Hrun.
    rewrite (packageFileFromPath_throws env d filePath e0 Hlstat) in Hrun.
    now inversion Hrun; subst. }
  destruct (isDirectory stats) eqn:Hdir.
  2:{ rewrite (settled_single_file env d filePath stats Hlstat Hdir) in Hrun.
      now inversion Hrun; subst. }
  destruct (readdirr_result env filePath) as [error | [directories files]] eqn:Hscan.
  { rewrite (settled_walk_error env d filePath stats error Hlstat Hdir Hscan)
      in Hrun.
    now inversion Hrun; subst. }
  destruct (settled_directory env d filePath stats directories files
              Hlstat Hdir Hscan) as (name & st' & Hrun' & Halnum & _ & Hout).
  rewrite Hrun in Hrun'. inversion Hrun'; subst.
  destruct Hout as [Hoff _]. apply Hoff, Hp, Halnum.
Qed.

(** No path of a temporary archive in [/work] is a symbolic link on the
    sample disk. *)
Lemma no_link_among_sample_archives (name target : string) :
  all_alnum name = true ->
  example_disk !! Fs.os_path "/work" (name +:+ ".zip")
  <> Some (SymbolicLink target).
Proof.
  intros Hname Hlink. rewrite (temp_archive_in_work name Hname) in Hlink.
  apply elem_of_list_to_map_2 in Hlink.
  repeat (apply elem_of_cons in Hlink; destruct Hlink as [Hlink | Hlink];
          [discriminate Hlink |]).
  apply elem_of_nil in Hlink. exact Hlink.
Qed.

Lemma bundling_touches_only_its_archive_witness :
  disk (snd (packageFileFromPath_settled example_env "/srv/app"
               (initial_state example_disk))) !! "/srv/app/a.txt"
  = example_disk !! "/srv/app/a.txt".
Proof.
  apply (bundling_touches_only_its_archive example_env example_disk "/srv/app"
           (Ok tt)).
  - vm_compute. reflexivity.
  - intros name target Hname. change (cwd example_env) with "/work".
    exact (no_link_among_sample_archives name target Hname).
  - vm_compute. reflexivity.
  - intros name Hname. change (cwd example_env) with "/work".
    rewrite (temp_archive_in_work name Hname). discriminate.
Defined.






(** [yazl] turns the backslashes of a name into slashes before it
    checks it. *)
Example yazl_renames_backslashes :
  forall st : State,
    validateMetadataPath ("app" +:+ String Path.backslash "a.txt") st
    = (Ok "app/a.txt", st).
Proof. intros st. reflexivity. Qed.



(** The bundling of [/srv/app/..]: the entry of [a.txt] is written, the
    name [../notes.md] is rejected, and the archive is never finished. *)
Example bundle_with_rejected_name :
  let st := snd (packageFileFromPath_settled parent_env "/srv/app/.."
                   (initial_state rooted_disk)) in
  getPackageFilePromise st = Some Pending
  /\ uncaught st = Some (JsError "invalid relative path: ../notes.md")
  /\ disk st !! "/work/fffffffffffffff.zip"
     = Some (RegularFile
               (ZipArchive [mkMember "a.txt" (Raw [x68; x69]%byte)] false)).
Proof. vm_compute. repeat split; reflexivity. Qed.
